(** * The text crawler of zen-binran-search

    A shallow embedding of the crawler script (URL helpers, [fetchWithRetry],
    [processUrl] and the layered driver [main]) together with the properties
    its specification states about it.

    Strings are Rocq strings, read as sequences of character codes below 256.
    The components of a parsed URL are ASCII, so the filename derivation is
    modelled exactly; page text is only tested for emptiness and stored.
    The runtime's URL parser and DOM parser are interfaces; every external
    call may throw.  Console output and the final JSON index are left
    out. *)

From Stdlib Require Import Bool Arith ZArith List Ascii String Lia Permutation.
From Stdlib Require Import DecimalString.
Import ListNotations.

Local Open Scope string_scope.

(** ** Configuration constants *)

Definition START_URL : string :=
  "https://sites.google.com/zen.ac.jp/zen-gakuseibinran/home".
Definition BASE_HOSTNAME : string := "sites.google.com".
Definition ALLOWED_PATH_PREFIX : string := "/zen.ac.jp/zen-gakuseibinran/".
Definition DELAY_MS : Z := 500.
Definition MAX_CONCURRENCY : nat := 5.

(** ** Errors

    A JavaScript call either returns a value or throws; the thrown value is
    represented by its message. *)

Inductive Exc (A : Type) : Type :=
| Ok (a : A)
| Throw (message : string).
Arguments Ok {A} a.
Arguments Throw {A} message.

(** ** String helpers *)

Fixpoint string_map (f : ascii -> ascii) (s : string) : string :=
  match s with
  | EmptyString => EmptyString
  | String c r => String (f c) (string_map f r)
  end.

Fixpoint string_forallb (p : ascii -> bool) (s : string) : bool :=
  match s with
  | EmptyString => true
  | String c r => p c && string_forallb p r
  end.

Definition is_empty (s : string) : bool :=
  match s with EmptyString => true | _ => false end.

(** the part of [s] before the first occurrence of [mark] *)
Fixpoint up_to (mark : ascii) (s : string) : string :=
  match s with
  | EmptyString => EmptyString
  | String c r =>
      if Ascii.eqb c mark then EmptyString else String c (up_to mark r)
  end.

(** [`${n}`] for an integral number. *)
Definition number_to_string (n : Z) : string :=
  NilZero.string_of_int (Z.to_int n).

Definition in_range (lo hi : nat) (c : ascii) : bool :=
  (lo <=? nat_of_ascii c)%nat && (nat_of_ascii c <=? hi)%nat.

Definition is_lower (c : ascii) : bool := in_range 97 122 c.
Definition is_upper (c : ascii) : bool := in_range 65 90 c.
Definition is_digit (c : ascii) : bool := in_range 48 57 c.
Definition is_alnum (c : ascii) : bool := is_lower c || is_upper c || is_digit c.

(** ** The URL interface of the runtime

    The script relies on the runtime's [URL] class.  Its parser is not part
    of the repository, so the development is parametric in it: [new_URL s]
    is [None] when the constructor throws a [TypeError]. *)

Class UrlApi : Type := {
  URL : Type;
  new_URL : string -> option URL;
  (** [new URL(input, base)] *)
  new_URL_base : string -> string -> option URL;
  protocol : URL -> string;
  hostname : URL -> string;
  pathname : URL -> string;
  search : URL -> string;
  hash : URL -> string;
  (** the assignment [u.hash = v] *)
  set_hash : URL -> string -> URL;
  URL_toString : URL -> string;
  (** the object [new URL(START_URL)]: the constant is a well-formed
      absolute URL, so the constructor does not throw on it *)
  START_URL_obj : URL;
  START_URL_parses : new_URL START_URL = Some START_URL_obj
}.

Section UrlHelpers.

Context {api : UrlApi}.

(** *** normalizeUrl *)

Definition normalizeUrl (url : string) : string :=
  match new_URL url with
  | Some urlObj => URL_toString (set_hash urlObj "")
  | None => url
  end.

(** *** isValidUrlToCrawl *)

Definition isValidUrlToCrawl (url : string) (baseUrlObj : URL) : bool :=
  match new_URL url with
  | Some currentUrlObj =>
      if negb (String.eqb (protocol currentUrlObj) "http:"
               || String.eqb (protocol currentUrlObj) "https:")
      then false
      else if negb (String.eqb (hostname currentUrlObj) (hostname baseUrlObj))
      then false
      else if negb (String.prefix ALLOWED_PATH_PREFIX (pathname currentUrlObj))
      then false
      else true
  | None => false
  end.

(** *** urlToFilename *)

(** [.replace(/^\/|\/$/g, "")]: the pattern matches a slash at index 0 and a
    slash at the last index. *)
Definition strip_leading_slash (s : string) : string :=
  match s with
  | String "/" r => r
  | _ => s
  end.

Fixpoint strip_trailing_slash (s : string) : string :=
  match s with
  | EmptyString => EmptyString
  | String c EmptyString => if Ascii.eqb c "/" then EmptyString else s
  | String c r => String c (strip_trailing_slash r)
  end.

Definition trim_slashes (s : string) : string :=
  strip_trailing_slash (strip_leading_slash s).

(** [.replace(/\//g, "_")] *)
Definition slashes_to_underscores (s : string) : string :=
  string_map (fun c => if Ascii.eqb c "/" then "_"%char else c) s.

(** the class [[a-zA-Z0-9_\-\.]] *)
Definition is_filename_char (c : ascii) : bool :=
  is_alnum c || Ascii.eqb c "_" || Ascii.eqb c "-" || Ascii.eqb c ".".

(** [.replace(/[^a-zA-Z0-9_\-\.]/g, "_")] *)
Definition sanitize_chars (s : string) : string :=
  string_map (fun c => if is_filename_char c then c else "_"%char) s.

Definition maxLength : nat := 100.

(** the value of [filename] before the length test *)
Definition filename_stem (urlObj : URL) : string :=
  let s := sanitize_chars (slashes_to_underscores (trim_slashes
             (pathname urlObj ++ search urlObj ++ hash urlObj))) in
  if is_empty s then "index" else s.

Definition truncate_filename (filename : string) : string :=
  if (maxLength <? String.length filename)%nat
  then substring (String.length filename - maxLength) maxLength filename
  else filename.

(** [now] is the reading of [Date.now()], taken when the parse fails. *)
Definition urlToFilename (now : Z) (url extension : string) : string :=
  match new_URL url with
  | Some urlObj => truncate_filename (filename_stem urlObj) ++ extension
  | None => "invalid_url_" ++ number_to_string now ++ extension
  end.

End UrlHelpers.

(** ** What the script relies on in the [URL] class

    [normalizeUrl] delegates all its work to the runtime: the constructor,
    the [hash] setter and the serializer.  What it achieves therefore rests
    on properties of the standard's URL objects, collected here; they speak
    of the class only, not of the script. *)

Section UrlObjects.

Context {api : UrlApi}.

(** the URL objects a script can obtain: from the constructor, with or
    without a base, possibly with the fragment removed afterwards *)
Inductive constructed : URL -> Prop :=
| constructed_new (s : string) (u : URL) :
    new_URL s = Some u -> constructed u
| constructed_base (s base : string) (u : URL) :
    new_URL_base s base = Some u -> constructed u
| constructed_clear (u : URL) :
    constructed u -> constructed (set_hash u "").

(** the schemes that [isValidUrlToCrawl] lets through *)
Definition is_web (u : URL) : Prop :=
  protocol u = "http:" \/ protocol u = "https:".

End UrlObjects.

Class UrlLaws (api : UrlApi) : Prop := {
  (** the constructor reads the serialization of a URL back to that URL *)
  href_round_trip :
    forall u, constructed u -> new_URL (URL_toString u) = Some u;
  (** [u.hash = ""] leaves no fragment, *)
  hash_cleared : forall u, hash (set_hash u "") = "";
  (** and doing it again changes nothing *)
  clear_twice : forall u, set_hash (set_hash u "") "" = set_hash u "";
  (** the serialization of a web URL is the serialization of the URL
      without its fragment, in which no [#] occurs, followed by nothing or
      by [#] and the fragment *)
  href_fragment :
    forall u, constructed u -> is_web u ->
      string_forallb (fun c => negb (Ascii.eqb c "#"))
                     (URL_toString (set_hash u "")) = true
      /\ exists f, URL_toString u = URL_toString (set_hash u "") ++ f
                   /\ (f = "" \/ exists r, f = String "#" r)
}.

(** ** A reference instance of the URL interface

    [RefUrl] implements the interface for a class of web URLs, following
    the steps of the standard's parser on them: the scheme ([http], [https]
    or [ftp]) and the host name are lower-cased, a port is read as a
    number and dropped when it is the default of the scheme, dot segments
    are removed from the path and an empty path becomes [/],
    percent-escapes and the punctuation the standard leaves alone are kept
    as they are, and a reference is resolved against a base URL.  Inputs
    outside the class (credentials, IP addresses, characters the standard
    would escape, other schemes) are reported as failures.  It serves the
    concrete evaluations below and shows that the laws of [UrlLaws] can be
    met; the theorems hold for every instance of the interface. *)

Module RefUrl.

Record t : Type := {
  scheme : string;
  host : string;
  (** the decimal digits of a port that is not the default one *)
  port : option string;
  path : string;
  query : option string;
  fragment : option string
}.

(** split at the first character satisfying [p]; the delimiter stays in
    the second part *)
Fixpoint break (p : ascii -> bool) (s : string) : string * string :=
  match s with
  | EmptyString => (EmptyString, EmptyString)
  | String c r =>
      if p c then (EmptyString, s)
      else let (a, b) := break p r in (String c a, b)
  end.

Definition contains (sub s : string) : bool :=
  match index 0 sub s with Some _ => true | None => false end.

Definition one_of (chars : string) (c : ascii) : bool :=
  contains (String c EmptyString) chars.

Definition to_lower_char (c : ascii) : ascii :=
  if is_upper c then ascii_of_nat (nat_of_ascii c + 32) else c.

Definition to_lower (s : string) : string := string_map to_lower_char s.

Definition scheme_ok (s : string) : bool :=
  String.eqb s "http" || String.eqb s "https" || String.eqb s "ftp".

Definition default_port (sch : string) : string :=
  if String.eqb sch "http" then "80"
  else if String.eqb sch "https" then "443"
  else "21".

(** the label after the last dot *)
Fixpoint last_label (h : string) : string :=
  match h with
  | EmptyString => EmptyString
  | String c r =>
      if contains "." r then last_label r
      else if Ascii.eqb c "." then r else h
  end.

Definition is_host_char (c : ascii) : bool :=
  is_lower c || is_digit c || Ascii.eqb c "." || Ascii.eqb c "-".

(** a dotted name without empty label and without encoded label, whose
    last label starts with a letter, so that it is not read as an IPv4
    address *)
Definition host_ok (h : string) : bool :=
  string_forallb is_host_char h
  && negb (String.prefix "." h)
  && match last_label h with
     | String c _ => is_lower c
     | EmptyString => false
     end
  && negb (contains ".." h)
  && negb (String.prefix "xn--" h) && negb (contains ".xn--" h).

Fixpoint decimal (acc : Z) (digits : string) : Z :=
  match digits with
  | EmptyString => acc
  | String c r => decimal (10 * acc + (Z.of_nat (nat_of_ascii c) - 48)) r
  end.

(** leading zeros removed, one digit at least kept *)
Fixpoint strip_zeros (digits : string) : string :=
  match digits with
  | EmptyString => EmptyString
  | String c r =>
      if Ascii.eqb c "0" && negb (is_empty r) then strip_zeros r else digits
  end.

(** [strip_prefix p s] is the rest of [s] after its prefix [p] *)
Fixpoint strip_prefix (p s : string) : option string :=
  match p, s with
  | EmptyString, _ => Some s
  | String a p', String b s' =>
      if Ascii.eqb a b then strip_prefix p' s' else None
  | String _ _, EmptyString => None
  end.

(** [text] is what follows the host in the authority: nothing, or a colon
    and the digits of the port.  [None] is a failure, [Some None] no port
    or the default one. *)
Definition parse_port (sch text : string) : option (option string) :=
  match strip_prefix ":" text with
  | None => Some None
  | Some digits =>
      if string_forallb is_digit digits && (decimal 0 digits <=? 65535)%Z
      then if is_empty digits then Some None
           else if String.eqb (strip_zeros digits) (default_port sch)
                then Some None
                else Some (Some (strip_zeros digits))
      else None
  end.

Definition is_unreserved (c : ascii) : bool :=
  is_alnum c || Ascii.eqb c "-" || Ascii.eqb c "." || Ascii.eqb c "_"
  || Ascii.eqb c "~".

(** the characters the standard's path state copies unchanged *)
Definition is_path_char (c : ascii) : bool :=
  is_unreserved c || one_of "%!$&'()*+,;=:@" c.

Definition segment_ok (segment : string) : bool :=
  string_forallb is_path_char segment.

(** the pieces of [s] between its slashes *)
Fixpoint split_slash (s : string) : list string :=
  match s with
  | EmptyString => [EmptyString]
  | String c r =>
      if Ascii.eqb c "/" then EmptyString :: split_slash r
      else match split_slash r with
           | segment :: rest => String c segment :: rest
           | [] => [String c EmptyString]
           end
  end.

(** the segments of a path: what follows each of its slashes *)
Definition path_segments (p : string) : list string :=
  split_slash match p with
              | String _ r => r
              | EmptyString => EmptyString
              end.

Fixpoint join (segments : list string) : string :=
  match segments with
  | [] => EmptyString
  | segment :: rest => "/" ++ segment ++ join rest
  end.

Definition is_single_dot (segment : string) : bool :=
  let s := to_lower segment in
  String.eqb s "." || String.eqb s "%2e".

Definition is_double_dot (segment : string) : bool :=
  let s := to_lower segment in
  String.eqb s ".." || String.eqb s ".%2e" || String.eqb s "%2e."
  || String.eqb s "%2e%2e".

(** The path state of the standard, one segment at a time; [kept] holds
    the segments of the path built so far, the last one first.  A
    double-dot segment removes the last segment, a single-dot segment adds
    nothing, and either leaves an empty segment when it ends the path. *)
Fixpoint remove_dots (kept segments : list string) : list string :=
  match segments with
  | [] => rev kept
  | segment :: rest =>
      let ends := match rest with [] => true | _ => false end in
      if is_double_dot segment
      then remove_dots (if ends then EmptyString :: tl kept else tl kept) rest
      else if is_single_dot segment
      then remove_dots (if ends then EmptyString :: kept else kept) rest
      else remove_dots (segment :: kept) rest
  end.

(** a segment that the path state keeps as it is *)
Definition plain (segment : string) : Prop :=
  is_double_dot segment = false /\ is_single_dot segment = false.

(** a path in the form the parser gives it *)
Definition path_ok (p : string) : bool :=
  forallb segment_ok (path_segments p)
  && String.eqb (join (remove_dots [] (path_segments p))) p.

(** the characters copied unchanged in a query and in a fragment *)
Definition extra_ok (q : string) : bool :=
  string_forallb (fun c => is_unreserved c || one_of "%!$&()*+,;=:@/?" c) q.

Definition opt_ok (o : option string) : bool :=
  match o with Some q => extra_ok q | None => true end.

Definition is_path_end (c : ascii) : bool :=
  Ascii.eqb c "?" || Ascii.eqb c "#".

Definition is_host_end (c : ascii) : bool :=
  Ascii.eqb c "/" || is_path_end c.

(** [rest] starts where the path starts *)
Definition parse_tail (sch h : string) (po : option string) (rest : string)
  : option t :=
  let (p, r1) := break is_path_end rest in
  let (q, r2) :=
    match strip_prefix "?" r1 with
    | Some r => let (q, r2) := break (Ascii.eqb "#") r in (Some q, r2)
    | None => (None, r1)
    end in
  let f := strip_prefix "#" r2 in
  if forallb segment_ok (path_segments p) && opt_ok q && opt_ok f
  then Some {| scheme := sch; host := h; port := po;
               path := join (remove_dots [] (path_segments p));
               query := q; fragment := f |}
  else None.

Definition parse (s : string) : option t :=
  let (sch0, r) := break (Ascii.eqb ":") s in
  let sch := to_lower sch0 in
  if scheme_ok sch then
    match strip_prefix "://" r with
    | Some r' =>
        let (authority, rest) := break is_host_end r' in
        let (h0, port_text) := break (Ascii.eqb ":") authority in
        let h := to_lower h0 in
        if host_ok h then
          match parse_port sch port_text with
          | Some po => parse_tail sch h po rest
          | None => None
          end
        else None
    | None => None
    end
  else None.

Definition component (mark : string) (o : option string) : string :=
  match o with
  | Some q => if is_empty q then "" else mark ++ q
  | None => ""
  end.

Definition serialize_component (mark : string) (o : option string) : string :=
  match o with
  | Some q => mark ++ q
  | None => ""
  end.

(** scheme, host and port *)
Definition origin (u : t) : string :=
  scheme u ++ "://" ++ host u ++ serialize_component ":" (port u).

Definition href (u : t) : string :=
  origin u ++ path u
  ++ serialize_component "?" (query u) ++ serialize_component "#" (fragment u).

(** the new fragment is taken as it is; the script only assigns the empty
    string *)
Definition with_hash (u : t) (v : string) : t :=
  {| scheme := scheme u; host := host u; port := port u; path := path u;
     query := query u;
     fragment := if is_empty v then None
                 else Some (match strip_prefix "#" v with
                            | Some r => r
                            | None => v
                            end) |}.

(** [p] up to its last slash *)
Fixpoint dir (p : string) : string :=
  match p with
  | EmptyString => EmptyString
  | String c r =>
      if contains "/" r || Ascii.eqb c "/" then String c (dir r)
      else EmptyString
  end.

(** [new URL(input, base)]: the base is parsed first; an input that is not
    absolute is a fragment, a query, a scheme-relative, a path-absolute or a
    path-relative reference, read in the place it takes in the base *)
Definition parse_base (input base : string) : option t :=
  match parse base with
  | None => None
  | Some b =>
      match parse input with
      | Some u => Some u
      | None =>
          if is_empty input || String.prefix "#" input
          then parse (href (with_hash b "") ++ input)
          else if String.prefix "?" input
          then parse (origin b ++ path b ++ input)
          else if String.prefix "//" input
          then parse (scheme b ++ ":" ++ input)
          else if String.prefix "/" input
          then parse (origin b ++ input)
          else if contains ":" (fst (break is_host_end input))
          then None
          else parse (origin b ++ dir (path b) ++ input)
      end
  end.

(** the records the parser produces *)
Definition port_ok (sch : string) (o : option string) : bool :=
  match o with
  | None => true
  | Some p =>
      string_forallb is_digit p && negb (is_empty p)
      && String.eqb (strip_zeros p) p && (decimal 0 p <=? 65535)%Z
      && negb (String.eqb p (default_port sch))
  end.

Definition well_formed (u : t) : bool :=
  scheme_ok (scheme u) && host_ok (host u) && port_ok (scheme u) (port u)
  && path_ok (path u) && opt_ok (query u) && opt_ok (fragment u).

Definition start : t :=
  {| scheme := "https"; host := "sites.google.com"; port := None;
     path := "/zen.ac.jp/zen-gakuseibinran/home";
     query := None; fragment := None |}.

End RefUrl.

#[export] Instance ref_url_api : UrlApi := {|
  URL := RefUrl.t;
  new_URL := RefUrl.parse;
  new_URL_base := RefUrl.parse_base;
  protocol := fun u => RefUrl.scheme u ++ ":";
  hostname := RefUrl.host;
  pathname := RefUrl.path;
  search := fun u => RefUrl.component "?" (RefUrl.query u);
  hash := fun u => RefUrl.component "#" (RefUrl.fragment u);
  set_hash := RefUrl.with_hash;
  URL_toString := RefUrl.href;
  START_URL_obj := RefUrl.start;
  START_URL_parses := eq_refl
|}.

(** ** The network, the file system and the DOM *)

Record Response : Type := {
  status : Z;
  (** outcome of [await response.text()] *)
  text : Exc string
}.

(** [response.ok] *)
Definition response_ok (r : Response) : bool :=
  (200 <=? status r)%Z && (status r <=? 299)%Z.

(** What one call performs on the outside world, in the order of the calls.
    [IOWriteTextFile filename content] is the call of [Deno.writeTextFile] on
    [filename] under the output directory; an event records the call, not
    its success. *)
Inductive IOEvent : Type :=
| IOSleep (ms : Z)
| IOFetch (url : string)
| IOEnsureDir
| IOWriteTextFile (filename content : string).

Record Element : Type := {
  textContent : option string;
  (** outcome of [getAttribute("href")] *)
  getAttribute_href : Exc (option string)
}.

Record Document : Type := {
  (** outcome of [querySelector('[role="main"], #main-content, .main-content')] *)
  querySelector_main : Exc (option Element);
  body : option Element;
  (** the elements [querySelectorAll("a")] iterates over *)
  querySelectorAll_a : list Element
}.

Class DomApi : Type := {
  (** [new DOMParser().parseFromString(html, "text/html")]; [Ok None] is a
      null document *)
  parseFromString : string -> Exc (option Document)
}.

(** What the outside world answers during one call of [processUrl]. *)
Record PageIO : Type := {
  (** outcome of the [i]-th call of [fetch], counted from 0 *)
  io_fetch : nat -> Exc Response;
  io_ensureDir : Exc unit;
  io_writeTextFile : Exc unit;
  (** reading of [Date.now()] *)
  io_now : Z
}.

(** [String.prototype.trim], on character codes below 256 *)
Definition is_white_space (c : ascii) : bool :=
  in_range 9 13 c || (nat_of_ascii c =? 32)%nat || (nat_of_ascii c =? 160)%nat.

Fixpoint trim_start (s : string) : string :=
  match s with
  | EmptyString => EmptyString
  | String c r => if is_white_space c then trim_start r else s
  end.

Fixpoint trim_end (s : string) : string :=
  match s with
  | EmptyString => EmptyString
  | String c r =>
      let r' := trim_end r in
      if is_empty r' && is_white_space c then EmptyString else String c r'
  end.

Definition trim (s : string) : string := trim_end (trim_start s).

(** ** JavaScript [Set] of strings: members in insertion order *)

Definition has (s : list string) (x : string) : bool :=
  existsb (String.eqb x) s.

Definition set_add (x : string) (s : list string) : list string :=
  if has s x then s else (s ++ [x])%list.

(** ** fetchWithRetry *)

(** One pass through the [try] block of the loop body. *)
Definition fetch_attempt (fetch : nat -> Exc Response) (url : string) (i : nat)
  : Exc Response :=
  match fetch i with
  | Ok response =>
      if negb (response_ok response)
      then Throw ("HTTP error " ++ number_to_string (status response)
                  ++ " for " ++ url)
      else Ok response
  | Throw message => Throw message
  end.

(** The [for] loop, entered with counter [i] and [n] iterations left
    ([n = retries - i]). *)
Fixpoint fetchWithRetry_loop (fetch : nat -> Exc Response) (url : string)
    (retries : nat) (delay : Z) (n i : nat) : Exc Response * list IOEvent :=
  match n with
  | O =>
      (Throw ("Failed to fetch " ++ url ++ " after "
              ++ number_to_string (Z.of_nat retries) ++ " attempts."), [])
  | S n' =>
      match fetch_attempt fetch url i with
      | Ok response => (Ok response, [IOSleep DELAY_MS; IOFetch url])
      | Throw error =>
          if (Z.of_nat i =? Z.of_nat retries - 1)%Z
          then (Throw error, [IOSleep DELAY_MS; IOFetch url])
          else
            let (result, later) :=
              fetchWithRetry_loop fetch url retries delay n' (S i) in
            (result,
             ([IOSleep DELAY_MS; IOFetch url;
               IOSleep (delay * (Z.of_nat i + 1))] ++ later)%list)
      end
  end.

Definition fetchWithRetry (fetch : nat -> Exc Response) (url : string)
    (retries : nat) (delay : Z) : Exc Response * list IOEvent :=
  fetchWithRetry_loop fetch url retries delay retries 0.

(** ** processUrl *)

Record Shared : Type := {
  visitedUrls : list string;
  scrapedData : list (string * string)
}.

(** The step of [processUrl] in which an error is raised. *)
Inductive Stage : Type :=
| AtFetch
| AtBody
| AtParse
| AtExtract
| AtSave
| AtLinks.

(** How control leaves the [try] block: at its end, by the [return []] on a
    null document, or through the [catch]. *)
Inductive Completion : Type :=
| Normal
| ReturnedEmpty
| Caught (stage : Stage) (message : string).

Record TryOutcome : Type := {
  try_shared : Shared;
  try_newUrlsFound : list string;
  try_completion : Completion;
  try_io : list IOEvent
}.

Section Crawler.

Context {api : UrlApi} {dom : DomApi}.

(** the text extraction of step 1 *)
Definition extractText (document : Document) : Exc string :=
  match querySelector_main document with
  | Throw message => Throw message
  | Ok mainContent =>
      let element :=
        match mainContent with
        | Some e => Some e
        | None => body document
        end in
      Ok match element with
         | Some e =>
             match textContent e with
             | Some t => trim t
             | None => ""
             end
         | None => ""
         end
  end.

(** the body of the inner [try] for one [href] *)
Definition link_target (visited : list string) (href url : string)
  : option string :=
  match new_URL_base href url with
  | Some resolved =>
      let absoluteUrl := normalizeUrl (URL_toString resolved) in
      if isValidUrlToCrawl absoluteUrl START_URL_obj
         && negb (has visited absoluteUrl)
      then Some absoluteUrl
      else None
  | None => None
  end.

(** the loop of step 4, from the accumulator [newUrlsFound] *)
Fixpoint findLinks (visited : list string) (url : string)
    (links : list Element) (newUrlsFound : list string)
  : list string * Exc unit :=
  match links with
  | [] => (newUrlsFound, Ok tt)
  | link :: rest =>
      match getAttribute_href link with
      | Throw message => (newUrlsFound, Throw message)
      | Ok None => findLinks visited url rest newUrlsFound
      | Ok (Some href) =>
          if is_empty href then findLinks visited url rest newUrlsFound
          else
            match link_target visited href url with
            | Some absoluteUrl =>
                findLinks visited url rest (newUrlsFound ++ [absoluteUrl])%list
            | None => findLinks visited url rest newUrlsFound
            end
      end
  end.

Definition caught (st : Shared) (stage : Stage) (message : string)
    (io : list IOEvent) : TryOutcome :=
  {| try_shared := st; try_newUrlsFound := [];
     try_completion := Caught stage message; try_io := io |}.

(** steps 1 to 3 are done; [st] and [io] are the state and the calls made
    so far *)
Definition enumerate_links (document : Document) (url : string) (st : Shared)
    (io : list IOEvent) : TryOutcome :=
  let (found, result) :=
    findLinks (visitedUrls st) url (querySelectorAll_a document) [] in
  {| try_shared := st; try_newUrlsFound := found;
     try_completion := match result with
                       | Ok _ => Normal
                       | Throw message => Caught AtLinks message
                       end;
     try_io := io |}.

(** The [try] block of [processUrl].  The shared containers are touched
    only after the last [await], so [st] is their content at that moment. *)
Definition processUrl_try (io : PageIO) (url : string) (st : Shared)
  : TryOutcome :=
  let (fetched, io1) := fetchWithRetry (io_fetch io) url 3 1000 in
  match fetched with
  | Throw message => caught st AtFetch message io1
  | Ok response =>
  match text response with
  | Throw message => caught st AtBody message io1
  | Ok html =>
  match parseFromString html with
  | Throw message => caught st AtParse message io1
  | Ok None =>
      {| try_shared := st; try_newUrlsFound := [];
         try_completion := ReturnedEmpty; try_io := io1 |}
  | Ok (Some document) =>
  match extractText document with
  | Throw message => caught st AtExtract message io1
  | Ok textContent =>
      if negb (is_empty textContent) then
        let textFilename := urlToFilename (io_now io) url ".txt" in
        match io_ensureDir io with
        | Throw message => caught st AtSave message (io1 ++ [IOEnsureDir])%list
        | Ok _ =>
            let io2 :=
              (io1 ++ [IOEnsureDir;
                       IOWriteTextFile textFilename textContent])%list in
            match io_writeTextFile io with
            | Throw message => caught st AtSave message io2
            | Ok _ =>
                enumerate_links document url
                  {| visitedUrls := visitedUrls st;
                     scrapedData := (scrapedData st ++ [(url, textContent)])%list |}
                  io2
            end
        end
      else enumerate_links document url st io1
  end end end end.

(** The synchronous prefix of [processUrl]: the guard and the mark.
    [None] is the early [return []]. *)
Definition processUrl_enter (url : string) (st : Shared) : option Shared :=
  if has (visitedUrls st) url || negb (isValidUrlToCrawl url START_URL_obj)
  then None
  else Some {| visitedUrls := set_add url (visitedUrls st);
               scrapedData := scrapedData st |}.

(** The rest of [processUrl], from the [try] to the final [return]. *)
Definition processUrl_resume (io : PageIO) (url : string) (st : Shared)
  : Shared * list string * list IOEvent :=
  let out := processUrl_try io url st in
  (try_shared out,
   match try_completion out with
   | ReturnedEmpty => []
   | Normal | Caught _ _ => try_newUrlsFound out
   end,
   try_io out).

(** [processUrl] run without interruption by another task. *)
Definition processUrl (io : PageIO) (url : string) (st : Shared)
  : Shared * list string * list IOEvent :=
  match processUrl_enter url st with
  | None => (st, [], [])
  | Some st' => processUrl_resume io url st'
  end.

End Crawler.

(** ** The crawl driver

    [main] hands each layer to [pooledMap], which calls [processUrl] on the
    batch in order, keeps at most [MAX_CONCURRENCY] calls unsettled, and
    yields the results in the order of the batch.  A call runs without
    interruption up to its first [await] (the guard and the mark) and again
    after its last one (the record and the links), so the tasks interleave
    at these two points.  The driver is a transition system over those
    steps; [layer] and [history] are bookkeeping of the model, the script
    does not store them. *)

Inductive Slot : Type :=
| InFlight (url : string)
| Resolved (newUrls : list string).

Inductive Phase : Type :=
| Idle
| InLayer (pending : list string) (slots : list Slot).

Inductive Event : Type :=
| EvLayer (n : nat) (currentBatch : list string)
| EvCall (n : nat) (url : string) (entered : bool)
| EvDone (n : nat) (url : string) (io : list IOEvent) (newUrls : list string)
| EvAdd (n : nat) (newUrl : string).

Record Crawl : Type := {
  shared : Shared;
  activeUrls : list string;
  phase : Phase;
  layer : nat;
  (** newest event first *)
  history : list Event
}.

Definition is_in_flight (s : Slot) : bool :=
  match s with InFlight _ => true | Resolved _ => false end.

Definition in_flight (slots : list Slot) : nat :=
  List.length (filter is_in_flight slots).

(** the body of the [for await] loop on one result *)
Fixpoint deliver (visited : list string) (n : nat) (newUrls : list string)
    (active : list string) (h : list Event) : list string * list Event :=
  match newUrls with
  | [] => (active, h)
  | newUrl :: rest =>
      if negb (has visited newUrl)
      then deliver visited n rest (set_add newUrl active) (EvAdd n newUrl :: h)
      else deliver visited n rest active h
  end.

Section Driver.

Context {api : UrlApi} {dom : DomApi}.

Definition initial : Crawl :=
  {| shared := {| visitedUrls := []; scrapedData := [] |};
     activeUrls := [normalizeUrl START_URL];
     phase := Idle; layer := 0; history := [] |}.

Inductive step : Crawl -> Crawl -> Prop :=
| step_layer sh active n h :
    active <> [] ->
    step {| shared := sh; activeUrls := active; phase := Idle;
            layer := n; history := h |}
         {| shared := sh; activeUrls := []; phase := InLayer active [];
            layer := n; history := EvLayer n active :: h |}
| step_call_skip sh active url pending slots n h :
    in_flight slots < MAX_CONCURRENCY ->
    processUrl_enter url sh = None ->
    step {| shared := sh; activeUrls := active;
            phase := InLayer (url :: pending) slots;
            layer := n; history := h |}
         {| shared := sh; activeUrls := active;
            phase := InLayer pending (slots ++ [Resolved []]);
            layer := n; history := EvCall n url false :: h |}
| step_call_enter sh sh' active url pending slots n h :
    in_flight slots < MAX_CONCURRENCY ->
    processUrl_enter url sh = Some sh' ->
    step {| shared := sh; activeUrls := active;
            phase := InLayer (url :: pending) slots;
            layer := n; history := h |}
         {| shared := sh'; activeUrls := active;
            phase := InLayer pending (slots ++ [InFlight url]);
            layer := n; history := EvCall n url true :: h |}
| step_done io sh sh' active url pending before after newUrls tr n h :
    processUrl_resume io url sh = (sh', newUrls, tr) ->
    step {| shared := sh; activeUrls := active;
            phase := InLayer pending (before ++ InFlight url :: after);
            layer := n; history := h |}
         {| shared := sh'; activeUrls := active;
            phase := InLayer pending (before ++ Resolved newUrls :: after);
            layer := n; history := EvDone n url tr newUrls :: h |}
| step_deliver sh active active' pending newUrls slots n h h' :
    deliver (visitedUrls sh) n newUrls active h = (active', h') ->
    step {| shared := sh; activeUrls := active;
            phase := InLayer pending (Resolved newUrls :: slots);
            layer := n; history := h |}
         {| shared := sh; activeUrls := active';
            phase := InLayer pending slots;
            layer := n; history := h' |}
| step_layer_end sh active n h :
    step {| shared := sh; activeUrls := active; phase := InLayer [] [];
            layer := n; history := h |}
         {| shared := sh; activeUrls := active; phase := Idle;
            layer := S n; history := h |}.

Inductive reachable : Crawl -> Prop :=
| reachable_initial : reachable initial
| reachable_step c c' : reachable c -> step c c' -> reachable c'.

(** *** An executable schedule

    Calls are started as soon as the pool allows; otherwise the oldest call
    finishes if it is unsettled, and hands over its result if it is settled.  [web url] is what the outside world answers to the call on
    [url]. *)

Definition settle (web : string -> PageIO) (c : Crawl) (pending : list string)
    (slots : list Slot) : option Crawl :=
  match slots with
  | Resolved newUrls :: rest =>
      let (active', h') :=
        deliver (visitedUrls (shared c)) (layer c) newUrls (activeUrls c)
                (history c) in
      Some {| shared := shared c; activeUrls := active';
              phase := InLayer pending rest;
              layer := layer c; history := h' |}
  | InFlight url :: rest =>
      let '(sh', newUrls, tr) := processUrl_resume (web url) url (shared c) in
      Some {| shared := sh'; activeUrls := activeUrls c;
              phase := InLayer pending (Resolved newUrls :: rest);
              layer := layer c;
              history := EvDone (layer c) url tr newUrls :: history c |}
  | [] => None
  end.

Definition schedule (web : string -> PageIO) (c : Crawl) : option Crawl :=
  match phase c with
  | Idle =>
      match activeUrls c with
      | [] => None
      | _ :: _ =>
          Some {| shared := shared c; activeUrls := [];
                  phase := InLayer (activeUrls c) [];
                  layer := layer c;
                  history := EvLayer (layer c) (activeUrls c) :: history c |}
      end
  | InLayer [] [] =>
      Some {| shared := shared c; activeUrls := activeUrls c; phase := Idle;
              layer := S (layer c); history := history c |}
  | InLayer [] slots => settle web c [] slots
  | InLayer (url :: pending) slots =>
      if (in_flight slots <? MAX_CONCURRENCY)%nat then
        match processUrl_enter url (shared c) with
        | None =>
            Some {| shared := shared c; activeUrls := activeUrls c;
                    phase := InLayer pending (slots ++ [Resolved []]);
                    layer := layer c;
                    history := EvCall (layer c) url false :: history c |}
        | Some sh' =>
            Some {| shared := sh'; activeUrls := activeUrls c;
                    phase := InLayer pending (slots ++ [InFlight url]);
                    layer := layer c;
                    history := EvCall (layer c) url true :: history c |}
        end
      else settle web c (url :: pending) slots
  end.

(** [Some c'] when the loop of [main] is left, in state [c'], within [fuel]
    steps *)
Fixpoint run (web : string -> PageIO) (fuel : nat) (c : Crawl) : option Crawl :=
  match schedule web c with
  | None => Some c
  | Some c' =>
      match fuel with
      | O => None
      | S fuel' => run web fuel' c'
      end
  end.

Definition main (web : string -> PageIO) (fuel : nat) : option Crawl :=
  run web fuel initial.

End Driver.

(** ** Reading the history of a run *)

Definition is_network_event (e : IOEvent) : bool :=
  match e with
  | IOSleep _ | IOFetch _ => true
  | IOEnsureDir | IOWriteTextFile _ _ => false
  end.

(** the layer in which an event happens *)
Definition label (e : Event) : nat :=
  match e with
  | EvLayer n _ | EvCall n _ _ | EvDone n _ _ _ | EvAdd n _ => n
  end.

(** the URLs whose call passed the guard *)
Definition entered_urls (h : list Event) : list string :=
  flat_map (fun e => match e with EvCall _ url true => [url] | _ => [] end) h.

(** the URLs whose call ran its [try] block *)
Definition done_urls (h : list Event) : list string :=
  flat_map (fun e => match e with EvDone _ url _ _ => [url] | _ => [] end) h.

Definition in_flight_urls (slots : list Slot) : list string :=
  flat_map (fun s => match s with InFlight url => [url] | Resolved _ => [] end)
           slots.

Definition pending_of (p : Phase) : list string :=
  match p with Idle => [] | InLayer pending _ => pending end.

Definition slots_of (p : Phase) : list Slot :=
  match p with Idle => [] | InLayer _ slots => slots end.

(** [P e earlier] holds of every event [e] of the history, [earlier] being
    the events that happened before it *)
Fixpoint each_after (P : Event -> list Event -> Prop) (h : list Event) : Prop :=
  match h with
  | [] => True
  | e :: earlier => P e earlier /\ each_after P earlier
  end.

(** [url] enters a frontier for the first time during layer [n] *)
Definition first_discovered (h : list Event) (n : nat) (url : string) : Prop :=
  In (EvAdd n url) h /\ forall k, In (EvAdd k url) h -> n <= k.

(** What the driver maintains about the calls: the guard is passed once per
    URL, by visited URLs only; the calls that are unsettled or done are
    distinct; the records come from calls that are done. *)
Definition calls_distinct (c : Crawl) : Prop :=
  NoDup (entered_urls (history c))
  /\ (forall url, In url (entered_urls (history c)) ->
                  In url (visitedUrls (shared c)))
  /\ NoDup (in_flight_urls (slots_of (phase c)) ++ done_urls (history c))
  /\ (forall url, In url (in_flight_urls (slots_of (phase c))
                          ++ done_urls (history c)) ->
                  In url (visitedUrls (shared c)))
  /\ (forall url, In url (map fst (scrapedData (shared c))) ->
                  In url (done_urls (history c)))
  /\ NoDup (map fst (scrapedData (shared c))).

(** a call runs its [try] block after it has passed the guard, in the same
    layer *)
Definition dones_after_calls (h : list Event) : Prop :=
  each_after (fun e earlier =>
                match e with
                | EvDone n url _ _ => In (EvCall n url true) earlier
                | _ => True
                end) h.

(** a call fetches its own URL only *)
Definition fetches_own_url (h : list Event) : Prop :=
  forall n url io res u,
    In (EvDone n url io res) h -> In (IOFetch u) io -> u = url.

Definition inv_io (c : Crawl) : Prop :=
  dones_after_calls (history c)
  /\ fetches_own_url (history c)
  /\ forall url, In url (in_flight_urls (slots_of (phase c))) ->
                 In (EvCall (layer c) url true) (history c).

(** *** Invariants of the driver *)

(** events are recorded in the order of the layers *)
Definition ordered (h : list Event) : Prop :=
  each_after (fun e earlier => forall e', In e' earlier -> label e' <= label e)
             h.

(** once [processUrl] has been called on a URL, the URL is not added to a
    frontier any more *)
Definition adds_before_calls (h : list Event) : Prop :=
  each_after (fun e earlier =>
                match e with
                | EvAdd _ url => forall m b, ~ In (EvCall m url b) earlier
                | _ => True
                end) h.

Definition no_adds (h : list Event) : Prop :=
  forall k url, ~ In (EvAdd k url) h.

(** a URL called in layer [k+1] was added to the frontier in layer [k];
    the call of layer 0 is on the start URL, and nothing is added before
    it *)
Definition calls_from_adds (start : string) (h : list Event) : Prop :=
  each_after (fun e earlier =>
                match e with
                | EvCall 0 url _ => url = start /\ no_adds earlier
                | EvCall (S k) url _ => In (EvAdd k url) earlier
                | _ => True
                end) h.

(** [linked start h n url]: [url] is reached from [start] by [n] links, each
    in the result of a call of the layer before *)
Inductive linked (start : string) (h : list Event) : nat -> string -> Prop :=
| linked_start : linked start h 0 start
| linked_step k u io res url :
    linked start h k u ->
    In (EvDone k u io res) h -> In url res ->
    linked start h (S k) url.

(** the batch of layer 0 is the start URL, the batch of layer [k+1] is made
    of URLs added in layer [k] *)
Definition layers_from_adds (start : string) (h : list Event) : Prop :=
  each_after (fun e earlier =>
                match e with
                | EvLayer 0 batch => batch = [start]
                | EvLayer (S k) batch =>
                    forall url, In url batch -> In (EvAdd k url) earlier
                | _ => True
                end) h.

(** a URL added in layer [k] was returned by a call of layer [k] *)
Definition adds_from_results (h : list Event) : Prop :=
  each_after (fun e earlier =>
                match e with
                | EvAdd k url =>
                    exists u io res,
                      In (EvDone k u io res) earlier /\ In url res
                | _ => True
                end) h.

(** [processUrl] has been called on every URL of the batch of layer [k] *)
Definition called_all (k : nat) (h : list Event) : Prop :=
  forall batch url, In (EvLayer k batch) h -> In url batch ->
                    exists b, In (EvCall k url b) h.

Definition inv_labels (c : Crawl) : Prop :=
  (forall e, In e (history c) -> label e <= layer c)
  /\ (phase c = Idle -> forall e, In e (history c) -> label e < layer c)
  /\ ordered (history c).

Definition inv_called (c : Crawl) : Prop :=
  (forall k, k < layer c -> called_all k (history c))
  /\ (forall batch url,
        In (EvLayer (layer c) batch) (history c) -> In url batch ->
        In url (pending_of (phase c))
        \/ exists b, In (EvCall (layer c) url b) (history c)).

Definition inv_frontier (start : string) (c : Crawl) : Prop :=
  match phase c with
  | Idle =>
      match layer c with
      | 0 => history c = [] /\ activeUrls c = [start]
      | S k => forall url, In url (activeUrls c) ->
                           In (EvAdd k url) (history c)
      end
  | InLayer pending slots =>
      (forall url, In url (activeUrls c) ->
                   In (EvAdd (layer c) url) (history c))
      /\ match layer c with
         | 0 => pending = []
                \/ (no_adds (history c) /\ slots = []
                    /\ pending = [start])
         | S k => forall url, In url pending -> In (EvAdd k url) (history c)
         end
  end
  /\ calls_from_adds start (history c)
  /\ layers_from_adds start (history c).

Section ScopeInvariant.

Context {api : UrlApi}.

Definition inv_scope (c : Crawl) : Prop :=
  (forall m url b,
      In (EvCall m url b) (history c) ->
      In url (visitedUrls (shared c))
      \/ isValidUrlToCrawl url START_URL_obj = false)
  /\ (forall newUrls,
        In (Resolved newUrls) (slots_of (phase c)) ->
        (forall url, In url newUrls ->
                     isValidUrlToCrawl url START_URL_obj = true)
        /\ (newUrls = []
            \/ exists u io, In (EvDone (layer c) u io newUrls) (history c)))
  /\ adds_before_calls (history c)
  /\ adds_from_results (history c).

End ScopeInvariant.

(** ** The specification's wording, for comparison with the code *)

(** An attempt fails when [fetch] throws or answers outside 200..299. *)
Definition is_failure (outcome : Exc Response) : bool :=
  match outcome with
  | Throw _ => true
  | Ok r => negb ((200 <=? status r)%Z && (status r <=? 299)%Z)
  end.

(** The calls of a retry sequence whose attempts [i+1 .. i+k] fail and whose
    attempt [i+k+1] is the last (attempts numbered from 1): the politeness
    delay before every attempt, and [baseBackoffMs * n] after the failed
    attempt [n]. *)
Definition retry_trace (url : string) (baseBackoffMs : Z) (i k : nat)
  : list IOEvent :=
  flat_map (fun j => [IOSleep DELAY_MS; IOFetch url;
                      IOSleep (baseBackoffMs * Z.of_nat (S j))])
           (seq i k)
  ++ [IOSleep DELAY_MS; IOFetch url].

(** "Non-alphanumeric characters are replaced": every character of [source]
    that is neither a letter nor a digit is an underscore in [stem]. *)
Definition replaces_non_alphanumeric (source stem : string) : Prop :=
  forall i c, get i source = Some c -> is_alnum c = false ->
              get i stem = Some "_"%char.

(** ** Runs of the driver *)

Section Runs.

Context {api : UrlApi} {dom : DomApi}.

(** [steps c c']: the driver goes from [c] to [c'] in any number of
    transitions *)
Inductive steps : Crawl -> Crawl -> Prop :=
| steps_refl c : steps c c
| steps_step c c' c'' : steps c c' -> step c' c'' -> steps c c''.

End Runs.

(** ** The size of a crawl *)

(** a call of the current layer has passed the guard *)
Definition entered_now (c : Crawl) : Prop :=
  exists url, In (EvCall (layer c) url true) (history c).

(** Every layer that leaves something for the next one has marked a URL
    visited: the layer number is paid for by the URLs that passed the
    guard. *)
Definition layer_paid (c : Crawl) : Prop :=
  match phase c with
  | Idle =>
      layer c <= List.length (entered_urls (history c)) + 1
      /\ (activeUrls c <> [] ->
          layer c <= List.length (entered_urls (history c)))
  | InLayer pending slots =>
      layer c <= List.length (entered_urls (history c))
      /\ (entered_now c ->
          layer c + 1 <= List.length (entered_urls (history c)))
      /\ (activeUrls c <> []
          \/ (exists url, In (InFlight url) slots)
          \/ (exists newUrls, newUrls <> [] /\ In (Resolved newUrls) slots) ->
          entered_now c)
  end.

(** the results waiting in the pool are within [universe] *)
Definition results_in (universe : list string) (c : Crawl) : Prop :=
  forall newUrls, In (Resolved newUrls) (slots_of (phase c)) ->
                  incl newUrls universe.

Definition frontier_in (universe : list string) (c : Crawl) : Prop :=
  incl (activeUrls c) universe
  /\ incl (pending_of (phase c)) universe
  /\ incl (entered_urls (history c)) universe
  /\ NoDup (activeUrls c).

Definition slot_work (s : Slot) : nat :=
  match s with InFlight _ => 2 | Resolved _ => 1 end.

(** the transitions left in the current layer, or in the layer about to
    start *)
Definition work (c : Crawl) : nat :=
  match phase c with
  | Idle =>
      match activeUrls c with
      | [] => 0
      | _ :: _ => 3 * List.length (activeUrls c) + 2
      end
  | InLayer pending slots =>
      3 * List.length pending + list_sum (map slot_work slots) + 1
  end.

(** a bound on the transitions left, when at most [size] URLs can be
    visited *)
Definition potential (size : nat) (c : Crawl) : nat :=
  (size + 1 - layer c) * (3 * size + 3) + work c.

(** the transitions that suffice to crawl a site all of whose links point
    into [site] *)
Definition crawl_fuel (site : list string) : nat :=
  (List.length site + 2) * (3 * List.length site + 6) + 5.

Section ClosedSite.

Context {api : UrlApi} {dom : DomApi}.

(** every link found on a page of the site, in any state, points into
    [site] *)
Definition site_closed (web : string -> PageIO) (site : list string) : Prop :=
  forall url st x,
    In x (snd (fst (processUrl_resume (web url) url st))) -> In x site.

End ClosedSite.

(** ** The links of a page, one anchor at a time *)

Section LinkTargets.

Context {api : UrlApi}.

(** what one anchor contributes to the result: nothing without a usable
    [href], otherwise the normalized target when it is in scope and not
    visited *)
Definition link_targets (visited : list string) (url : string)
    (link : Element) : list string :=
  match getAttribute_href link with
  | Ok (Some href) =>
      if is_empty href then []
      else match link_target visited href url with
           | Some absoluteUrl => [absoluteUrl]
           | None => []
           end
  | Ok None | Throw _ => []
  end.

End LinkTargets.

(** ** Measures of an I/O trace *)

Definition is_fetch (e : IOEvent) : bool :=
  match e with IOFetch _ => true | _ => false end.

(** the number of calls of [fetch] *)
Definition fetch_count (tr : list IOEvent) : nat :=
  List.length (filter is_fetch tr).

(** the time spent in [sleep], in milliseconds *)
Fixpoint sleep_total (tr : list IOEvent) : Z :=
  match tr with
  | [] => 0
  | IOSleep ms :: rest => ms + sleep_total rest
  | _ :: rest => sleep_total rest
  end.

(** every call of [fetch] comes right after a sleep of [DELAY_MS] *)
Fixpoint polite (tr : list IOEvent) : bool :=
  match tr with
  | [] => true
  | IOSleep ms :: IOFetch _ :: rest => (ms =? DELAY_MS)%Z && polite rest
  | IOFetch _ :: _ => false
  | _ :: rest => polite rest
  end.

(** ** A small site for concrete runs

    The home page links to two pages of the section (one through a fragment)
    and to another host; page [a] has text and links back; page [b] has no
    text. *)

Module Sample.

Definition url_home : string := START_URL.
Definition url_a : string :=
  "https://sites.google.com/zen.ac.jp/zen-gakuseibinran/a".
Definition url_b : string :=
  "https://sites.google.com/zen.ac.jp/zen-gakuseibinran/b".
Definition url_other : string :=
  "https://other.com/zen.ac.jp/zen-gakuseibinran/p".

Definition anchor (href : string) : Element :=
  {| textContent := Some "link"; getAttribute_href := Ok (Some href) |}.

Definition broken_anchor : Element :=
  {| textContent := Some "link"; getAttribute_href := Throw "getAttribute" |}.

Definition page (main : string) (links : list Element) : Document :=
  {| querySelector_main :=
       Ok (Some {| textContent := Some main;
                   getAttribute_href := Ok None |});
     body := Some {| textContent := Some main; getAttribute_href := Ok None |};
     querySelectorAll_a := links |}.

Definition home_page : Document :=
  page " Home "
       [anchor "/zen.ac.jp/zen-gakuseibinran/a";
        anchor "/zen.ac.jp/zen-gakuseibinran/b#top";
        anchor url_other].

Definition page_a : Document :=
  page "Page A" [anchor url_home; anchor "/zen.ac.jp/zen-gakuseibinran/b"].

Definition page_b : Document :=
  page "  " [anchor "/zen.ac.jp/zen-gakuseibinran/a"].

(** a page whose second anchor fails while it is read *)
Definition page_half : Document :=
  page "Half" [anchor "/zen.ac.jp/zen-gakuseibinran/a"; broken_anchor;
               anchor "/zen.ac.jp/zen-gakuseibinran/b"].

#[export] Instance dom : DomApi := {|
  parseFromString := fun html =>
    if String.eqb html "home" then Ok (Some home_page)
    else if String.eqb html "a" then Ok (Some page_a)
    else if String.eqb html "b" then Ok (Some page_b)
    else if String.eqb html "half" then Ok (Some page_half)
    else if String.eqb html "crash" then Throw "parser"
    else Ok None
|}.

Definition serves (html : string) : Exc Response :=
  Ok {| status := 200; text := Ok html |}.

Definition fails (code : Z) : Exc Response :=
  Ok {| status := code; text := Ok "" |}.

Definition online (fetch : nat -> Exc Response) : PageIO :=
  {| io_fetch := fetch; io_ensureDir := Ok tt; io_writeTextFile := Ok tt;
     io_now := 0 |}.

(** the disk refuses the write *)
Definition disk_full (fetch : nat -> Exc Response) : PageIO :=
  {| io_fetch := fetch; io_ensureDir := Ok tt;
     io_writeTextFile := Throw "No space left on device"; io_now := 0 |}.

Definition web (url : string) : PageIO :=
  online (fun _ =>
    if String.eqb url url_home then serves "home"
    else if String.eqb url url_a then serves "a"
    else if String.eqb url url_b then serves "b"
    else fails 404).

(** two failed attempts, then the page *)
Definition flaky (html : string) (i : nat) : Exc Response :=
  match i with
  | 0 => Throw "connection reset"
  | 1 => fails 503
  | _ => serves html
  end.

Definition empty_shared : Shared := {| visitedUrls := []; scrapedData := [] |}.

Fixpoint replicate (n : nat) (c : ascii) : string :=
  match n with
  | O => EmptyString
  | S n' => String c (replicate n' c)
  end.

(** a URL whose path has 150 characters after the leading slash *)
Definition long_url : string :=
  "https://x/" ++ replicate 50 "a" ++ replicate 100 "b".

(** the state in which the crawl of the site ends *)
Definition final : Crawl :=
  match main web 100 with
  | Some c => c
  | None => initial
  end.

(** the targets of all the links of the site *)
Definition site : list string := [url_home; url_a; url_b; url_other].

(** the call on the home page, as recorded in the history *)
Definition home_done : Event :=
  EvDone 0 url_home
         [IOSleep 500; IOFetch url_home; IOEnsureDir;
          IOWriteTextFile "zen.ac.jp_zen-gakuseibinran_home.txt" "Home"]
         [url_a; url_b].

(** the page with the failing anchor, fetched while [url_b] is visited *)
Definition half_io : PageIO := online (fun _ => serves "half").

Definition half_shared : Shared :=
  {| visitedUrls := [url_home; url_b]; scrapedData := [] |}.

End Sample.

(** * Properties *)

(** ** Strings *)

Lemma prefix_append (p s : string) :
  String.prefix p s = true <-> exists rest, s = p ++ rest.
Proof.
  revert s; induction p as [|c p IH]; intros s; simpl.
  - split; [intros _; now exists s | intros _; now destruct s].
  - destruct s as [|d s].
    + split; [discriminate | intros [rest H]; discriminate].
    + simpl. destruct (ascii_dec c d) as [->|Hne].
      * rewrite IH. split; intros [rest H]; exists rest.
        -- now rewrite H.
        -- now injection H.
      * split; [discriminate | intros [rest H]; injection H; congruence].
Qed.

Lemma string_map_length f (s : string) :
  String.length (string_map f s) = String.length s.
Proof. induction s; simpl; congruence. Qed.

Lemma string_map_get f (s : string) i :
  get i (string_map f s) = option_map f (get i s).
Proof.
  revert i; induction s as [|c s IH]; intros [|i]; simpl; auto.
Qed.

Lemma string_map_map f g (s : string) :
  string_map f (string_map g s) = string_map (fun c => f (g c)) s.
Proof. induction s; simpl; congruence. Qed.

Lemma is_empty_true (s : string) : is_empty s = true <-> s = "".
Proof. destruct s; simpl; split; congruence. Qed.

Lemma append_length (a b : string) :
  String.length (a ++ b) = String.length a + String.length b.
Proof. induction a; simpl; congruence. Qed.

Lemma substring_all (s : string) : substring 0 (String.length s) s = s.
Proof. induction s; simpl; congruence. Qed.

(** Dropping [n] characters leaves a suffix. *)
Lemma substring_suffix (s : string) n :
  n <= String.length s ->
  exists dropped,
    s = dropped ++ substring n (String.length s - n) s
    /\ String.length dropped = n.
Proof.
  revert n; induction s as [|c s IH]; intros [|n] Hn; simpl in *.
  - now exists "".
  - lia.
  - exists "". now rewrite substring_all.
  - destruct (IH n) as [d [Hd Hl]]; [lia|].
    exists (String c d). simpl. split; congruence.
Qed.

Lemma substring_length (s : string) n m :
  n + m <= String.length s -> String.length (substring n m s) = m.
Proof.
  revert n m; induction s as [|c s IH]; intros [|n] [|m] H; simpl in *;
    try lia; auto.
  - rewrite (IH 0 m); lia.
  - rewrite (IH n 0); lia.
  - apply IH; lia.
Qed.

Lemma string_app_inv_head (a b c : string) : a ++ b = a ++ c -> b = c.
Proof. induction a; simpl; intros H; [assumption | injection H; auto]. Qed.

(** ** The URL helpers *)

Section UrlHelperFacts.

Context {api : UrlApi}.

(** C4. [isValidUrlToCrawl url base] is true exactly when [url] parses as an
    absolute URL whose scheme is http or https, whose hostname is the
    hostname of [base] and whose path starts with the allowed prefix; in
    particular it is false when the parse fails. *)
Theorem isValidUrlToCrawl_iff (url : string) (baseUrlObj : URL) :
  isValidUrlToCrawl url baseUrlObj = true <->
  exists u, new_URL url = Some u
            /\ (protocol u = "http:" \/ protocol u = "https:")
            /\ hostname u = hostname baseUrlObj
            /\ exists rest, pathname u = ALLOWED_PATH_PREFIX ++ rest.
Proof.
  unfold isValidUrlToCrawl.
  destruct (new_URL url) as [u|].
  - split.
    + intros H.
      destruct (String.eqb (protocol u) "http:"
                || String.eqb (protocol u) "https:") eqn:E1;
        [|discriminate].
      destruct (String.eqb (hostname u) (hostname baseUrlObj)) eqn:E2;
        [|discriminate].
      destruct (String.prefix ALLOWED_PATH_PREFIX (pathname u)) eqn:E3;
        [|discriminate].
      exists u. repeat split.
      * apply orb_true_iff in E1. now rewrite !String.eqb_eq in E1.
      * now apply String.eqb_eq.
      * now apply prefix_append.
    + intros [u' [[= <-] [Hp [Hh Hx]]]].
      apply prefix_append in Hx. apply String.eqb_eq in Hh.
      assert (E : String.eqb (protocol u) "http:"
                  || String.eqb (protocol u) "https:" = true).
      { apply orb_true_iff. now rewrite !String.eqb_eq. }
      rewrite E, Hh, Hx. reflexivity.
  - split; [discriminate | intros [u [H _]]; discriminate].
Qed.

Lemma isValidUrlToCrawl_parse_failure (url : string) (baseUrlObj : URL) :
  new_URL url = None -> isValidUrlToCrawl url baseUrlObj = false.
Proof. unfold isValidUrlToCrawl; now intros ->. Qed.

Lemma isValidUrlToCrawl_cross_host (url : string) (baseUrlObj u : URL) :
  new_URL url = Some u -> hostname u <> hostname baseUrlObj ->
  isValidUrlToCrawl url baseUrlObj = false.
Proof.
  intros Hu Hh. unfold isValidUrlToCrawl. rewrite Hu.
  apply String.eqb_neq in Hh. rewrite Hh.
  now destruct (negb _).
Qed.

Lemma up_to_app (mark : ascii) (a f : string) :
  string_forallb (fun c => negb (Ascii.eqb c mark)) a = true ->
  f = "" \/ (exists r, f = String mark r) ->
  up_to mark (a ++ f) = a.
Proof.
  intros Ha Hf. induction a as [|c a IH]; simpl in *.
  - destruct Hf as [->|[r ->]]; simpl; [reflexivity|].
    now rewrite Ascii.eqb_refl.
  - apply andb_true_iff in Ha. destruct Ha as [Hc Ha].
    apply negb_true_iff in Hc. rewrite Hc, (IH Ha). reflexivity.
Qed.


Lemma normalizeUrl_unparsable (url : string) :
  new_URL url = None -> normalizeUrl url = url.
Proof. unfold normalizeUrl; now intros ->. Qed.

(** C5, as amended. For a URL that parses, [urlToFilename] does not read the
    clock: any two invocations give the same filename. *)
Theorem urlToFilename_deterministic_on_parsable
    (url extension : string) (u : URL) (now1 now2 : Z) :
  new_URL url = Some u ->
  urlToFilename now1 url extension = urlToFilename now2 url extension.
Proof. unfold urlToFilename; now intros ->. Qed.

Lemma urlToFilename_unparsable (url extension : string) (now : Z) :
  new_URL url = None ->
  urlToFilename now url extension
  = "invalid_url_" ++ number_to_string now ++ extension.
Proof. unfold urlToFilename; now intros ->. Qed.

Lemma sanitize_slashes (s : string) :
  sanitize_chars (slashes_to_underscores s) = sanitize_chars s.
Proof.
  unfold sanitize_chars, slashes_to_underscores.
  induction s as [|c s IH]; simpl; [reflexivity|].
  rewrite IH. f_equal.
  destruct (Ascii.eqb_spec c "/"); [subst|]; reflexivity.
Qed.

Lemma truncate_filename_short (name : string) :
  String.length name <= maxLength -> truncate_filename name = name.
Proof.
  intros H. unfold truncate_filename.
  destruct (Nat.ltb_spec maxLength (String.length name)); [lia | reflexivity].
Qed.

Lemma truncate_filename_long (name : string) :
  maxLength < String.length name ->
  String.length (truncate_filename name) = maxLength
  /\ exists dropped, name = dropped ++ truncate_filename name.
Proof.
  intros H. unfold truncate_filename.
  destruct (Nat.ltb_spec maxLength (String.length name)); [|lia].
  split.
  - apply substring_length. lia.
  - destruct (substring_suffix name (String.length name - maxLength))
      as [d [Hd _]]; [lia|].
    exists d.
    replace (String.length name - (String.length name - maxLength))
      with maxLength in Hd by lia.
    exact Hd.
Qed.

(** C7, as amended. For a URL that parses, the filename is the stem, cut to
    its last 100 characters when it is longer, followed by the extension.
    The stem is "index" when path+query+fragment without its leading and
    trailing slash is empty; otherwise it has that string's length, keeps
    the letters, digits, [_], [-] and [.] and has [_] at every other
    position (slashes included).  A stem of 150 characters is cut to its
    characters 50..149. *)
Theorem urlToFilename_shape (now : Z) (url extension : string) (u : URL) :
  new_URL url = Some u ->
  let source := trim_slashes (pathname u ++ search u ++ hash u) in
  let stem := filename_stem u in
  let kept := truncate_filename stem in
  urlToFilename now url extension = kept ++ extension
  /\ (source = "" -> stem = "index")
  /\ (source <> "" ->
      String.length stem = String.length source
      /\ forall i c, get i source = Some c ->
           get i stem = Some (if is_filename_char c then c else "_"%char))
  /\ (String.length stem <= 100 -> kept = stem)
  /\ (100 < String.length stem ->
      String.length kept = 100 /\ exists dropped, stem = dropped ++ kept)
  /\ (String.length stem = 150 -> kept = substring 50 100 stem).
Proof.
  intros Hu source stem kept.
  assert (Hstem : stem = if is_empty (sanitize_chars source) then "index"
                         else sanitize_chars source).
  { unfold stem, filename_stem. now rewrite sanitize_slashes. }
  repeat split.
  - unfold urlToFilename. now rewrite Hu.
  - intros E. rewrite Hstem, E. reflexivity.
  - rewrite Hstem. destruct source; [congruence|].
    simpl. now rewrite string_map_length.
  - intros i c Hc. rewrite Hstem.
    destruct source as [|d source']; [congruence|].
    change (is_empty (sanitize_chars (String d source'))) with false.
    cbv iota. unfold sanitize_chars. rewrite string_map_get, Hc. reflexivity.
  - apply truncate_filename_short.
  - apply truncate_filename_long. assumption.
  - apply truncate_filename_long. assumption.
  - intros H150. unfold kept, truncate_filename. rewrite H150. reflexivity.
Qed.

End UrlHelperFacts.

(** ** The URL helpers on the reference instance *)

Module RefUrlFacts.

Import Sample.

(** *** The reference parser reads back what it serializes *)

Lemma break_spec p (s a b : string) :
  RefUrl.break p s = (a, b) ->
  s = a ++ b
  /\ string_forallb (fun c => negb (p c)) a = true
  /\ (b = "" \/ exists c r, b = String c r /\ p c = true).
Proof.
  revert a b; induction s as [|c s IH]; intros a b; simpl.
  - intros [= <- <-]. auto.
  - destruct (p c) eqn:Ep.
    + intros [= <- <-]. repeat split. right. eauto.
    + destruct (RefUrl.break p s) as [a' b'] eqn:Eb. intros [= <- <-].
      destruct (IH a' b' eq_refl) as (-> & Ha & Hb).
      simpl. rewrite Ep. auto.
Qed.

Lemma break_app p (a b : string) :
  string_forallb (fun c => negb (p c)) a = true ->
  (b = "" \/ exists c r, b = String c r /\ p c = true) ->
  RefUrl.break p (a ++ b) = (a, b).
Proof.
  intros Ha Hb. induction a as [|c a IH]; simpl in *.
  - destruct Hb as [->|(c & r & -> & Hc)]; simpl; [reflexivity|].
    now rewrite Hc.
  - apply andb_true_iff in Ha. destruct Ha as [Hc Ha].
    apply negb_true_iff in Hc. rewrite Hc, (IH Ha). reflexivity.
Qed.

Lemma append_empty (s : string) : s ++ "" = s.
Proof. induction s; simpl; congruence. Qed.

Lemma string_app_assoc (a b c : string) : (a ++ b) ++ c = a ++ b ++ c.
Proof. induction a; simpl; congruence. Qed.

Lemma string_forallb_app (p : ascii -> bool) (a b : string) :
  string_forallb p (a ++ b) = string_forallb p a && string_forallb p b.
Proof.
  induction a as [|c a IH]; simpl; [reflexivity|].
  now rewrite IH, andb_assoc.
Qed.

Lemma string_forallb_impl (p q : ascii -> bool) (s : string) :
  (forall c, p c = true -> q c = true) ->
  string_forallb p s = true -> string_forallb q s = true.
Proof.
  intros Hpq. induction s as [|c s IH]; simpl; [auto|].
  rewrite !andb_true_iff. intros [Hc Hs]. auto.
Qed.

Lemma strip_prefix_app (p s : string) :
  RefUrl.strip_prefix p (p ++ s) = Some s.
Proof.
  induction p as [|c p IH]; simpl; [now destruct s|].
  now rewrite Ascii.eqb_refl.
Qed.

(** facts about single characters, checked on each of them *)
Ltac each_char c :=
  destruct c as [[] [] [] [] [] [] [] []]; vm_compute;
  repeat split; intros; try reflexivity; try discriminate.

(** a character accepted in a host name stands for itself in lower case
    and ends neither the authority nor the host *)
Lemma host_char (c : ascii) :
  RefUrl.is_host_char c = true ->
  RefUrl.to_lower_char c = c
  /\ negb (RefUrl.is_host_end c) = true
  /\ negb (Ascii.eqb ":" c) = true
  /\ negb (Ascii.eqb c "#") = true.
Proof. each_char c. Qed.

Lemma digit_char (c : ascii) :
  is_digit c = true ->
  negb (RefUrl.is_host_end c) = true /\ negb (Ascii.eqb c "#") = true.
Proof. each_char c. Qed.

Lemma path_char (c : ascii) :
  RefUrl.is_path_char c || Ascii.eqb c "/" = true ->
  negb (RefUrl.is_path_end c) = true /\ negb (Ascii.eqb c "#") = true.
Proof. each_char c. Qed.

Lemma segment_char (c : ascii) :
  RefUrl.is_path_char c = true -> negb (Ascii.eqb c "/") = true.
Proof. each_char c. Qed.

Lemma extra_char (c : ascii) :
  RefUrl.is_unreserved c || RefUrl.one_of "%!$&()*+,;=:@/?" c = true ->
  negb (Ascii.eqb "#" c) = true /\ negb (Ascii.eqb c "#") = true.
Proof. each_char c. Qed.

Lemma scheme_cases (sch : string) :
  RefUrl.scheme_ok sch = true -> sch = "http" \/ sch = "https" \/ sch = "ftp".
Proof.
  unfold RefUrl.scheme_ok. rewrite !orb_true_iff, !String.eqb_eq. tauto.
Qed.

Lemma scheme_text (sch : string) :
  RefUrl.scheme_ok sch = true ->
  RefUrl.to_lower sch = sch
  /\ string_forallb (fun c => negb (Ascii.eqb ":" c)) sch = true
  /\ string_forallb (fun c => negb (Ascii.eqb c "#")) sch = true.
Proof.
  intros H. destruct (scheme_cases sch H) as [-> | [-> | ->]];
    vm_compute; auto.
Qed.

Lemma host_text (h : string) :
  RefUrl.host_ok h = true ->
  RefUrl.to_lower h = h
  /\ string_forallb (fun c => negb (RefUrl.is_host_end c)) h = true
  /\ string_forallb (fun c => negb (Ascii.eqb ":" c)) h = true
  /\ string_forallb (fun c => negb (Ascii.eqb c "#")) h = true.
Proof.
  unfold RefUrl.host_ok. rewrite !andb_true_iff.
  intros [[[[[Hall _] _] _] _] _]. clear - Hall.
  split; [|repeat split; revert Hall; apply string_forallb_impl;
           intros c Hc; apply (host_char c Hc)].
  unfold RefUrl.to_lower.
  induction h as [|c h IH]; [reflexivity|].
  cbn [string_map string_forallb] in *.
  apply andb_true_iff in Hall. destruct Hall as [Hc Hall].
  rewrite (proj1 (host_char c Hc)), (IH Hall). reflexivity.
Qed.

(** *** Ports *)

Lemma strip_zeros_cases (d : string) :
  RefUrl.strip_zeros d = d
  \/ exists r, d = String "0" r /\ is_empty r = false
               /\ RefUrl.strip_zeros d = RefUrl.strip_zeros r.
Proof.
  destruct d as [|c r]; [now left|]. simpl.
  destruct (Ascii.eqb_spec c "0") as [->|Hc]; [|now left].
  destruct r as [|c' r']; [now left|].
  right. exists (String c' r'). auto.
Qed.

Lemma strip_zeros_facts (d : string) :
  RefUrl.strip_zeros (RefUrl.strip_zeros d) = RefUrl.strip_zeros d
  /\ RefUrl.decimal 0 (RefUrl.strip_zeros d) = RefUrl.decimal 0 d
  /\ (is_empty d = false -> is_empty (RefUrl.strip_zeros d) = false)
  /\ (string_forallb is_digit d = true ->
      string_forallb is_digit (RefUrl.strip_zeros d) = true).
Proof.
  induction d as [|c r IH]; [simpl; auto|].
  destruct (strip_zeros_cases (String c r)) as [E|(r' & [= -> <-] & Hr & E)].
  - rewrite !E. auto.
  - rewrite !E. destruct IH as (I1 & I2 & I3 & I4).
    repeat split; auto.
Qed.

Lemma parse_port_ok (sch text : string) (po : option string) :
  RefUrl.parse_port sch text = Some po -> RefUrl.port_ok sch po = true.
Proof.
  unfold RefUrl.parse_port.
  destruct (RefUrl.strip_prefix ":" text) as [digits|];
    [|now intros [= <-]].
  destruct (string_forallb is_digit digits) eqn:Hd; [|discriminate].
  destruct (RefUrl.decimal 0 digits <=? 65535)%Z eqn:Hv; [|discriminate].
  simpl.
  destruct (is_empty digits) eqn:He; [now intros [= <-]|].
  destruct (String.eqb (RefUrl.strip_zeros digits) (RefUrl.default_port sch))
    eqn:Hdef; intros [= <-]; [reflexivity|].
  destruct (strip_zeros_facts digits) as (H1 & H2 & H3 & H4).
  unfold RefUrl.port_ok.
  rewrite (H4 Hd), (H3 He), H1, String.eqb_refl, H2, Hv, Hdef. reflexivity.
Qed.

Lemma parse_port_text (sch : string) (po : option string) :
  RefUrl.port_ok sch po = true ->
  RefUrl.parse_port sch (RefUrl.serialize_component ":" po) = Some po.
Proof.
  destruct po as [p|]; [|reflexivity].
  unfold RefUrl.port_ok, RefUrl.parse_port, RefUrl.serialize_component.
  rewrite !andb_true_iff, !negb_true_iff, String.eqb_eq.
  intros [[[[Hd He] Hz] Hv] Hdef].
  rewrite strip_prefix_app, Hd, Hv, He, Hz, Hdef. reflexivity.
Qed.

Lemma port_text (sch : string) (po : option string) :
  RefUrl.port_ok sch po = true ->
  string_forallb (fun c => negb (RefUrl.is_host_end c))
                 (RefUrl.serialize_component ":" po) = true
  /\ string_forallb (fun c => negb (Ascii.eqb c "#"))
                    (RefUrl.serialize_component ":" po) = true
  /\ (RefUrl.serialize_component ":" po = ""
      \/ exists c r, RefUrl.serialize_component ":" po = String c r
                     /\ Ascii.eqb ":" c = true).
Proof.
  destruct po as [p|]; [|simpl; auto].
  unfold RefUrl.port_ok. rewrite !andb_true_iff.
  intros [[[[Hd _] _] _] _].
  split; [|split].
  - simpl. revert Hd. apply string_forallb_impl.
    intros c Hc. apply (digit_char c Hc).
  - simpl. revert Hd. apply string_forallb_impl.
    intros c Hc. apply (digit_char c Hc).
  - right. exists ":"%char, p. auto.
Qed.

(** *** Paths *)

Lemma split_slash_nonempty (s : string) : RefUrl.split_slash s <> [].
Proof.
  induction s as [|c s IH]; simpl; [discriminate|].
  destruct (Ascii.eqb c "/"); [discriminate|].
  destruct (RefUrl.split_slash s); discriminate.
Qed.

Lemma split_slash_app (segment s : string) :
  string_forallb (fun c => negb (Ascii.eqb c "/")) segment = true ->
  RefUrl.split_slash (segment ++ String "/" s)
  = segment :: RefUrl.split_slash s.
Proof.
  induction segment as [|c segment IH]; simpl; [reflexivity|].
  rewrite andb_true_iff, negb_true_iff. intros [Hc Hs].
  now rewrite Hc, (IH Hs).
Qed.

Lemma split_slash_one (segment : string) :
  string_forallb (fun c => negb (Ascii.eqb c "/")) segment = true ->
  RefUrl.split_slash segment = [segment].
Proof.
  induction segment as [|c segment IH]; simpl; [reflexivity|].
  rewrite andb_true_iff, negb_true_iff. intros [Hc Hs].
  now rewrite Hc, (IH Hs).
Qed.

Lemma segment_text (segment : string) :
  RefUrl.segment_ok segment = true ->
  string_forallb (fun c => negb (Ascii.eqb c "/")) segment = true.
Proof.
  apply string_forallb_impl. intros c Hc. exact (segment_char c Hc).
Qed.

(** The segments of a path put together from segments are those
    segments. *)
Lemma path_segments_join (segments : list string) :
  segments <> [] ->
  Forall (fun segment => RefUrl.segment_ok segment = true) segments ->
  RefUrl.path_segments (RefUrl.join segments) = segments.
Proof.
  intros Hne Hok. destruct segments as [|first rest]; [congruence|].
  clear Hne. unfold RefUrl.path_segments. cbn [RefUrl.join append].
  revert first Hok. induction rest as [|second rest IH]; intros first Hok.
  - cbn [RefUrl.join]. rewrite append_empty. apply split_slash_one.
    apply segment_text. now inversion Hok.
  - cbn [RefUrl.join append]. inversion Hok as [|? ? Hfirst Hrest]; subst.
    rewrite split_slash_app by now apply segment_text.
    now rewrite (IH second Hrest).
Qed.

Lemma join_text (segments : list string) :
  Forall (fun segment => RefUrl.segment_ok segment = true) segments ->
  string_forallb (fun c => RefUrl.is_path_char c || Ascii.eqb c "/")
                 (RefUrl.join segments) = true.
Proof.
  induction 1 as [|segment rest Hs _ IH]; [reflexivity|].
  cbn [RefUrl.join append string_forallb].
  rewrite string_forallb_app, IH, andb_true_r.
  rewrite Ascii.eqb_refl, orb_true_r. cbn [andb].
  revert Hs. apply string_forallb_impl. intros c ->. reflexivity.
Qed.

Lemma remove_dots_keeps (P : string -> Prop) :
  P "" ->
  forall segments kept,
    Forall P kept -> Forall P segments ->
    Forall P (RefUrl.remove_dots kept segments).
Proof.
  intros Hempty. induction segments as [|segment rest IH]; intros kept Hk Hs.
  - simpl. now apply Forall_rev.
  - inversion Hs as [|? ? Hsegment Hrest]; subst.
    assert (Htl : Forall P (tl kept)).
    { destruct kept; [constructor | now inversion Hk]. }
    cbn [RefUrl.remove_dots].
    destruct (RefUrl.is_double_dot segment);
      [|destruct (RefUrl.is_single_dot segment)];
      apply IH; auto; destruct rest; auto.
Qed.

Lemma remove_dots_plain (segments kept : list string) :
  Forall RefUrl.plain kept ->
  Forall RefUrl.plain (RefUrl.remove_dots kept segments).
Proof.
  assert (Hempty : RefUrl.plain "") by (split; reflexivity).
  revert kept. induction segments as [|segment rest IH]; intros kept Hk.
  - simpl. now apply Forall_rev.
  - assert (Htl : Forall RefUrl.plain (tl kept)).
    { destruct kept; [constructor | now inversion Hk]. }
    cbn [RefUrl.remove_dots].
    destruct (RefUrl.is_double_dot segment) eqn:Hdd;
      [|destruct (RefUrl.is_single_dot segment) eqn:Hsd];
      apply IH; try (destruct rest; auto; fail).
    constructor; [split|]; assumption.
Qed.

Lemma remove_dots_nonempty (segments kept : list string) :
  segments <> [] -> RefUrl.remove_dots kept segments <> [].
Proof.
  revert kept. induction segments as [|segment rest IH]; intros kept Hne;
    [congruence|].
  cbn [RefUrl.remove_dots]. destruct rest as [|next rest].
  - destruct (RefUrl.is_double_dot segment);
      [|destruct (RefUrl.is_single_dot segment)]; simpl;
      intros H; apply app_eq_nil in H; destruct H as [_ H]; discriminate.
  - destruct (RefUrl.is_double_dot segment);
      [|destruct (RefUrl.is_single_dot segment)]; apply IH; discriminate.
Qed.

Lemma remove_dots_of_plain (segments kept : list string) :
  Forall RefUrl.plain segments ->
  RefUrl.remove_dots kept segments = (rev kept ++ segments)%list.
Proof.
  revert kept. induction segments as [|segment rest IH]; intros kept Hs.
  - simpl. now rewrite app_nil_r.
  - inversion Hs as [|? ? [Hdd Hsd] Hrest]; subst.
    cbn [RefUrl.remove_dots]. rewrite Hdd, Hsd, (IH _ Hrest).
    simpl. now rewrite <- app_assoc.
Qed.

Lemma forallb_Forall_true {A : Type} (f : A -> bool) (l : list A) :
  forallb f l = true <-> Forall (fun x => f x = true) l.
Proof. rewrite forallb_forall, Forall_forall. reflexivity. Qed.

(** The path the parser builds from acceptable segments is in the form
    the parser gives. *)
Lemma path_built (segments : list string) :
  segments <> [] ->
  forallb RefUrl.segment_ok segments = true ->
  RefUrl.path_ok (RefUrl.join (RefUrl.remove_dots [] segments)) = true.
Proof.
  intros Hne Hok. apply forallb_Forall_true in Hok.
  set (built := RefUrl.remove_dots [] segments).
  assert (Hb : Forall (fun x => RefUrl.segment_ok x = true) built).
  { apply remove_dots_keeps; auto. }
  assert (Hp : Forall RefUrl.plain built) by now apply remove_dots_plain.
  assert (Hn : built <> []) by now apply remove_dots_nonempty.
  unfold RefUrl.path_ok.
  rewrite (path_segments_join built Hn Hb), (remove_dots_of_plain _ _ Hp).
  simpl. rewrite String.eqb_refl, andb_true_r.
  now apply forallb_Forall_true.
Qed.

Lemma path_text (p : string) :
  RefUrl.path_ok p = true ->
  string_forallb (fun c => negb (RefUrl.is_path_end c)) p = true
  /\ string_forallb (fun c => negb (Ascii.eqb c "#")) p = true
  /\ exists r, p = String "/" r.
Proof.
  unfold RefUrl.path_ok. rewrite andb_true_iff, String.eqb_eq.
  intros [Hok Hp]. apply forallb_Forall_true in Hok.
  assert (Hb : Forall (fun x => RefUrl.segment_ok x = true)
                      (RefUrl.remove_dots [] (RefUrl.path_segments p))).
  { apply remove_dots_keeps; auto. }
  assert (Hn : RefUrl.remove_dots [] (RefUrl.path_segments p) <> []).
  { apply remove_dots_nonempty. apply split_slash_nonempty. }
  pose proof (join_text _ Hb) as Htext.
  destruct (RefUrl.remove_dots [] (RefUrl.path_segments p))
    as [|first rest]; [congruence|].
  rewrite Hp in Htext. split; [|split].
  - revert Htext. apply string_forallb_impl. intros c Hc.
    apply (path_char c Hc).
  - revert Htext. apply string_forallb_impl. intros c Hc.
    apply (path_char c Hc).
  - rewrite <- Hp. simpl. eauto.
Qed.

(** *** Query and fragment *)

Lemma extra_text (o : option string) (mark : ascii) :
  RefUrl.opt_ok o = true ->
  mark <> "#"%char ->
  string_forallb (fun c => negb (Ascii.eqb c "#"))
                 (RefUrl.serialize_component (String mark "") o) = true
  /\ match o with
     | Some q => string_forallb (fun c => negb (Ascii.eqb "#" c)) q = true
     | None => True
     end.
Proof.
  intros Ho Hm. destruct o as [q|]; [|simpl; auto].
  simpl in Ho. unfold RefUrl.extra_ok in Ho. split.
  - simpl. apply andb_true_iff. split.
    + apply negb_true_iff. now apply Ascii.eqb_neq.
    + revert Ho. apply string_forallb_impl. intros c Hc.
      apply (extra_char c Hc).
  - revert Ho. apply string_forallb_impl. intros c Hc.
    apply (extra_char c Hc).
Qed.

Lemma parse_tail_well_formed (sch h : string) (po : option string)
    (rest : string) (u : RefUrl.t) :
  RefUrl.parse_tail sch h po rest = Some u ->
  RefUrl.scheme u = sch /\ RefUrl.host u = h /\ RefUrl.port u = po
  /\ RefUrl.path_ok (RefUrl.path u) = true
  /\ RefUrl.opt_ok (RefUrl.query u) = true
  /\ RefUrl.opt_ok (RefUrl.fragment u) = true.
Proof.
  unfold RefUrl.parse_tail.
  destruct (RefUrl.break RefUrl.is_path_end rest) as [p r1].
  destruct (match RefUrl.strip_prefix "?" r1 with
            | Some r => let (q, r2) := RefUrl.break (Ascii.eqb "#") r in
                        (Some q, r2)
            | None => (None, r1)
            end) as [q r2].
  destruct (forallb RefUrl.segment_ok (RefUrl.path_segments p)) eqn:Hpath;
    [|discriminate].
  destruct (RefUrl.opt_ok q) eqn:Hq; [|discriminate].
  destruct (RefUrl.opt_ok (RefUrl.strip_prefix "#" r2)) eqn:Hf;
    [|discriminate].
  simpl. intros [= <-]. simpl.
  repeat split; auto.
  apply path_built; [apply split_slash_nonempty | exact Hpath].
Qed.

(** Every URL the reference parser returns is well formed. *)
Lemma parse_well_formed (s : string) (u : RefUrl.t) :
  RefUrl.parse s = Some u -> RefUrl.well_formed u = true.
Proof.
  unfold RefUrl.parse.
  destruct (RefUrl.break (Ascii.eqb ":") s) as [sch0 r].
  destruct (RefUrl.scheme_ok (RefUrl.to_lower sch0)) eqn:Hsch;
    [|discriminate].
  destruct (RefUrl.strip_prefix "://" r) as [r'|]; [|discriminate].
  destruct (RefUrl.break RefUrl.is_host_end r') as [authority rest].
  destruct (RefUrl.break (Ascii.eqb ":") authority) as [h0 pt].
  destruct (RefUrl.host_ok (RefUrl.to_lower h0)) eqn:Hhost; [|discriminate].
  destruct (RefUrl.parse_port (RefUrl.to_lower sch0) pt) as [po|] eqn:Hport;
    [|discriminate].
  intros Htail.
  destruct (parse_tail_well_formed _ _ _ _ _ Htail)
    as (Hs & Hh & Hpo & Hp & Hq & Hf).
  unfold RefUrl.well_formed.
  rewrite Hs, Hh, Hpo, Hsch, Hhost, (parse_port_ok _ _ _ Hport), Hp, Hq, Hf.
  reflexivity.
Qed.

Lemma parse_base_well_formed (input base : string) (u : RefUrl.t) :
  RefUrl.parse_base input base = Some u -> RefUrl.well_formed u = true.
Proof.
  unfold RefUrl.parse_base.
  destruct (RefUrl.parse base) as [b|]; [|discriminate].
  destruct (RefUrl.parse input) as [v|] eqn:Ev.
  - intros [= <-]. exact (parse_well_formed input v Ev).
  - repeat match goal with
           | |- (if ?c then _ else _) = _ -> _ => destruct c
           end;
      try discriminate; apply parse_well_formed.
Qed.

Lemma parse_tail_href (sch h : string) (po : option string) (p : string)
    (q f : option string) :
  RefUrl.path_ok p = true ->
  RefUrl.opt_ok q = true -> RefUrl.opt_ok f = true ->
  RefUrl.parse_tail sch h po
    (p ++ RefUrl.serialize_component "?" q ++ RefUrl.serialize_component "#" f)
  = Some {| RefUrl.scheme := sch; RefUrl.host := h; RefUrl.port := po;
            RefUrl.path := p; RefUrl.query := q; RefUrl.fragment := f |}.
Proof.
  intros Hp Hq Hf.
  destruct (path_text p Hp) as (Hpend & _ & _).
  assert (Hfrag : RefUrl.serialize_component "#" f = ""
                  \/ exists c r, RefUrl.serialize_component "#" f = String c r
                                 /\ Ascii.eqb "#" c = true).
  { destruct f as [f|]; [right|left]; simpl; eauto. }
  assert (Hstrip : RefUrl.strip_prefix "#" (RefUrl.serialize_component "#" f)
                   = f).
  { destruct f as [f|]; reflexivity. }
  unfold RefUrl.parse_tail.
  rewrite (break_app RefUrl.is_path_end p _ Hpend).
  2:{ destruct q as [q|]; simpl; [right; eauto|].
      destruct f as [f|]; simpl; [right; eauto | now left]. }
  unfold RefUrl.path_ok in Hp. apply andb_true_iff in Hp.
  destruct Hp as [Hsegments Hbuilt]. apply String.eqb_eq in Hbuilt.
  destruct q as [q|].
  - change (RefUrl.serialize_component "?" (Some q)) with (String "?" q).
    change (String "?" q ++ RefUrl.serialize_component "#" f)
      with ("?" ++ (q ++ RefUrl.serialize_component "#" f)).
    rewrite strip_prefix_app.
    rewrite (break_app (Ascii.eqb "#") q _
               (proj2 (extra_text (Some q) "?" Hq ltac:(discriminate))) Hfrag).
    rewrite Hstrip, Hsegments, Hq, Hf, Hbuilt. reflexivity.
  - change (RefUrl.serialize_component "?" None
            ++ RefUrl.serialize_component "#" f)
      with (RefUrl.serialize_component "#" f).
    assert (Hnoq : RefUrl.strip_prefix "?" (RefUrl.serialize_component "#" f)
                   = None).
    { destruct f as [f|]; reflexivity. }
    rewrite Hnoq, Hstrip, Hsegments, Hf, Hbuilt. reflexivity.
Qed.

(** The reference parser reads the serialization of a well-formed URL
    back to that URL. *)
Lemma parse_href (u : RefUrl.t) :
  RefUrl.well_formed u = true -> RefUrl.parse (RefUrl.href u) = Some u.
Proof.
  destruct u as [sch h po p q f]. unfold RefUrl.well_formed.
  cbn [RefUrl.scheme RefUrl.host RefUrl.port RefUrl.path RefUrl.query
       RefUrl.fragment].
  rewrite !andb_true_iff. intros [[[[[Hs Hh] Hpo] Hp] Hq] Hf].
  destruct (scheme_text sch Hs) as (Hlow & Hcolon & _).
  destruct (host_text h Hh) as (Hhlow & Hhend & Hhcolon & _).
  destruct (port_text sch po Hpo) as (Hpend & _ & Hpmark).
  destruct (path_text p Hp) as (_ & _ & p' & Hp').
  unfold RefUrl.href, RefUrl.origin, RefUrl.parse.
  cbn [RefUrl.scheme RefUrl.host RefUrl.port RefUrl.path RefUrl.query
       RefUrl.fragment].
  rewrite !string_app_assoc.
  rewrite (break_app (Ascii.eqb ":") sch _ Hcolon).
  2:{ right. exists ":"%char. eexists. split; reflexivity. }
  rewrite Hlow, Hs, strip_prefix_app.
  rewrite <- (string_app_assoc h).
  rewrite (break_app RefUrl.is_host_end
             (h ++ RefUrl.serialize_component ":" po)).
  2:{ now rewrite string_forallb_app, Hhend, Hpend. }
  2:{ right. rewrite Hp'. exists "/"%char. eexists. split; reflexivity. }
  rewrite (break_app (Ascii.eqb ":") h _ Hhcolon Hpmark).
  rewrite Hhlow, Hh, (parse_port_text sch po Hpo).
  now apply parse_tail_href.
Qed.

Lemma with_hash_well_formed (u : RefUrl.t) :
  RefUrl.well_formed u = true ->
  RefUrl.well_formed (RefUrl.with_hash u "") = true.
Proof.
  unfold RefUrl.well_formed, RefUrl.with_hash.
  cbn [RefUrl.scheme RefUrl.host RefUrl.port RefUrl.path RefUrl.query
       RefUrl.fragment is_empty RefUrl.opt_ok].
  rewrite !andb_true_iff. tauto.
Qed.

Lemma constructed_well_formed (u : URL) :
  constructed u -> RefUrl.well_formed u = true.
Proof.
  induction 1 as [s u H|s base u H|u _ IH].
  - exact (parse_well_formed s u H).
  - exact (parse_base_well_formed s base u H).
  - exact (with_hash_well_formed u IH).
Qed.

(** The serialization without fragment contains no [#]. *)
Lemma href_without_fragment (u : RefUrl.t) :
  RefUrl.well_formed u = true ->
  string_forallb (fun c => negb (Ascii.eqb c "#"))
                 (RefUrl.href (RefUrl.with_hash u "")) = true
  /\ RefUrl.href u
     = RefUrl.href (RefUrl.with_hash u "")
       ++ RefUrl.serialize_component "#" (RefUrl.fragment u).
Proof.
  destruct u as [sch h po p q f]. unfold RefUrl.well_formed.
  cbn [RefUrl.scheme RefUrl.host RefUrl.port RefUrl.path RefUrl.query
       RefUrl.fragment].
  rewrite !andb_true_iff. intros [[[[[Hs Hh] Hpo] Hp] Hq] Hf].
  destruct (scheme_text sch Hs) as (_ & _ & H1).
  destruct (host_text h Hh) as (_ & _ & _ & H2).
  destruct (port_text sch po Hpo) as (_ & H3 & _).
  destruct (path_text p Hp) as (_ & H4 & _).
  destruct (extra_text q "?" Hq ltac:(discriminate)) as (H5 & _).
  unfold RefUrl.href, RefUrl.origin, RefUrl.with_hash.
  cbn [RefUrl.scheme RefUrl.host RefUrl.port RefUrl.path RefUrl.query
       RefUrl.fragment is_empty RefUrl.serialize_component].
  split.
  - rewrite !string_forallb_app, H1, H2, H3, H4, H5. reflexivity.
  - rewrite !string_app_assoc. reflexivity.
Qed.

(** The reference instance obeys the laws. *)
Lemma ref_url_laws : UrlLaws ref_url_api.
Proof.
  split.
  - intros u Hu. apply parse_href. now apply constructed_well_formed.
  - reflexivity.
  - reflexivity.
  - intros u Hu _.
    destruct (href_without_fragment u (constructed_well_formed u Hu))
      as (Hclean & Hsplit).
    split; [exact Hclean|].
    exists (RefUrl.serialize_component "#" (RefUrl.fragment u)).
    split; [exact Hsplit|].
    destruct (RefUrl.fragment u); simpl; eauto.
Qed.

(** On the reference instance [normalizeUrl] is idempotent on every
    string. *)
Lemma ref_normalizeUrl_idempotent (url : string) :
  normalizeUrl (normalizeUrl url) = normalizeUrl url.
Proof.
  unfold normalizeUrl at 2 3. simpl.
  destruct (RefUrl.parse url) as [u|] eqn:E.
  - unfold normalizeUrl. simpl.
    rewrite (parse_href (RefUrl.with_hash u ""))
      by exact (with_hash_well_formed u (parse_well_formed url u E)).
    reflexivity.
  - unfold normalizeUrl. simpl. now rewrite E.
Qed.

Example normalize_strips_fragment :
  normalizeUrl "https://x/a#frag" = "https://x/a".
Proof. reflexivity. Qed.

Example normalize_keeps_unparsable : normalizeUrl "not a url" = "not a url".
Proof. reflexivity. Qed.

(** the serialization is canonical: lower-case scheme and host, no default
    port, a path *)
Example normalize_canonical :
  normalizeUrl "HTTPS://Example.COM:0443?q=a%20b#Frag"
  = "https://example.com/?q=a%20b".
Proof. reflexivity. Qed.

Example resolve_relative :
  option_map URL_toString (new_URL_base "c/d?x#y" "https://x:8080/a/b?q")
  = Some "https://x:8080/a/c/d?x#y"
  /\ option_map URL_toString (new_URL_base "#top" "https://x/a/b?q")
     = Some "https://x/a/b?q#top"
  /\ option_map URL_toString (new_URL_base "//Y.org" "http://x/a")
     = Some "http://y.org/"
  /\ option_map URL_toString (new_URL_base "../e/./f" "https://x/a/b/c")
     = Some "https://x/a/e/f".
Proof. repeat split. Qed.


Example scope_rejects_other_host :
  isValidUrlToCrawl url_other START_URL_obj = false.
Proof. reflexivity. Qed.

Example scope_accepts_section_page :
  isValidUrlToCrawl url_a START_URL_obj = true.
Proof. reflexivity. Qed.

Example scope_rejects_other_section :
  isValidUrlToCrawl "https://sites.google.com/other/a" START_URL_obj = false.
Proof. reflexivity. Qed.

(** C5, the statement as written fails: on a string that does not parse the
    filename contains the reading of the clock. *)
Lemma urlToFilename_reads_clock :
  ~ (forall (url extension : string) (now1 now2 : Z),
       urlToFilename now1 url extension = urlToFilename now2 url extension).
Proof.
  intros H. specialize (H "not a url" ".txt" 0%Z 1%Z).
  vm_compute in H. discriminate.
Qed.

Lemma urlToFilename_deterministic_witness :
  new_URL url_a = Some {| RefUrl.scheme := "https";
                          RefUrl.host := "sites.google.com";
                          RefUrl.port := None;
                          RefUrl.path := "/zen.ac.jp/zen-gakuseibinran/a";
                          RefUrl.query := None;
                          RefUrl.fragment := None |}
  /\ urlToFilename 0 url_a ".txt" = urlToFilename 1700000000000 url_a ".txt".
Proof.
  split; [reflexivity|].
  eapply (urlToFilename_deterministic_on_parsable url_a ".txt").
  reflexivity.
Defined.

Example filename_of_page :
  urlToFilename 0 "https://x/a/b?c=d#e" ".txt" = "a_b_c_d_e.txt".
Proof. reflexivity. Qed.

Example filename_of_root : urlToFilename 0 "https://x/" ".txt" = "index.txt".
Proof. reflexivity. Qed.

Example filename_truncated :
  urlToFilename 0 long_url ".txt" = replicate 100 "b" ++ ".txt".
Proof. vm_compute. reflexivity. Qed.

(** C7, the statement as written fails: a hyphen and a dot are not letters
    or digits, and they are kept. *)
Lemma filename_keeps_hyphen_and_dot :
  ~ (forall (url : string) (u : URL), new_URL url = Some u ->
       replaces_non_alphanumeric
         (trim_slashes (pathname u ++ search u ++ hash u))
         (filename_stem u)).
Proof.
  intros H.
  specialize (H "https://x/a-b.c" _ eq_refl 1 "-"%char eq_refl eq_refl).
  vm_compute in H. discriminate.
Qed.

Example filename_with_hyphen_and_dot :
  urlToFilename 0 "https://x/a-b.c" ".txt" = "a-b.c.txt".
Proof. reflexivity. Qed.

Lemma urlToFilename_shape_witness :
  new_URL long_url
  = Some {| RefUrl.scheme := "https"; RefUrl.host := "x";
            RefUrl.port := None;
            RefUrl.path := "/" ++ replicate 50 "a" ++ replicate 100 "b";
            RefUrl.query := None; RefUrl.fragment := None |}
  /\ urlToFilename 0 long_url ".txt"
     = truncate_filename (replicate 50 "a" ++ replicate 100 "b") ++ ".txt".
Proof.
  split; [vm_compute; reflexivity|].
  exact (proj1 (urlToFilename_shape 0 long_url ".txt" _ eq_refl)).
Defined.

End RefUrlFacts.

(** ** fetchWithRetry *)

Section FetchFacts.

Variables (fetch : nat -> Exc Response) (url : string).

Lemma fetch_attempt_failure (i : nat) :
  is_failure (fetch i) = true ->
  exists error, fetch_attempt fetch url i = Throw error.
Proof.
  unfold is_failure, fetch_attempt, response_ok.
  destruct (fetch i) as [r|e]; [|now exists e].
  intros ->. eexists. reflexivity.
Qed.

Lemma fetch_attempt_success (i : nat) (r : Response) :
  fetch i = Ok r -> response_ok r = true -> fetch_attempt fetch url i = Ok r.
Proof. unfold fetch_attempt. now intros -> ->. Qed.

Lemma retry_trace_step (delay : Z) (i k : nat) :
  retry_trace url delay i (S k)
  = ([IOSleep DELAY_MS; IOFetch url; IOSleep (delay * (Z.of_nat i + 1))]
     ++ retry_trace url delay (S i) k)%list.
Proof.
  unfold retry_trace. simpl.
  replace (Z.pos (Pos.of_succ_nat i)) with (Z.of_nat i + 1)%Z by lia.
  reflexivity.
Qed.

(** The loop returns the first successful response. *)
Lemma fetchWithRetry_loop_success (retries : nat) (delay : Z) (r : Response) :
  forall n i k,
    i + n = retries -> k < n ->
    (forall j, j < k -> is_failure (fetch (i + j)) = true) ->
    fetch (i + k) = Ok r -> response_ok r = true ->
    fetchWithRetry_loop fetch url retries delay n i
    = (Ok r, retry_trace url delay i k).
Proof.
  induction n as [|n IH]; intros i k Hin Hk Hfail Hok Hr; [lia|].
  destruct k as [|k].
  - rewrite Nat.add_0_r in Hok. simpl.
    now rewrite (fetch_attempt_success i r).
  - destruct (fetch_attempt_failure i) as [e He].
    { specialize (Hfail 0). rewrite Nat.add_0_r in Hfail. apply Hfail. lia. }
    simpl fetchWithRetry_loop. rewrite He.
    destruct (Z.eqb_spec (Z.of_nat i) (Z.of_nat retries - 1)); [lia|].
    rewrite (IH (S i) k), retry_trace_step; try lia; auto.
    + intros j Hj. replace (S i + j) with (i + S j) by lia.
      apply Hfail. lia.
    + now replace (S i + k) with (i + S k) by lia.
Qed.

(** When every remaining attempt fails, the loop rethrows the error of the
    last one; it does not wait after it. *)
Lemma fetchWithRetry_loop_exhausted (retries : nat) (delay : Z) :
  forall n i,
    i + S n = retries ->
    (forall j, j <= n -> is_failure (fetch (i + j)) = true) ->
    exists error,
      fetch_attempt fetch url (retries - 1) = Throw error
      /\ fetchWithRetry_loop fetch url retries delay (S n) i
         = (Throw error, retry_trace url delay i n).
Proof.
  induction n as [|n IH]; intros i Hin Hfail.
  - destruct (fetch_attempt_failure i) as [e He].
    { specialize (Hfail 0). rewrite Nat.add_0_r in Hfail. apply Hfail. lia. }
    exists e. replace (retries - 1) with i by lia. split; [assumption|].
    simpl. rewrite He.
    destruct (Z.eqb_spec (Z.of_nat i) (Z.of_nat retries - 1)); [|lia].
    reflexivity.
  - destruct (fetch_attempt_failure i) as [e He].
    { specialize (Hfail 0). rewrite Nat.add_0_r in Hfail. apply Hfail. lia. }
    destruct (IH (S i)) as [e' [Hlast Hloop]]; [lia| |].
    { intros j Hj. replace (S i + j) with (i + S j) by lia.
      apply Hfail. lia. }
    exists e'. split; [assumption|].
    change (fetchWithRetry_loop fetch url retries delay (S (S n)) i)
      with (match fetch_attempt fetch url i with
            | Ok response => (Ok response, [IOSleep DELAY_MS; IOFetch url])
            | Throw error =>
                if (Z.of_nat i =? Z.of_nat retries - 1)%Z
                then (Throw error, [IOSleep DELAY_MS; IOFetch url])
                else
                  let (result, later) :=
                    fetchWithRetry_loop fetch url retries delay (S n) (S i) in
                  (result,
                   ([IOSleep DELAY_MS; IOFetch url;
                     IOSleep (delay * (Z.of_nat i + 1))] ++ later)%list)
            end).
    rewrite He.
    destruct (Z.eqb_spec (Z.of_nat i) (Z.of_nat retries - 1)); [lia|].
    rewrite Hloop, retry_trace_step. reflexivity.
Qed.

(** C3. With three tries, [fetchWithRetry] returns the first response with a
    2xx status among the first three attempts, having slept the politeness
    delay before every attempt and [baseBackoffMs * n] after the failed
    attempt [n]; when the three attempts fail (by an exception or a status
    outside 2xx) it throws the last error, having waited after the first and
    the second attempt only. *)
Theorem fetchWithRetry_three_tries (baseBackoffMs : Z) :
  (forall k r,
      k < 3 ->
      (forall j, j < k -> is_failure (fetch j) = true) ->
      fetch k = Ok r -> (200 <= status r <= 299)%Z ->
      fetchWithRetry fetch url 3 baseBackoffMs
      = (Ok r, retry_trace url baseBackoffMs 0 k))
  /\ ((forall j, j < 3 -> is_failure (fetch j) = true) ->
      exists error,
        fetchWithRetry fetch url 3 baseBackoffMs
        = (Throw error, retry_trace url baseBackoffMs 0 2)).
Proof.
  split.
  - intros k r Hk Hfail Hok Hst.
    apply fetchWithRetry_loop_success with (k := k); auto.
    unfold response_ok. apply andb_true_iff. split; apply Z.leb_le; lia.
  - intros Hfail.
    destruct (fetchWithRetry_loop_exhausted 3 baseBackoffMs 2 0) as [e [_ H]];
      [reflexivity | |].
    + intros j Hj. apply Hfail. lia.
    + exists e. exact H.
Qed.

End FetchFacts.

Example retry_trace_of_three (url : string) (baseBackoffMs : Z) :
  retry_trace url baseBackoffMs 0 2
  = [IOSleep DELAY_MS; IOFetch url; IOSleep (baseBackoffMs * 1);
     IOSleep DELAY_MS; IOFetch url; IOSleep (baseBackoffMs * 2);
     IOSleep DELAY_MS; IOFetch url].
Proof. reflexivity. Qed.

Example fetch_recovers_after_two_failures :
  fetchWithRetry (Sample.flaky "home") Sample.url_home 3 1000
  = (Ok {| status := 200; text := Ok "home" |},
     retry_trace Sample.url_home 1000 0 2).
Proof. reflexivity. Qed.

(** ** processUrl *)

Lemma fetchWithRetry_loop_io fetch url retries delay n i :
  forallb is_network_event
          (snd (fetchWithRetry_loop fetch url retries delay n i)) = true.
Proof.
  revert i; induction n as [|n IH]; intros i; simpl; [reflexivity|].
  destruct (fetch_attempt fetch url i); [reflexivity|].
  destruct (Z.of_nat i =? Z.of_nat retries - 1)%Z; [reflexivity|].
  specialize (IH (S i)).
  destruct (fetchWithRetry_loop fetch url retries delay n (S i)).
  simpl in *. exact IH.
Qed.

Lemma fetchWithRetry_io fetch url retries delay filename content :
  ~ In (IOWriteTextFile filename content)
       (snd (fetchWithRetry fetch url retries delay)).
Proof.
  intros H.
  pose proof (fetchWithRetry_loop_io fetch url retries delay retries 0) as Hall.
  rewrite forallb_forall in Hall. apply Hall in H. discriminate.
Qed.

Lemma fetchWithRetry_loop_fetches fetch url retries delay n :
  forall i u,
    In (IOFetch u) (snd (fetchWithRetry_loop fetch url retries delay n i)) ->
    u = url.
Proof.
  induction n as [|n IH]; intros i u; simpl; [intros []|].
  destruct (fetch_attempt fetch url i).
  - simpl. intros [H|[H|[]]]; congruence.
  - destruct (Z.of_nat i =? Z.of_nat retries - 1)%Z.
    + simpl. intros [H|[H|[]]]; congruence.
    + specialize (IH (S i) u).
      destruct (fetchWithRetry_loop fetch url retries delay n (S i)).
      simpl in *. intros [H|[H|[H|H]]]; try congruence. auto.
Qed.

Section ProcessFacts.

Context {api : UrlApi} {dom : DomApi}.

Lemma link_target_valid visited href url target :
  link_target visited href url = Some target ->
  isValidUrlToCrawl target START_URL_obj = true /\ has visited target = false.
Proof.
  unfold link_target. destruct (new_URL_base href url); [|discriminate].
  destruct (isValidUrlToCrawl _ _) eqn:Ev; [|discriminate].
  destruct (has visited _) eqn:Eh; [discriminate|].
  simpl. intros [= <-]. auto.
Qed.

(** Every URL the loop adds is in scope and was not visited. *)
Lemma findLinks_valid visited url links :
  forall acc x,
    In x (fst (findLinks visited url links acc)) ->
    In x acc
    \/ (isValidUrlToCrawl x START_URL_obj = true /\ has visited x = false).
Proof.
  induction links as [|link links IH]; intros acc x; simpl; [auto|].
  destruct (getAttribute_href link) as [[href|]|e]; simpl; auto.
  destruct (is_empty href); auto.
  destruct (link_target visited href url) as [target|] eqn:Et; auto.
  intros H. apply IH in H. destruct H as [H|H]; auto.
  apply in_app_or in H. destruct H as [H|[<-|[]]]; auto.
  right. eapply link_target_valid; eauto.
Qed.

(** An error stops the loop with the URLs collected from the elements
    before the failing one. *)
Lemma findLinks_throw visited url links :
  forall acc found e,
    findLinks visited url links acc = (found, Throw e) ->
    exists before link after,
      links = (before ++ link :: after)%list
      /\ getAttribute_href link = Throw e
      /\ findLinks visited url before acc = (found, Ok tt).
Proof.
  induction links as [|link links IH]; intros acc found e; simpl;
    [discriminate|].
  destruct (getAttribute_href link) as [[href|]|e'] eqn:Ea.
  - destruct (is_empty href) eqn:Ee;
      [|destruct (link_target visited href url) as [target|] eqn:Et];
      intros H; apply IH in H; destruct H as [b [l [a [-> [Hl Hf]]]]];
      exists (link :: b), l, a; simpl; rewrite Ea, Ee, ?Et; auto.
  - intros H; apply IH in H; destruct H as [b [l [a [-> [Hl Hf]]]]].
    exists (link :: b), l, a; simpl; rewrite Ea; auto.
  - intros [= <- <-]. exists [], link, links. auto.
Qed.

(** The two ways through the [try] block: it is left before the links are
    read, with nothing found and the shared state untouched, or it reaches
    the enumeration of the links, with at most one record appended. *)
Lemma processUrl_try_cases (io : PageIO) (url : string) (st : Shared) :
  let out := processUrl_try io url st in
  (try_newUrlsFound out = [] /\ try_shared out = st
   /\ (try_completion out = ReturnedEmpty
       \/ exists stage e, try_completion out = Caught stage e
                          /\ stage <> AtLinks
                          /\ (stage = AtSave ->
                              io_ensureDir io = Throw e
                              \/ io_writeTextFile io = Throw e)))
  \/ (exists document st' io',
        out = enumerate_links document url st' io'
        /\ visitedUrls st' = visitedUrls st
        /\ ((scrapedData st' = scrapedData st
             /\ forall f c, ~ In (IOWriteTextFile f c) io')
            \/ (exists content,
                  scrapedData st' = (scrapedData st ++ [(url, content)])%list
                  /\ io_writeTextFile io = Ok tt))).
Proof.
  unfold processUrl_try.
  pose proof (fetchWithRetry_io (io_fetch io) url 3 1000) as Hio.
  destruct (fetchWithRetry (io_fetch io) url 3 1000) as [fetched io1].
  simpl in Hio.
  destruct fetched as [response|e].
  2:{ left. simpl. repeat split. right. exists AtFetch, e.
      repeat split; congruence. }
  destruct (text response) as [html|e].
  2:{ left. simpl. repeat split. right. exists AtBody, e.
      repeat split; congruence. }
  destruct (parseFromString html) as [[document|]|e].
  3:{ left. simpl. repeat split. right. exists AtParse, e.
      repeat split; congruence. }
  2:{ left. simpl. auto. }
  destruct (extractText document) as [textContent|e].
  2:{ left. simpl. repeat split. right. exists AtExtract, e.
      repeat split; congruence. }
  destruct (is_empty textContent); simpl.
  - right. exists document, st, io1. repeat split. left. auto.
  - destruct (io_ensureDir io) as [[]|e].
    2:{ left. simpl. repeat split. right. exists AtSave, e.
        repeat split; [congruence | auto]. }
    destruct (io_writeTextFile io) as [[]|e].
    2:{ left. simpl. repeat split. right. exists AtSave, e.
        repeat split; [congruence | auto]. }
    right. eexists document, _, _. repeat split. right.
    exists textContent. auto.
Qed.

(** The calls of the [try] block on the outside world: those of
    [fetchWithRetry], then at most the two of the save. *)
Lemma processUrl_try_io (io : PageIO) (url : string) (st : Shared) :
  exists saving,
    try_io (processUrl_try io url st)
    = (snd (fetchWithRetry (io_fetch io) url 3 1000) ++ saving)%list
    /\ forallb (fun e => negb (is_network_event e)) saving = true.
Proof.
  unfold processUrl_try.
  destruct (fetchWithRetry (io_fetch io) url 3 1000) as [fetched io1].
  simpl.
  assert (Hnil : forall out, try_io out = io1 ->
            exists saving,
              try_io out = (io1 ++ saving)%list
              /\ forallb (fun e => negb (is_network_event e)) saving = true).
  { intros out H. exists []. rewrite app_nil_r. auto. }
  destruct fetched as [response|e]; [|now apply Hnil].
  destruct (text response) as [html|e]; [|now apply Hnil].
  destruct (parseFromString html) as [[document|]|e];
    [|now apply Hnil|now apply Hnil].
  destruct (extractText document) as [textContent|e]; [|now apply Hnil].
  destruct (is_empty textContent); simpl.
  - apply Hnil. unfold enumerate_links. now destruct (findLinks _ _ _ _).
  - destruct (io_ensureDir io) as [[]|e].
    2:{ exists [IOEnsureDir]. split; reflexivity. }
    destruct (io_writeTextFile io) as [[]|e].
    2:{ eexists. split; reflexivity. }
    unfold enumerate_links. destruct (findLinks _ _ _ _). simpl.
    eexists. split; reflexivity.
Qed.

Lemma processUrl_resume_fetches io url st u :
  In (IOFetch u) (snd (processUrl_resume io url st)) -> u = url.
Proof.
  unfold processUrl_resume. simpl.
  destruct (processUrl_try_io io url st) as [saving [-> Hs]].
  intros H. apply in_app_or in H. destruct H as [H|H].
  - eapply fetchWithRetry_loop_fetches; eauto.
  - rewrite forallb_forall in Hs. apply Hs in H. discriminate.
Qed.

Lemma processUrl_resume_visited io url st :
  visitedUrls (fst (fst (processUrl_resume io url st))) = visitedUrls st.
Proof.
  unfold processUrl_resume. simpl.
  destruct (processUrl_try_cases io url st) as [[_ [-> _]]|[d [s [i [-> [H _]]]]]];
    [reflexivity|].
  unfold enumerate_links. destruct (findLinks _ _ _ _). exact H.
Qed.

Lemma processUrl_resume_scraped io url st :
  let st' := fst (fst (processUrl_resume io url st)) in
  scrapedData st' = scrapedData st
  \/ exists content, scrapedData st' = (scrapedData st ++ [(url, content)])%list.
Proof.
  unfold processUrl_resume. simpl.
  destruct (processUrl_try_cases io url st)
    as [[_ [-> _]]|[d [s [i [-> [_ H]]]]]]; [auto|].
  unfold enumerate_links. destruct (findLinks _ _ _ _). simpl.
  destruct H as [[H _]|[c [H _]]]; eauto.
Qed.

(** The URLs a call returns are in scope. *)
Lemma processUrl_resume_valid io url st x :
  In x (snd (fst (processUrl_resume io url st))) ->
  isValidUrlToCrawl x START_URL_obj = true.
Proof.
  unfold processUrl_resume. simpl.
  destruct (processUrl_try_cases io url st)
    as [[Hf [_ _]]|[d [s [i [-> [Hv _]]]]]].
  - rewrite Hf. now destruct (try_completion _).
  - unfold enumerate_links.
    destruct (findLinks (visitedUrls s) url (querySelectorAll_a d) [])
      as [found result] eqn:Ef.
    simpl. intros H.
    assert (Hin : In x found) by (destruct result; exact H).
    pose proof (findLinks_valid (visitedUrls s) url (querySelectorAll_a d) [] x)
      as Hx.
    rewrite Ef in Hx. destruct (Hx Hin) as [[]|[Hx' _]]. exact Hx'.
Qed.

Lemma findLinks_flat_map (visited : list string) (url : string)
    (links : list Element) :
  (forall link, In link links ->
                exists href, getAttribute_href link = Ok href) ->
  forall acc,
    findLinks visited url links acc
    = ((acc ++ flat_map (link_targets visited url) links)%list, Ok tt).
Proof.
  induction links as [|link links IH]; intros Hok acc; simpl.
  - now rewrite app_nil_r.
  - destruct (Hok link (or_introl eq_refl)) as [href Hh].
    assert (Hrest : forall l, In l links ->
                              exists h, getAttribute_href l = Ok h).
    { intros l Hl. apply Hok. now right. }
    unfold link_targets at 1. rewrite Hh.
    destruct href as [href|]; [|now rewrite IH].
    destruct (is_empty href); [now rewrite IH|].
    destruct (link_target visited href url); rewrite IH by assumption;
      [now rewrite <- app_assoc | reflexivity].
Qed.

(** An error stops the loop: the anchors after the failing one are not
    read. *)
Lemma findLinks_stops (visited : list string) (url : string)
    (before after : list Element) (link : Element) (e : string) :
  (forall l, In l before -> exists href, getAttribute_href l = Ok href) ->
  getAttribute_href link = Throw e ->
  forall acc,
    findLinks visited url (before ++ link :: after) acc
    = ((acc ++ flat_map (link_targets visited url) before)%list, Throw e).
Proof.
  intros Hok He. induction before as [|l before IH]; intros acc; simpl.
  - now rewrite He, app_nil_r.
  - destruct (Hok l (or_introl eq_refl)) as [href Hh].
    assert (Hrest : forall l', In l' before ->
                               exists h, getAttribute_href l' = Ok h).
    { intros l' Hl. apply Hok. now right. }
    specialize (IH Hrest).
    unfold link_targets at 1. rewrite Hh.
    destruct href as [href|]; [|now rewrite IH].
    destruct (is_empty href); [now rewrite IH|].
    destruct (link_target visited href url); rewrite IH;
      [now rewrite <- app_assoc | reflexivity].
Qed.

(** C8, as amended. [processUrl] returns a list whatever is raised inside
    its [try] block.  With [fetched] the outcome of [fetchWithRetry] on the
    page, the list is empty when the fetch fails for good (three failed
    attempts), when reading the body fails, when the parser throws or gives
    a null document, when the query for the main element throws, and when
    [ensureDir] or the write of the text file throws.  When the document
    has been read and saved and an anchor fails while its [href] is read,
    the enumeration ends there: the call returns exactly the targets of the
    anchors that precede the failing one in the parsed document, in
    document order. *)
Theorem processUrl_resume_on_error (io : PageIO) (url : string) (st : Shared) :
  let result := snd (fst (processUrl_resume io url st)) in
  let fetched := fst (fetchWithRetry (io_fetch io) url 3 1000) in
  (forall e, fetched = Throw e -> result = [])
  /\ (forall response e,
        fetched = Ok response -> text response = Throw e -> result = [])
  /\ (forall response html,
        fetched = Ok response -> text response = Ok html ->
        parseFromString html = Ok None
        \/ (exists e, parseFromString html = Throw e) ->
        result = [])
  /\ (forall response html document e,
        fetched = Ok response -> text response = Ok html ->
        parseFromString html = Ok (Some document) ->
        querySelector_main document = Throw e ->
        result = [])
  /\ (forall response html document content e,
        fetched = Ok response -> text response = Ok html ->
        parseFromString html = Ok (Some document) ->
        extractText document = Ok content -> content <> "" ->
        io_ensureDir io = Throw e \/ io_writeTextFile io = Throw e ->
        result = [])
  /\ (forall response html document content before link after e,
        fetched = Ok response -> text response = Ok html ->
        parseFromString html = Ok (Some document) ->
        extractText document = Ok content ->
        content = ""
        \/ (io_ensureDir io = Ok tt /\ io_writeTextFile io = Ok tt) ->
        querySelectorAll_a document = (before ++ link :: after)%list ->
        (forall l, In l before -> exists href, getAttribute_href l = Ok href) ->
        getAttribute_href link = Throw e ->
        result = flat_map (link_targets (visitedUrls st) url) before).
Proof.
  intros result fetched. unfold result, fetched, processUrl_resume,
    processUrl_try.
  destruct (fetchWithRetry (io_fetch io) url 3 1000) as [outcome io1].
  cbn [fst snd].
  split; [intros e ->; reflexivity|].
  split; [intros response e -> ->; reflexivity|].
  split; [intros response html -> -> [->|[e ->]]; reflexivity|].
  split.
  { intros response html document e -> -> -> Hq.
    unfold extractText. rewrite Hq. reflexivity. }
  split.
  { intros response html document content e -> -> -> -> Hne Hsave.
    destruct content as [|c content]; [congruence|].
    cbn [is_empty negb].
    destruct (io_ensureDir io) as [u|e1]; [|reflexivity].
    destruct Hsave as [Hd|Hw]; [discriminate|].
    rewrite Hw. reflexivity. }
  intros response html document content before link after e
         -> -> -> -> Hsaved Hsplit Hok He.
  assert (Hlinks : forall st' io',
            visitedUrls st' = visitedUrls st ->
            let out := enumerate_links document url st' io' in
            match try_completion out with
            | ReturnedEmpty => []
            | _ => try_newUrlsFound out
            end = flat_map (link_targets (visitedUrls st) url) before).
  { intros st' io' Hv. unfold enumerate_links.
    rewrite Hsplit, Hv, (findLinks_stops _ _ _ _ _ _ Hok He). reflexivity. }
  destruct Hsaved as [->|[Hd Hw]].
  - cbn [is_empty negb]. now apply Hlinks.
  - rewrite Hd, Hw. destruct (negb (is_empty content)); now apply Hlinks.
Qed.

Lemma processUrl_resume_write_failure (io : PageIO) (url : string)
    (st : Shared) (message : string) :
  io_writeTextFile io = Throw message ->
  (exists filename content,
      In (IOWriteTextFile filename content) (try_io (processUrl_try io url st))) ->
  exists tr, processUrl_resume io url st = (st, [], tr).
Proof.
  intros Hw [f [c Hin]].
  unfold processUrl_resume.
  destruct (processUrl_try_cases io url st)
    as [[Hf [Hs Hc]]|[d [s [i [Hout [_ H]]]]]].
  - exists (try_io (processUrl_try io url st)). rewrite Hf, Hs.
    now destruct (try_completion _).
  - exfalso. rewrite Hout in Hin. unfold enumerate_links in Hin.
    destruct (findLinks _ _ _ _). simpl in Hin.
    destruct H as [[_ H]|[c' [_ H]]]; [now apply (H f c) | congruence].
Qed.

(** C9. When the write of the text file is attempted and throws, the call
    of [processUrl] appends no record to [scrapedData] and returns no URL;
    the error stays inside the call, which returns normally. *)
Theorem processUrl_write_failure (io : PageIO) (url : string) (st : Shared)
    (message : string) :
  io_writeTextFile io = Throw message ->
  (exists filename content,
      In (IOWriteTextFile filename content)
         (snd (processUrl io url st))) ->
  scrapedData (fst (fst (processUrl io url st))) = scrapedData st
  /\ snd (fst (processUrl io url st)) = [].
Proof.
  intros Hw [f [c Hin]]. unfold processUrl in *.
  destruct (processUrl_enter url st) as [st1|] eqn:He; [|destruct Hin].
  destruct (processUrl_resume_write_failure io url st1 message Hw)
    as [tr Hr].
  { exists f, c. exact Hin. }
  rewrite Hr. simpl. unfold processUrl_enter in He.
  destruct (has _ _ || negb _); [discriminate|]. now injection He as <-.
Qed.

End ProcessFacts.

(** ** The crawl driver *)

Lemma has_In (s : list string) (x : string) : has s x = true <-> In x s.
Proof.
  unfold has. rewrite existsb_exists. split.
  - intros [y [Hy He]]. apply String.eqb_eq in He. now subst.
  - intros H. exists x. split; [assumption | apply String.eqb_refl].
Qed.

Lemma has_not_In (s : list string) (x : string) : has s x = false <-> ~ In x s.
Proof.
  rewrite <- has_In. destruct (has s x); split; congruence.
Qed.

Lemma set_add_In (x y : string) (s : list string) :
  In y (set_add x s) <-> y = x \/ In y s.
Proof.
  unfold set_add. destruct (has s x) eqn:E.
  - apply has_In in E. split; [auto | intros [->|H]; auto].
  - rewrite in_app_iff. simpl. intuition.
Qed.

Lemma set_add_NoDup (x : string) (s : list string) :
  NoDup s -> NoDup (set_add x s).
Proof.
  intros H. unfold set_add. destruct (has s x) eqn:E; [assumption|].
  apply has_not_In in E. apply NoDup_app; auto.
  - constructor; [intros [] | constructor].
  - intros y Hy [<-|[]]. contradiction.
Qed.

(** What holds of the frontier and the history after every addition holds
    after the whole [for] loop on one result. *)
Lemma deliver_invariant (Inv : list string -> list Event -> Prop)
    (visited : list string) (n : nat) :
  forall newUrls active h active' h',
    (forall a hh x, In x newUrls -> has visited x = false ->
                    Inv a hh -> Inv (set_add x a) (EvAdd n x :: hh)) ->
    Inv active h ->
    deliver visited n newUrls active h = (active', h') ->
    Inv active' h'.
Proof.
  induction newUrls as [|x rest IH]; intros active h active' h' Hadd Hinv;
    simpl.
  - now intros [= <- <-].
  - destruct (has visited x) eqn:E; simpl; intros Hd.
    + eapply IH; eauto. intros a hh y Hy. apply Hadd. now right.
    + eapply IH; [| |exact Hd].
      * intros a hh y Hy. apply Hadd. now right.
      * apply Hadd; auto. now left.
Qed.

Lemma each_after_split P (later earlier : list Event) (e : Event) :
  each_after P (later ++ e :: earlier) -> P e earlier.
Proof. induction later as [|x later IH]; simpl; intros [H1 H2]; auto. Qed.

Lemma each_after_suffix P (later earlier : list Event) :
  each_after P (later ++ earlier) -> each_after P earlier.
Proof. induction later as [|x later IH]; simpl; [auto | intros [_ H]; auto]. Qed.

Lemma deliver_extends visited n newUrls active h active' h' :
  deliver visited n newUrls active h = (active', h') ->
  forall e, In e h -> In e h'.
Proof.
  apply (deliver_invariant (fun _ hh => forall e, In e h -> In e hh)); auto.
  intros a hh x _ _ Hh e He. right. auto.
Qed.

Lemma deliver_only_adds visited n newUrls active h active' h' :
  deliver visited n newUrls active h = (active', h') ->
  forall e, In e h' -> In e h \/ exists url, e = EvAdd n url.
Proof.
  intros H.
  refine (deliver_invariant
            (fun _ hh => forall e, In e hh -> In e h \/ exists url, e = EvAdd n url)
            _ _ _ _ _ _ _ _ _ H); auto.
  intros a hh x _ _ Hh e [<-|He]; eauto.
Qed.

Section DriverFacts.

Context {api : UrlApi} {dom : DomApi}.

Lemma processUrl_enter_Some (url : string) (st st' : Shared) :
  processUrl_enter url st = Some st' ->
  has (visitedUrls st) url = false
  /\ isValidUrlToCrawl url START_URL_obj = true
  /\ st' = {| visitedUrls := (visitedUrls st ++ [url])%list;
              scrapedData := scrapedData st |}.
Proof.
  unfold processUrl_enter, set_add.
  destruct (has (visitedUrls st) url); [discriminate|].
  destruct (isValidUrlToCrawl url START_URL_obj); [|discriminate].
  simpl. intros [= <-]. auto.
Qed.

Lemma processUrl_enter_None (url : string) (st : Shared) :
  processUrl_enter url st = None ->
  has (visitedUrls st) url = true
  \/ isValidUrlToCrawl url START_URL_obj = false.
Proof.
  unfold processUrl_enter.
  destruct (has (visitedUrls st) url); [auto|].
  destruct (isValidUrlToCrawl url START_URL_obj); [discriminate | auto].
Qed.

(** C10. In every state the crawl can reach, every member of [visitedUrls]
    is in scope with respect to the start URL. *)
Theorem visited_in_scope (c : Crawl) :
  reachable c ->
  forall url, In url (visitedUrls (shared c)) ->
              isValidUrlToCrawl url START_URL_obj = true.
Proof.
  induction 1 as [|c c' Hc IH Hstep]; [intros url []|].
  destruct Hstep; simpl in *; auto.
  - apply processUrl_enter_Some in H0. destruct H0 as [_ [Hv ->]].
    simpl. intros x Hx. apply in_app_or in Hx.
    destruct Hx as [Hx|[<-|[]]]; auto.
  - pose proof (processUrl_resume_visited io url sh) as Hv.
    rewrite H in Hv. simpl in Hv. rewrite Hv. exact IH.
Qed.

Lemma deliver_keeps_calls visited n newUrls active h active' h' :
  deliver visited n newUrls active h = (active', h') ->
  entered_urls h' = entered_urls h /\ done_urls h' = done_urls h.
Proof.
  apply (deliver_invariant
           (fun _ hh => entered_urls hh = entered_urls h
                        /\ done_urls hh = done_urls h)); auto.
Qed.

Lemma in_flight_urls_app (a b : list Slot) :
  in_flight_urls (a ++ b) = (in_flight_urls a ++ in_flight_urls b)%list.
Proof. apply flat_map_app. Qed.

Lemma calls_distinct_step (c c' : Crawl) :
  calls_distinct c -> step c c' -> calls_distinct c'.
Proof.
  intros (He & Hev & Hf & Hfv & Hs & Hsn) Hstep.
  destruct Hstep; unfold calls_distinct in *; simpl in *.
  - repeat split; auto.
  - rewrite in_flight_urls_app. simpl. rewrite app_nil_r. repeat split; auto.
  - apply processUrl_enter_Some in H0. destruct H0 as (Hnv & _ & ->).
    apply has_not_In in Hnv. simpl.
    rewrite in_flight_urls_app. simpl.
    assert (Hperm : Permutation
                      (url :: in_flight_urls slots ++ done_urls h)
                      ((in_flight_urls slots ++ [url]) ++ done_urls h)).
    { rewrite <- app_assoc. simpl. apply Permutation_middle. }
    refine (conj _ (conj _ (conj _ (conj _ (conj _ Hsn))))).
    + constructor; auto.
    + intros x [<-|Hx]; apply in_or_app; [right; now left | left; auto].
    + apply (Permutation_NoDup Hperm). constructor; auto.
    + intros x Hx. apply (Permutation_in _ (Permutation_sym Hperm)) in Hx.
      apply in_or_app. destruct Hx as [<-|Hx]; [right; now left | left; auto].
    + intros x Hx. auto.
  - pose proof (processUrl_resume_visited io url sh) as Hv.
    pose proof (processUrl_resume_scraped io url sh) as Hsc.
    rewrite H in Hv, Hsc. simpl in Hv, Hsc.
    rewrite in_flight_urls_app in *. simpl in *.
    assert (Hperm : Permutation
                      ((in_flight_urls before ++ url :: in_flight_urls after)
                       ++ done_urls h)
                      ((in_flight_urls before ++ in_flight_urls after)
                       ++ url :: done_urls h)).
    { rewrite <- !app_assoc. simpl.
      apply Permutation_app_head.
      apply (Permutation_middle (in_flight_urls after) (done_urls h) url). }
    assert (Hnd : ~ In url (done_urls h)).
    { apply (Permutation_NoDup Hperm) in Hf.
      apply NoDup_remove_2 in Hf. intros Hin. apply Hf.
      apply in_or_app. now right. }
    rewrite Hv.
    refine (conj He (conj Hev (conj _ (conj _ (conj _ _))))).
    + apply (Permutation_NoDup Hperm Hf).
    + intros x Hx. apply Hfv.
      apply (Permutation_in _ (Permutation_sym Hperm) Hx).
    + intros x Hx. destruct Hsc as [E|[content E]]; rewrite E in Hx;
        [right; auto|].
      rewrite map_app in Hx. apply in_app_or in Hx.
      destruct Hx as [Hx|[<-|[]]]; [right; auto | now left].
    + destruct Hsc as [E|[content E]]; rewrite E; [assumption|].
      rewrite map_app. simpl. apply NoDup_app; auto.
      * constructor; [intros [] | constructor].
      * intros x Hx [<-|[]]. apply Hnd. auto.
  - apply deliver_keeps_calls in H. destruct H as [-> ->].
    repeat split; auto.
  - repeat split; auto.
Qed.

Lemma calls_distinct_reachable (c : Crawl) : reachable c -> calls_distinct c.
Proof.
  induction 1 as [|c c' Hc IH Hstep].
  - unfold calls_distinct. simpl. repeat split; auto using NoDup_nil;
      intros url [].
  - eapply calls_distinct_step; eauto.
Qed.

Lemma inv_io_step (c c' : Crawl) : inv_io c -> step c c' -> inv_io c'.
Proof.
  intros (Hd & Hf & Hin) Hstep.
  destruct Hstep; unfold inv_io, dones_after_calls, fetches_own_url in *;
    simpl in *.
  - split; [split; auto | split; [|intros ? []]].
    intros k u io res v [Hx|Hx]; [discriminate | eauto].
  - rewrite in_flight_urls_app. simpl. rewrite app_nil_r.
    split; [split; auto | split; [|auto]].
    intros k u io res v [Hx|Hx]; [discriminate | eauto].
  - rewrite in_flight_urls_app. simpl.
    split; [split; auto | split].
    + intros k u io res v [Hx|Hx]; [discriminate | eauto].
    + intros x Hx. apply in_app_or in Hx.
      destruct Hx as [Hx|[<-|[]]]; auto.
  - rewrite in_flight_urls_app in *. simpl in *.
    split; [|split].
    + split; [|assumption]. apply Hin. apply in_or_app. right. now left.
    + intros k u io' res v [Hx|Hx]; [|eauto].
      injection Hx as <- <- <- <-. intros Hv.
      pose proof (processUrl_resume_fetches io url sh v) as Hown.
      rewrite H in Hown. auto.
    + intros x Hx. right. apply Hin. apply in_app_or in Hx.
      apply in_or_app. destruct Hx as [Hx|Hx]; [now left | right; now right].
  - pose proof (deliver_only_adds _ _ _ _ _ _ _ H) as Honly.
    split; [|split].
    + refine (deliver_invariant
                (fun _ hh => each_after
                               (fun e earlier =>
                                  match e with
                                  | EvDone n url _ _ =>
                                      In (EvCall n url true) earlier
                                  | _ => True
                                  end) hh)
                _ _ _ _ _ _ _ _ Hd H).
      intros a hh x _ _ Hh. simpl. auto.
    + intros k u io res v Hx.
      destruct (Honly _ Hx) as [Hx'|[x Hx']]; [eauto | discriminate].
    + intros x Hx. eapply deliver_extends; eauto.
  - split; [|split]; auto. intros ? [].
Qed.

Lemma inv_io_reachable (c : Crawl) : reachable c -> inv_io c.
Proof.
  induction 1 as [|c c' Hc IH Hstep].
  - unfold inv_io, dones_after_calls, fetches_own_url. simpl.
    repeat split; auto; intros; contradiction.
  - eapply inv_io_step; eauto.
Qed.

Lemma processUrl_visited (io : PageIO) (url : string) (st : Shared) :
  In url (visitedUrls st) -> processUrl io url st = (st, [], []).
Proof.
  intros H. apply has_In in H. unfold processUrl, processUrl_enter.
  now rewrite H.
Qed.

(** C1. In every state the crawl can reach, no URL has passed the guard of
    [processUrl] twice, no URL has had its [try] block (fetch,
    extraction, record) run twice, and [scrapedData] holds at most one
    record per URL.  A URL that passed the guard is in [visitedUrls]; the
    [try] block of a call, with all its I/O, comes after the guard has
    marked the URL, and it fetches that URL only.  A call on a visited URL
    returns an empty list, leaving the state as it is and doing no I/O. *)
Theorem processed_at_most_once (c : Crawl) :
  reachable c ->
  NoDup (entered_urls (history c))
  /\ NoDup (done_urls (history c))
  /\ NoDup (map fst (scrapedData (shared c)))
  /\ (forall url, In url (entered_urls (history c)) ->
                  In url (visitedUrls (shared c)))
  /\ (forall later earlier n url io res,
        history c = (later ++ EvDone n url io res :: earlier)%list ->
        In (EvCall n url true) earlier
        /\ forall u, In (IOFetch u) io -> u = url)
  /\ (forall io url, In url (visitedUrls (shared c)) ->
                     processUrl io url (shared c) = (shared c, [], [])).
Proof.
  intros Hr. destruct (calls_distinct_reachable c Hr)
    as (He & Hev & Hf & _ & _ & Hsn).
  destruct (inv_io_reachable c Hr) as (Hd & Hown & _).
  repeat split; auto.
  - now apply NoDup_app_remove_l in Hf.
  - unfold dones_after_calls in Hd. rewrite H in Hd.
    now apply each_after_split in Hd.
  - intros u Hu. apply (Hown n url io res u); [|assumption].
    rewrite H. apply in_or_app. right. now left.
  - intros io url. apply processUrl_visited.
Qed.

End DriverFacts.

(** ** The layers of the crawl *)

Section LayerFacts.

Context {api : UrlApi} {dom : DomApi}.

Lemma inv_labels_step (c c' : Crawl) :
  inv_labels c -> step c c' -> inv_labels c'.
Proof.
  intros (Hle & Hlt & Hord) Hstep.
  destruct Hstep; unfold inv_labels, ordered in *; simpl in *.
  - specialize (Hlt eq_refl).
    split; [|split; [discriminate|split; [|assumption]]].
    + intros e [<-|He]; simpl; auto using Nat.lt_le_incl.
    + intros e He. auto using Nat.lt_le_incl.
  - split; [|split; [discriminate|split; [|assumption]]].
    + intros e [<-|He]; simpl; auto.
    + auto.
  - split; [|split; [discriminate|split; [|assumption]]].
    + intros e [<-|He]; simpl; auto.
    + auto.
  - split; [|split; [discriminate|split; [|assumption]]].
    + intros e [<-|He]; simpl; auto.
    + auto.
  - split; [|split; [discriminate|]].
    + refine (deliver_invariant
                (fun _ hh => forall e, In e hh -> label e <= n)
                _ _ _ _ _ _ _ _ Hle H).
      intros a hh x _ _ Hh e [<-|He]; simpl; auto.
    + refine (proj2 (deliver_invariant
                (fun _ hh => (forall e, In e hh -> label e <= n)
                             /\ each_after
                                  (fun e earlier =>
                                     forall e', In e' earlier ->
                                                label e' <= label e) hh)
                _ _ _ _ _ _ _ _ (conj Hle Hord) H)).
      intros a hh x _ _ [Hh Ho]. simpl. repeat split; auto.
      intros e [<-|He]; simpl; auto.
  - split; [|split; [|assumption]].
    + intros e He. apply Nat.le_le_succ_r. auto.
    + intros _ e He. apply Nat.lt_succ_r. auto.
Qed.

Lemma inv_labels_reachable (c : Crawl) : reachable c -> inv_labels c.
Proof.
  induction 1 as [|c c' Hc IH Hstep].
  - unfold inv_labels, ordered. simpl. repeat split; intros; contradiction.
  - eapply inv_labels_step; eauto.
Qed.

(** The calls of a layer in a history that grows without a new layer. *)
Lemma inv_called_grow (n : nat) (h h' : list Event) (pend pend' : list string) :
  (forall e, In e h -> In e h') ->
  (forall k batch, In (EvLayer k batch) h' -> In (EvLayer k batch) h) ->
  (forall url, In url pend ->
               In url pend' \/ exists b, In (EvCall n url b) h') ->
  (forall k, k < n -> called_all k h)
  /\ (forall batch url, In (EvLayer n batch) h -> In url batch ->
                        In url pend \/ exists b, In (EvCall n url b) h) ->
  (forall k, k < n -> called_all k h')
  /\ (forall batch url, In (EvLayer n batch) h' -> In url batch ->
                        In url pend' \/ exists b, In (EvCall n url b) h').
Proof.
  intros Hsub Hlay Hpend [Hold Hcur]. split.
  - intros k Hk batch url Hb Hu.
    destruct (Hold k Hk batch url (Hlay _ _ Hb) Hu) as [b Hc]. eauto.
  - intros batch url Hb Hu.
    destruct (Hcur batch url (Hlay _ _ Hb) Hu) as [Hp|[b Hc]]; eauto.
Qed.

Lemma inv_called_step (c c' : Crawl) :
  inv_labels c -> inv_called c -> step c c' -> inv_called c'.
Proof.
  intros (Hle & Hlt & _) Hinv Hstep.
  destruct Hstep; unfold inv_called in *; simpl in *.
  - destruct Hinv as [Hold _]. specialize (Hlt eq_refl). split.
    + intros k Hk batch url [Hb|Hb] Hu; [injection Hb as -> _; lia|].
      destruct (Hold k Hk batch url Hb Hu) as [b Hc]. exists b. now right.
    + intros batch url [Hb|Hb] Hu; [injection Hb as <-; auto|].
      apply Hlt in Hb. simpl in Hb. lia.
  - refine (inv_called_grow n h _ (url :: pending) pending _ _ _ Hinv).
    + intros e He. now right.
    + intros k batch [Hb|Hb]; [discriminate | assumption].
    + intros x [<-|Hx]; [right; exists false; now left | now left].
  - refine (inv_called_grow n h _ (url :: pending) pending _ _ _ Hinv).
    + intros e He. now right.
    + intros k batch [Hb|Hb]; [discriminate | assumption].
    + intros x [<-|Hx]; [right; exists true; now left | now left].
  - refine (inv_called_grow n h _ pending pending _ _ _ Hinv).
    + intros e He. now right.
    + intros k batch [Hb|Hb]; [discriminate | assumption].
    + auto.
  - refine (inv_called_grow n h h' pending pending _ _ _ Hinv).
    + eapply deliver_extends; eauto.
    + intros k batch Hb.
      destruct (deliver_only_adds _ _ _ _ _ _ _ H _ Hb) as [Hb'|[x Hx]];
        [assumption | discriminate].
    + auto.
  - destruct Hinv as [Hold Hcur]. split.
    + intros k Hk batch url Hb Hu.
      destruct (Nat.eq_dec k n) as [->|Hne];
        [|apply (Hold k ltac:(lia) batch url Hb Hu)].
      destruct (Hcur batch url Hb Hu) as [[]|Hc]. exact Hc.
    + intros batch url Hb Hu. apply Hle in Hb. simpl in Hb. lia.
Qed.

Lemma inv_called_reachable (c : Crawl) : reachable c -> inv_called c.
Proof.
  induction 1 as [|c c' Hc IH Hstep].
  - unfold inv_called, called_all. simpl. split; intros; contradiction.
  - eapply inv_called_step; eauto using inv_labels_reachable.
Qed.

Lemma inv_frontier_step (c c' : Crawl) :
  inv_frontier (normalizeUrl START_URL) c -> step c c' ->
  inv_frontier (normalizeUrl START_URL) c'.
Proof.
  intros Hinv Hstep.
  destruct Hstep; unfold inv_frontier, calls_from_adds, layers_from_adds in *;
    simpl in *.
  - destruct Hinv as (Hact & Hcalls & Hlayers).
    destruct n as [|k].
    + destruct Hact as [-> ->]. repeat split; auto.
      right. repeat split; auto. intros k url [Hx|[]]. discriminate.
    + repeat split; auto; try solve [intros ? []].
  - destruct Hinv as ((Hact & Hpend) & Hcalls & Hlayers).
    destruct n as [|k].
    + destruct Hpend as [Hp|(Hna & -> & Hlen)]; [discriminate|].
      injection Hlen as -> ->.
      repeat split; auto; try solve [intros x Hx; right; auto].
    + repeat split; auto; try solve [intros x Hx; right; auto].
  - destruct Hinv as ((Hact & Hpend) & Hcalls & Hlayers).
    destruct n as [|k].
    + destruct Hpend as [Hp|(Hna & -> & Hlen)]; [discriminate|].
      injection Hlen as -> ->.
      repeat split; auto; try solve [intros x Hx; right; auto].
    + repeat split; auto; try solve [intros x Hx; right; auto].
  - destruct Hinv as ((Hact & Hpend) & Hcalls & Hlayers).
    repeat split; auto; try solve [intros x Hx; right; auto].
    destruct n as [|k].
    + destruct Hpend as [Hp|(_ & Hs & _)]; [now left|].
      destruct before; discriminate.
    + intros x Hx. right. auto.
  - destruct Hinv as ((Hact & Hpend) & Hcalls & Hlayers).
    pose proof (deliver_extends _ _ _ _ _ _ _ H) as Hext.
    assert (Hd : (forall url, In url active' -> In (EvAdd n url) h')
                 /\ each_after
                      (fun e earlier =>
                         match e with
                         | EvCall 0 url _ =>
                             url = normalizeUrl START_URL /\ no_adds earlier
                         | EvCall (S k) url _ => In (EvAdd k url) earlier
                         | _ => True
                         end) h'
                 /\ each_after
                      (fun e earlier =>
                         match e with
                         | EvLayer 0 batch => batch = [normalizeUrl START_URL]
                         | EvLayer (S k) batch =>
                             forall url, In url batch ->
                                         In (EvAdd k url) earlier
                         | _ => True
                         end) h').
    { refine (deliver_invariant
                (fun a hh => (forall url, In url a -> In (EvAdd n url) hh)
                             /\ each_after _ hh /\ each_after _ hh)
                _ _ _ _ _ _ _ _ (conj Hact (conj Hcalls Hlayers)) H).
      intros a hh x _ _ (Ha & Hc & Hl). simpl. repeat split; auto.
      intros url Hu. apply set_add_In in Hu.
      destruct Hu as [->|Hu]; [now left | right; auto]. }
    destruct Hd as (Hact' & Hcalls' & Hlayers').
    repeat split; auto.
    destruct n as [|k].
    + destruct Hpend as [Hp|(_ & Hs & _)]; [now left | discriminate].
    + intros x Hx. auto.
  - destruct Hinv as ((Hact & _) & Hcalls & Hlayers). repeat split; auto.
Qed.

Lemma inv_frontier_reachable (c : Crawl) :
  reachable c -> inv_frontier (normalizeUrl START_URL) c.
Proof.
  induction 1 as [|c c' Hc IH Hstep].
  - unfold inv_frontier, calls_from_adds, layers_from_adds. simpl. auto.
  - eapply inv_frontier_step; eauto.
Qed.

Lemma inv_scope_step (c c' : Crawl) :
  inv_scope c -> step c c' -> inv_scope c'.
Proof.
  intros (Hq & Hr & Hp & Ha) Hstep.
  destruct Hstep;
    unfold inv_scope, adds_before_calls, adds_from_results in *; simpl in *.
  - split; [|split; [|auto]].
    + intros m url b [Hx|Hx]; [discriminate | eauto].
    + intros ? [].
  - split; [|split; [|auto]].
    + intros m x b [Hx|Hx]; [|eauto].
      injection Hx as _ <- _. apply processUrl_enter_None in H0.
      destruct H0 as [Hv|Hv]; [left; now apply has_In | now right].
    + intros l Hl. apply in_app_or in Hl.
      destruct Hl as [Hl|[Hl|[]]].
      * destruct (Hr l Hl) as [Hv [->|(u & io & Hd)]]; split; auto.
        right. exists u, io. now right.
      * injection Hl as <-. split; [intros ? [] | now left].
  - apply processUrl_enter_Some in H0. destruct H0 as (_ & _ & ->). simpl.
    split; [|split; [|auto]].
    + intros m x b [Hx|Hx].
      * injection Hx as _ <- _. left. apply in_or_app. right. now left.
      * destruct (Hq m x b Hx) as [Hv|Hv]; [left; apply in_or_app|]; auto.
    + intros l Hl. apply in_app_or in Hl.
      destruct Hl as [Hl|[Hl|[]]]; [|discriminate].
      destruct (Hr l Hl) as [Hv [->|(u & io & Hd)]]; split; auto.
      right. exists u, io. now right.
  - pose proof (processUrl_resume_visited io url sh) as Hv.
    pose proof (processUrl_resume_valid io url sh) as Hvalid.
    rewrite H in Hv, Hvalid. simpl in Hv, Hvalid. rewrite Hv.
    split; [|split; [|auto]].
    + intros m x b [Hx|Hx]; [discriminate | eauto].
    + intros l Hl. apply in_app_or in Hl.
      destruct Hl as [Hl|[Hl|Hl]].
      * destruct (Hr l) as [Hok [->|(u & io' & Hd)]];
          [apply in_or_app; now left | |]; split; auto.
        right. exists u, io'. now right.
      * injection Hl as <-. split; [auto|].
        right. exists url, tr. now left.
      * destruct (Hr l) as [Hok [->|(u & io' & Hd)]];
          [apply in_or_app; right; now right | |]; split; auto.
        right. exists u, io'. now right.
  - destruct (Hr newUrls (or_introl eq_refl)) as [Hvalid Hfrom].
    pose proof (deliver_extends _ _ _ _ _ _ _ H) as Hext.
    assert (Hd : (forall m url b, In (EvCall m url b) h' ->
                    In url (visitedUrls sh)
                    \/ isValidUrlToCrawl url START_URL_obj = false)
                 /\ (forall e, In e h -> In e h')
                 /\ each_after
                      (fun e earlier =>
                         match e with
                         | EvAdd _ url =>
                             forall m b, ~ In (EvCall m url b) earlier
                         | _ => True
                         end) h'
                 /\ each_after
                      (fun e earlier =>
                         match e with
                         | EvAdd k url =>
                             exists u io res,
                               In (EvDone k u io res) earlier /\ In url res
                         | _ => True
                         end) h').
    { refine (deliver_invariant
                (fun _ hh =>
                   (forall m url b, In (EvCall m url b) hh ->
                      In url (visitedUrls sh)
                      \/ isValidUrlToCrawl url START_URL_obj = false)
                   /\ (forall e, In e h -> In e hh)
                   /\ each_after _ hh /\ each_after _ hh)
                _ _ _ _ _ _ _ _ (conj Hq (conj (fun e He => He) (conj Hp Ha)))
                H).
      intros a hh x Hx Hnv (Hq' & Hsub & Hp' & Ha'). simpl.
      split; [|split; [|split; [split|split]]]; auto.
      - intros m url b [Hc|Hc]; [discriminate | eauto].
      - intros m b Hc. apply has_not_In in Hnv.
        destruct (Hq' m x b Hc) as [Hv|Hv]; [contradiction|].
        rewrite (Hvalid x Hx) in Hv. discriminate.
      - destruct Hfrom as [->|(u & io & Hdone)]; [destruct Hx|].
        exists u, io, newUrls. auto. }
    destruct Hd as (Hq' & _ & Hp' & Ha').
    split; [exact Hq'|split; [|auto]].
    intros l Hl. destruct (Hr l (or_intror Hl)) as [Hok [->|(u & io & Hd)]];
      split; auto.
    right. exists u, io. auto.
  - split; [|split; [|auto]]; [exact Hq | intros ? []].
Qed.

Lemma inv_scope_reachable (c : Crawl) : reachable c -> inv_scope c.
Proof.
  induction 1 as [|c c' Hc IH Hstep].
  - unfold inv_scope, adds_before_calls, adds_from_results. simpl.
    repeat split; auto; intros; contradiction.
  - eapply inv_scope_step; eauto.
Qed.

Lemma each_after_In P (h : list Event) (e : Event) :
  each_after P h -> In e h ->
  exists later earlier, h = (later ++ e :: earlier)%list /\ P e earlier.
Proof.
  intros Hall Hin. apply in_split in Hin. destruct Hin as (l1 & l2 & ->).
  exists l1, l2. split; [reflexivity|]. eapply each_after_split; eauto.
Qed.

Lemma ordered_split (later earlier : list Event) (e : Event) :
  ordered (later ++ e :: earlier) ->
  forall e', In e' later -> label e <= label e'.
Proof.
  unfold ordered. induction later as [|x later IH]; simpl;
    intros [Hx Hrest] e' Hin; [destruct Hin|].
  destruct Hin as [<-|Hin]; [|auto].
  apply Hx. apply in_or_app. right. now left.
Qed.

Lemma adds_before_calls_split (later earlier : list Event) m url b :
  adds_before_calls (later ++ EvCall m url b :: earlier) ->
  forall k, ~ In (EvAdd k url) later.
Proof.
  unfold adds_before_calls. induction later as [|x later IH]; simpl;
    intros [Hx Hrest] k Hin; [destruct Hin|].
  destruct Hin as [->|Hin]; [|eapply IH; eauto].
  apply (Hx m b). apply in_or_app. right. now left.
Qed.

(** Every call of layer [m] is on a URL reached from the start URL by [m]
    links. *)
Lemma calls_linked (start : string) (h : list Event) :
  calls_from_adds start h -> adds_from_results h -> dones_after_calls h ->
  forall m url b, In (EvCall m url b) h -> linked start h m url.
Proof.
  intros Hcalls Hfrom Hdone.
  assert (Hin : forall (later earlier : list Event) (e x : Event),
             h = (later ++ e :: earlier)%list -> In x earlier -> In x h).
  { intros later earlier e x -> Hx. apply in_or_app. right. now right. }
  induction m as [|k IH]; intros url b Hc;
    destruct (each_after_In _ _ _ Hcalls Hc) as (l1 & l2 & Hs1 & Hp).
  - destruct Hp as [-> _]. constructor.
  - pose proof (Hin _ _ _ _ Hs1 Hp) as Hadd.
    destruct (each_after_In _ _ _ Hfrom Hadd)
      as (l3 & l4 & Hs2 & u & io & res & Hd & Hres).
    pose proof (Hin _ _ _ _ Hs2 Hd) as Hd'.
    destruct (each_after_In _ _ _ Hdone Hd') as (l5 & l6 & Hs3 & Hcall).
    apply (linked_step start h k u io res url); auto.
    apply (IH u true). eapply Hin; eauto.
Qed.

(** The loop of [main] can go on exactly when it is inside a layer or the
    frontier is not empty. *)
Lemma step_iff_frontier (c : Crawl) :
  (exists c', step c c') <-> ~ (phase c = Idle /\ activeUrls c = []).
Proof.
  split.
  - intros [c' Hstep] [Hp Ha]. destruct Hstep; simpl in *;
      try discriminate. contradiction.
  - intros Hne. destruct c as [sh active ph n h]. simpl in Hne.
    destruct ph as [|pending slots].
    + eexists. apply step_layer. intros ->. apply Hne. auto.
    + destruct slots as [|[url|newUrls] rest].
      * destruct pending as [|url pending];
          [eexists; apply step_layer_end|].
        destruct (processUrl_enter url sh) as [sh'|] eqn:E; eexists;
          [eapply step_call_enter | eapply step_call_skip]; eauto;
          unfold in_flight, MAX_CONCURRENCY; simpl; lia.
      * destruct (processUrl_resume
                    {| io_fetch := fun _ => Throw "offline";
                       io_ensureDir := Ok tt; io_writeTextFile := Ok tt;
                       io_now := 0 |} url sh) as [[sh' newUrls] tr] eqn:E.
        eexists. apply (step_done _ sh sh' active url pending [] rest _ _ n h E).
      * destruct (deliver (visitedUrls sh) n newUrls active h)
          as [active' h'] eqn:E.
        eexists. eapply step_deliver; eauto.
Qed.

(** C2. In every state the crawl can reach: a URL that entered a frontier
    for the first time during layer [N] is called in a later layer only,
    and by then [processUrl] has been called on every URL of the batch of
    layer [N]; the batch of layer 0 is the normalized start URL and every
    URL of the batch of layer [k+1] was added during layer [k], out of the
    result of a call of layer [k]; a URL called in layer [m] is [m] links
    away from the start URL along such results; and the loop stops exactly
    between two layers with an empty frontier. *)
Theorem breadth_first_layers (c : Crawl) :
  reachable c ->
  (forall later earlier m url b N,
      history c = (later ++ EvCall m url b :: earlier)%list ->
      first_discovered (history c) N url ->
      N < m
      /\ forall batch u, In (EvLayer N batch) (history c) -> In u batch ->
                         exists b', In (EvCall N u b') earlier)
  /\ (forall batch, In (EvLayer 0 batch) (history c) ->
                    batch = [normalizeUrl START_URL])
  /\ (forall k batch url,
        In (EvLayer (S k) batch) (history c) -> In url batch ->
        In (EvAdd k url) (history c)
        /\ exists u io res, In (EvDone k u io res) (history c) /\ In url res)
  /\ (forall m url b,
        In (EvCall m url b) (history c) ->
        linked (normalizeUrl START_URL) (history c) m url)
  /\ ((exists c', step c c') <-> ~ (phase c = Idle /\ activeUrls c = [])).
Proof.
  intros Hr.
  destruct (inv_io_reachable c Hr) as (Hdone & _ & _).
  destruct (inv_labels_reachable c Hr) as (Hle & _ & Hord).
  destruct (inv_called_reachable c Hr) as (Hcalled & _).
  destruct (inv_scope_reachable c Hr) as (_ & _ & Hbefore & Hfrom).
  assert (Hf := inv_frontier_reachable c Hr).
  assert (Hcalls : calls_from_adds (normalizeUrl START_URL) (history c)).
  { unfold inv_frontier in Hf. tauto. }
  assert (Hlayers : layers_from_adds (normalizeUrl START_URL) (history c)).
  { unfold inv_frontier in Hf. tauto. }
  clear Hf. split; [|split; [|split; [|split]]].
  - intros later earlier m url b N Hsplit [Hadd Hmin].
    rewrite Hsplit in *.
    assert (Hearlier : forall k, In (EvAdd k url) (later ++ EvCall m url b :: earlier)
                                 -> In (EvAdd k url) earlier).
    { intros k Hin. apply in_app_or in Hin.
      destruct Hin as [Hin|[Hin|Hin]]; [|discriminate|assumption].
      now apply (adds_before_calls_split _ _ _ _ _ Hbefore) in Hin. }
    assert (Hlt : N < m).
    { apply each_after_split in Hcalls. destruct m as [|k].
      - exfalso. apply (proj2 Hcalls N url). auto.
      - apply Nat.lt_succ_r. apply Hmin. apply in_or_app. right. now right. }
    split; [exact Hlt|].
    intros batch u Hb Hu.
    assert (Hm : m <= layer c).
    { apply (Hle (EvCall m url b)). apply in_or_app. right. now left. }
    destruct (Hcalled N ltac:(lia) batch u Hb Hu) as [b' Hc].
    exists b'. apply in_app_or in Hc.
    destruct Hc as [Hc|[Hc|Hc]]; [| |assumption].
    + apply (ordered_split _ _ _ Hord) in Hc. simpl in Hc. lia.
    + injection Hc as -> _ _. lia.
  - intros batch Hb.
    destruct (each_after_In _ _ _ Hlayers Hb) as (l1 & l2 & _ & H0). exact H0.
  - intros k batch url Hb Hu.
    destruct (each_after_In _ _ _ Hlayers Hb) as (l1 & l2 & Hsplit & Hadds).
    assert (Hadd : In (EvAdd k url) (history c)).
    { rewrite Hsplit. apply in_or_app. right. right. auto. }
    split; [exact Hadd|].
    destruct (each_after_In _ _ _ Hfrom Hadd)
      as (l3 & l4 & Hsplit' & u & io & res & Hd & Hres).
    exists u, io, res. split; [|exact Hres].
    rewrite Hsplit'. apply in_or_app. right. now right.
  - now apply calls_linked.
  - apply step_iff_frontier.
Qed.

Lemma settle_step (web : string -> PageIO) (c c' : Crawl)
    (pending : list string) (slots : list Slot) :
  phase c = InLayer pending slots ->
  settle web c pending slots = Some c' -> step c c'.
Proof.
  destruct c as [sh active ph n h]. simpl. intros ->. unfold settle.
  cbn [shared activeUrls layer history].
  destruct slots as [|[url|newUrls] rest]; [discriminate| |].
  - destruct (processUrl_resume (web url) url sh) as [[sh' newUrls] tr] eqn:E.
    intros [= <-].
    apply (step_done _ sh sh' active url pending [] rest _ _ n h E).
  - destruct (deliver (visitedUrls sh) n newUrls active h)
      as [active' h'] eqn:E.
    intros [= <-]. now apply step_deliver.
Qed.

(** Every move of the executable schedule is a transition of the driver. *)
Lemma schedule_step (web : string -> PageIO) (c c' : Crawl) :
  schedule web c = Some c' -> step c c'.
Proof.
  unfold schedule. destruct (phase c) as [|pending slots] eqn:Ep.
  - destruct c as [sh active ph n h]. simpl in *. subst ph.
    destruct active; [discriminate|]. intros [= <-].
    apply step_layer. discriminate.
  - destruct pending as [|url pending].
    + destruct slots as [|s slots].
      * destruct c as [sh active ph n h]. simpl in *. subst ph.
        intros [= <-]. apply step_layer_end.
      * now apply settle_step.
    + destruct (Nat.ltb_spec (in_flight slots) MAX_CONCURRENCY) as [Hlt|Hge];
        [|now apply settle_step].
      destruct c as [sh active ph n h]. simpl in *. subst ph.
      destruct (processUrl_enter url sh) as [sh'|] eqn:E; intros [= <-].
      * now apply step_call_enter.
      * now apply step_call_skip.
Qed.

Lemma run_reachable (web : string -> PageIO) (fuel : nat) :
  forall c c', reachable c -> run web fuel c = Some c' -> reachable c'.
Proof.
  induction fuel as [|fuel IH]; intros c c' Hr; simpl.
  - destruct (schedule web c); [discriminate | now intros [= <-]].
  - destruct (schedule web c) as [c1|] eqn:E; [|now intros [= <-]].
    apply IH. eapply reachable_step; eauto using schedule_step.
Qed.

Lemma main_reachable (web : string -> PageIO) (fuel : nat) (c : Crawl) :
  main web fuel = Some c -> reachable c.
Proof. apply run_reachable. apply reachable_initial. Qed.

(** When [run] returns, the loop of [main] has been left: the frontier is
    empty and no layer is open. *)
Lemma run_stops_on_empty_frontier (web : string -> PageIO) (fuel : nat) :
  forall c c', run web fuel c = Some c' ->
               phase c' = Idle /\ activeUrls c' = [].
Proof.
  assert (Hstop : forall c, schedule web c = None ->
                            phase c = Idle /\ activeUrls c = []).
  { intros c. unfold schedule.
    destruct (phase c) as [|pending slots].
    - destruct (activeUrls c); [auto | discriminate].
    - assert (Hsettle : forall p, settle web c p slots = None -> slots = []).
      { unfold settle. destruct slots as [|[u|l] rest]; auto; intros p.
        - now destruct (processUrl_resume (web u) u (shared c)) as [[? ?] ?].
        - now destruct (deliver _ _ _ _ _). }
      destruct pending as [|url pending].
      + destruct slots; [discriminate|].
        intros H. apply Hsettle in H. discriminate.
      + destruct (in_flight slots <? MAX_CONCURRENCY)%nat eqn:E.
        * now destruct (processUrl_enter url (shared c)).
        * intros H. apply Hsettle in H. subst slots. discriminate E. }
  induction fuel as [|fuel IH]; intros c c'; simpl;
    destruct (schedule web c) as [c1|] eqn:E; try discriminate.
  - intros [= <-]. auto.
  - apply IH.
  - intros [= <-]. auto.
Qed.

End LayerFacts.

(** ** The crawl of the sample site *)

Module SampleFacts.

Import Sample.

Ltac in_list := vm_compute; repeat (first [left; reflexivity | right]).

Example sample_crawl_ends : main web 100 = Some final.
Proof. vm_compute. reflexivity. Qed.

Example sample_crawl_visits :
  visitedUrls (shared final) = [url_home; url_a; url_b]
  /\ scrapedData (shared final) = [(url_home, "Home"); (url_a, "Page A")]
  /\ phase final = Idle /\ activeUrls final = [].
Proof. vm_compute. auto. Qed.

(** the frontier after the start page: the two links of the section *)
Example sample_first_frontier :
  In (EvLayer 1 [url_a; url_b]) (history final).
Proof. in_list. Qed.

Lemma final_reachable : reachable final.
Proof. apply (main_reachable web 100). vm_compute. reflexivity. Qed.

Lemma processed_at_most_once_witness :
  reachable final
  /\ NoDup (entered_urls (history final))
  /\ NoDup (map fst (scrapedData (shared final))).
Proof.
  split; [exact final_reachable|].
  destruct (processed_at_most_once final final_reachable)
    as (He & _ & Hs & _).
  exact (conj He Hs).
Defined.

Lemma visited_in_scope_witness :
  reachable final
  /\ forall url, In url (visitedUrls (shared final)) ->
                 isValidUrlToCrawl url START_URL_obj = true.
Proof.
  split; [exact final_reachable|].
  exact (visited_in_scope final final_reachable).
Defined.

Lemma breadth_first_layers_witness :
  reachable final
  /\ first_discovered (history final) 0 url_a
  /\ exists later earlier,
       history final = (later ++ EvCall 1 url_a true :: earlier)%list
       /\ forall batch u, In (EvLayer 0 batch) (history final) -> In u batch ->
                          exists b', In (EvCall 0 u b') earlier.
Proof.
  assert (Hfd : first_discovered (history final) 0 url_a).
  { split; [in_list | intros; lia]. }
  assert (Hin : In (EvCall 1 url_a true) (history final)) by in_list.
  destruct (in_split _ _ Hin) as (later & earlier & Hsplit).
  split; [exact final_reachable|]. split; [exact Hfd|].
  exists later, earlier. split; [exact Hsplit|].
  exact (proj2 (proj1 (breadth_first_layers final final_reachable)
                      later earlier 1 url_a true 0 Hsplit Hfd)).
Defined.

Lemma fetchWithRetry_three_tries_witness :
  (forall j, j < 2 -> is_failure (flaky "home" j) = true)
  /\ fetchWithRetry (flaky "home") url_home 3 1000
     = (Ok {| status := 200; text := Ok "home" |},
        retry_trace url_home 1000 0 2).
Proof.
  assert (H : forall j, j < 2 -> is_failure (flaky "home" j) = true).
  { intros [|[|j]] Hj; [reflexivity | reflexivity | lia]. }
  split; [exact H|].
  apply (proj1 (fetchWithRetry_three_tries (flaky "home") url_home 1000) 2);
    [lia | exact H | reflexivity | simpl; lia].
Defined.

Example fetch_gives_up_after_three_failures :
  fetchWithRetry (fun _ => fails 500) url_home 3 1000
  = (Throw ("HTTP error 500 for " ++ url_home), retry_trace url_home 1000 0 2).
Proof. reflexivity. Qed.

Example page_with_failing_fetch_yields_nothing :
  processUrl (online (fun _ => fails 500)) url_home empty_shared
  = ({| visitedUrls := [url_home]; scrapedData := [] |}, [],
     retry_trace url_home 1000 0 2).
Proof. reflexivity. Qed.

Example page_recovered_by_retry :
  fst (processUrl (online (flaky "home")) url_home empty_shared)
  = ({| visitedUrls := [url_home]; scrapedData := [(url_home, "Home")] |},
     [url_a; url_b]).
Proof. reflexivity. Qed.

(** C8, the statement as written fails: the second anchor of the page
    raises an error while it is read; the error is caught, and the call
    returns the URL found in the first anchor. *)
Lemma processUrl_keeps_links_found_before_error :
  try_completion (processUrl_try half_io url_home half_shared)
  = Caught AtLinks "getAttribute"
  /\ snd (fst (processUrl_resume half_io url_home half_shared)) = [url_a]
  /\ ~ (forall io url st stage e,
          try_completion (processUrl_try io url st) = Caught stage e ->
          snd (fst (processUrl_resume io url st)) = []).
Proof.
  assert (Hc : try_completion (processUrl_try half_io url_home half_shared)
               = Caught AtLinks "getAttribute") by (vm_compute; reflexivity).
  assert (Hres : snd (fst (processUrl_resume half_io url_home half_shared))
                 = [url_a]) by (vm_compute; reflexivity).
  repeat split; auto.
  intros H. specialize (H _ _ _ _ _ Hc). rewrite Hres in H. discriminate.
Qed.

Lemma processUrl_resume_on_error_witness :
  fst (fetchWithRetry (io_fetch half_io) url_home 3 1000)
  = Ok {| status := 200; text := Ok "half" |}
  /\ parseFromString "half" = Ok (Some page_half)
  /\ extractText page_half = Ok "Half"
  /\ querySelectorAll_a page_half
     = ([anchor "/zen.ac.jp/zen-gakuseibinran/a"] ++ broken_anchor
        :: [anchor "/zen.ac.jp/zen-gakuseibinran/b"])%list
  /\ getAttribute_href broken_anchor = Throw "getAttribute"
  /\ snd (fst (processUrl_resume half_io url_home half_shared)) = [url_a].
Proof.
  repeat (split; [reflexivity|]).
  refine (proj2 (proj2 (proj2 (proj2 (proj2
            (processUrl_resume_on_error half_io url_home half_shared)))))
            {| status := 200; text := Ok "half" |} "half" page_half "Half"
            [anchor "/zen.ac.jp/zen-gakuseibinran/a"] broken_anchor
            [anchor "/zen.ac.jp/zen-gakuseibinran/b"] "getAttribute"
            eq_refl eq_refl eq_refl eq_refl (or_intror (conj eq_refl eq_refl))
            eq_refl _ eq_refl).
  intros l [<-|[]]. eexists. reflexivity.
Defined.

Lemma processUrl_write_failure_witness :
  io_writeTextFile (disk_full (fun _ => serves "home"))
  = Throw "No space left on device"
  /\ In (IOWriteTextFile "zen.ac.jp_zen-gakuseibinran_home.txt" "Home")
        (snd (processUrl (disk_full (fun _ => serves "home")) url_home
                         empty_shared))
  /\ scrapedData (fst (fst (processUrl (disk_full (fun _ => serves "home"))
                                       url_home empty_shared))) = []
  /\ snd (fst (processUrl (disk_full (fun _ => serves "home")) url_home
                          empty_shared)) = [].
Proof.
  assert (Hin : In (IOWriteTextFile "zen.ac.jp_zen-gakuseibinran_home.txt"
                                    "Home")
                   (snd (processUrl (disk_full (fun _ => serves "home"))
                                    url_home empty_shared))) by in_list.
  split; [reflexivity|]. split; [exact Hin|].
  apply (processUrl_write_failure
           (disk_full (fun _ => serves "home")) url_home empty_shared
           "No space left on device"); [reflexivity|].
  eexists. eexists. exact Hin.
Defined.

End SampleFacts.

(** * Further properties of the crawler *)

(** ** fetchWithRetry, for every number of tries *)

Section RetryFacts.

Variables (fetch : nat -> Exc Response) (url : string).
Variables (retries : nat) (delay : Z).

Lemma fetch_attempt_Ok (i : nat) (r : Response) :
  fetch_attempt fetch url i = Ok r ->
  fetch i = Ok r /\ response_ok r = true.
Proof.
  unfold fetch_attempt. destruct (fetch i) as [r'|e]; [|discriminate].
  destruct (response_ok r') eqn:E; simpl; [|discriminate].
  intros [= <-]. auto.
Qed.

Lemma fetch_attempt_Throw (i : nat) (e : string) :
  fetch_attempt fetch url i = Throw e -> is_failure (fetch i) = true.
Proof.
  unfold fetch_attempt, is_failure, response_ok.
  destruct (fetch i) as [r|e']; [|reflexivity].
  destruct ((200 <=? status r)%Z && (status r <=? 299)%Z); [discriminate|].
  reflexivity.
Qed.

Lemma fetchWithRetry_loop_Ok (r : Response) :
  forall n i,
    fst (fetchWithRetry_loop fetch url retries delay n i) = Ok r ->
    response_ok r = true /\ exists j, i <= j < i + n /\ fetch j = Ok r.
Proof.
  induction n as [|n IH]; intros i; simpl; [discriminate|].
  destruct (fetch_attempt fetch url i) as [r'|e] eqn:Ea.
  - simpl. intros [= ->]. apply fetch_attempt_Ok in Ea.
    split; [tauto|]. exists i. split; [lia | tauto].
  - destruct (Z.of_nat i =? Z.of_nat retries - 1)%Z; [discriminate|].
    specialize (IH (S i)).
    destruct (fetchWithRetry_loop fetch url retries delay n (S i)).
    simpl in *. intros H. destruct (IH H) as (Hok & j & Hj & Hf).
    split; [assumption|]. exists j. split; [lia | assumption].
Qed.

Lemma fetchWithRetry_loop_Throw (e : string) :
  forall n i,
    i + S n = retries ->
    fst (fetchWithRetry_loop fetch url retries delay (S n) i) = Throw e ->
    fetch_attempt fetch url (retries - 1) = Throw e
    /\ forall j, i <= j < retries -> is_failure (fetch j) = true.
Proof.
  induction n as [|n IH]; intros i Hi.
  - simpl. destruct (fetch_attempt fetch url i) as [r|e'] eqn:Ea;
      [discriminate|].
    destruct (Z.eqb_spec (Z.of_nat i) (Z.of_nat retries - 1)); [|lia].
    simpl. intros [= ->]. replace (retries - 1) with i by lia.
    split; [assumption|]. intros j Hj. replace j with i by lia.
    eapply fetch_attempt_Throw; eauto.
  - change (fetchWithRetry_loop fetch url retries delay (S (S n)) i)
      with (match fetch_attempt fetch url i with
            | Ok response => (Ok response, [IOSleep DELAY_MS; IOFetch url])
            | Throw error =>
                if (Z.of_nat i =? Z.of_nat retries - 1)%Z
                then (Throw error, [IOSleep DELAY_MS; IOFetch url])
                else
                  let (result, later) :=
                    fetchWithRetry_loop fetch url retries delay (S n) (S i) in
                  (result,
                   ([IOSleep DELAY_MS; IOFetch url;
                     IOSleep (delay * (Z.of_nat i + 1))] ++ later)%list)
            end).
    destruct (fetch_attempt fetch url i) as [r|e'] eqn:Ea; [discriminate|].
    destruct (Z.eqb_spec (Z.of_nat i) (Z.of_nat retries - 1)); [lia|].
    specialize (IH (S i) ltac:(lia)).
    destruct (fetchWithRetry_loop fetch url retries delay (S n) (S i)).
    simpl in *. intros H. destruct (IH H) as [Hlast Hall].
    split; [assumption|]. intros j Hj.
    destruct (Nat.eq_dec j i) as [->|Hne];
      [eapply fetch_attempt_Throw; eauto | apply Hall; lia].
Qed.

(** X1. A response returned by [fetchWithRetry] has a status in 200..299
    and is the answer to one of the first [retries] calls of [fetch]. *)
Theorem fetchWithRetry_returns_2xx (r : Response) :
  fst (fetchWithRetry fetch url retries delay) = Ok r ->
  (200 <= status r <= 299)%Z /\ exists j, j < retries /\ fetch j = Ok r.
Proof.
  intros H. apply fetchWithRetry_loop_Ok in H.
  destruct H as (Hok & j & Hj & Hf).
  unfold response_ok in Hok. apply andb_true_iff in Hok.
  rewrite !Z.leb_le in Hok. split; [lia|]. exists j. split; [lia|assumption].
Qed.

(** X2. With at least one try, an error thrown by [fetchWithRetry] is the
    error of the last attempt, and every attempt has failed: the [throw]
    after the loop is reached only when [retries] is 0. *)
Theorem fetchWithRetry_throws_last_error (e : string) :
  1 <= retries ->
  fst (fetchWithRetry fetch url retries delay) = Throw e ->
  fetch_attempt fetch url (retries - 1) = Throw e
  /\ forall j, j < retries -> is_failure (fetch j) = true.
Proof.
  intros Hr H. unfold fetchWithRetry in H.
  destruct retries as [|n] eqn:E; [lia|]. rewrite <- E in *.
  assert (Hn : 0 + S n = retries) by lia.
  rewrite E in H at 2.
  destruct (fetchWithRetry_loop_Throw e n 0 Hn H) as [Hlast Hall].
  split; [assumption|]. intros j Hj. apply Hall. lia.
Qed.

Lemma fetchWithRetry_loop_head :
  forall n i,
    snd (fetchWithRetry_loop fetch url retries delay n i) = []
    \/ exists rest,
         snd (fetchWithRetry_loop fetch url retries delay n i)
         = IOSleep DELAY_MS :: rest.
Proof.
  intros [|n] i; simpl; [now left | right].
  destruct (fetch_attempt fetch url i); [simpl; eauto|].
  destruct (Z.of_nat i =? Z.of_nat retries - 1)%Z; [simpl; eauto|].
  destruct (fetchWithRetry_loop fetch url retries delay n (S i)).
  simpl. eauto.
Qed.

Lemma fetchWithRetry_loop_polite :
  forall n i,
    polite (snd (fetchWithRetry_loop fetch url retries delay n i)) = true
    /\ fetch_count (snd (fetchWithRetry_loop fetch url retries delay n i)) <= n
    /\ (1 <= n ->
        1 <= fetch_count
               (snd (fetchWithRetry_loop fetch url retries delay n i))).
Proof.
  unfold fetch_count.
  induction n as [|n IH]; intros i; simpl; [repeat split; lia|].
  destruct (fetch_attempt fetch url i); [simpl; repeat split; lia|].
  destruct (Z.of_nat i =? Z.of_nat retries - 1)%Z;
    [simpl; repeat split; lia|].
  destruct (IH (S i)) as (Hp & Hc & _).
  pose proof (fetchWithRetry_loop_head n (S i)) as Hh.
  destruct (fetchWithRetry_loop fetch url retries delay n (S i))
    as [result later].
  simpl in *. repeat split; try lia.
  destruct Hh as [->|[rest ->]]; [reflexivity|]. exact Hp.
Qed.

(** X3. [fetchWithRetry] calls [fetch] at most [retries] times (at least
    once when [retries] is not 0), and each of these calls comes right
    after a sleep of the politeness delay. *)
Theorem fetchWithRetry_attempts :
  fetch_count (snd (fetchWithRetry fetch url retries delay)) <= retries
  /\ (1 <= retries ->
      1 <= fetch_count (snd (fetchWithRetry fetch url retries delay)))
  /\ polite (snd (fetchWithRetry fetch url retries delay)) = true.
Proof.
  destruct (fetchWithRetry_loop_polite retries 0) as (Hp & Hc & Hone).
  auto.
Qed.

Lemma fetchWithRetry_loop_sleep :
  (0 <= delay)%Z ->
  forall n i,
    i + S n = retries ->
    (2 * sleep_total
           (snd (fetchWithRetry_loop fetch url retries delay (S n) i))
     <= 2 * (Z.of_nat n + 1) * DELAY_MS
        + delay * (2 * Z.of_nat n * Z.of_nat i
                   + Z.of_nat n * (Z.of_nat n + 1)))%Z.
Proof.
  intros Hd.
  induction n as [|n IH]; intros i Hi.
  - cbn [fetchWithRetry_loop].
    destruct (fetch_attempt fetch url i);
      [cbn [snd sleep_total]; unfold DELAY_MS; lia|].
    destruct (Z.eqb_spec (Z.of_nat i) (Z.of_nat retries - 1)); [|lia].
    cbn [snd sleep_total]. unfold DELAY_MS. lia.
  - change (fetchWithRetry_loop fetch url retries delay (S (S n)) i)
      with (match fetch_attempt fetch url i with
            | Ok response => (Ok response, [IOSleep DELAY_MS; IOFetch url])
            | Throw error =>
                if (Z.of_nat i =? Z.of_nat retries - 1)%Z
                then (Throw error, [IOSleep DELAY_MS; IOFetch url])
                else
                  let (result, later) :=
                    fetchWithRetry_loop fetch url retries delay (S n) (S i) in
                  (result,
                   ([IOSleep DELAY_MS; IOFetch url;
                     IOSleep (delay * (Z.of_nat i + 1))] ++ later)%list)
            end).
    destruct (fetch_attempt fetch url i).
    + cbn [snd sleep_total]. unfold DELAY_MS. nia.
    + destruct (Z.eqb_spec (Z.of_nat i) (Z.of_nat retries - 1)); [lia|].
      specialize (IH (S i) ltac:(lia)).
      destruct (fetchWithRetry_loop fetch url retries delay (S n) (S i))
        as [result later].
      cbn [snd sleep_total app] in *. unfold DELAY_MS in *. nia.
Qed.

(** X4. When the backoff base is not negative, [fetchWithRetry] sleeps at
    most [retries * DELAY_MS + delay * (1 + 2 + ... + (retries - 1))]
    milliseconds in all. *)
Theorem fetchWithRetry_sleep_bound :
  (0 <= delay)%Z ->
  (2 * sleep_total (snd (fetchWithRetry fetch url retries delay))
   <= 2 * Z.of_nat retries * DELAY_MS
      + delay * Z.of_nat retries * (Z.of_nat retries - 1))%Z.
Proof.
  intros Hd. unfold fetchWithRetry.
  destruct retries as [|n] eqn:E; [cbn [fetchWithRetry_loop snd sleep_total]; lia|].
  rewrite <- E.
  assert (Hn : 0 + S n = retries) by lia.
  pose proof (fetchWithRetry_loop_sleep Hd n 0 Hn) as H.
  rewrite E at 2. rewrite E in H at 1. rewrite E. nia.
Qed.

End RetryFacts.

(** ** The names of the text files *)

Lemma string_forallb_map (p : ascii -> bool) (f : ascii -> ascii) (s : string) :
  (forall c, p (f c) = true) -> string_forallb p (string_map f s) = true.
Proof.
  intros H. induction s as [|c s IH]; simpl; [reflexivity|].
  now rewrite H, IH.
Qed.

Lemma string_forallb_substring (p : ascii -> bool) (s : string) :
  string_forallb p s = true ->
  forall n m, string_forallb p (substring n m s) = true.
Proof.
  induction s as [|c s IH]; intros H n m.
  - now destruct n, m.
  - simpl in H. apply andb_true_iff in H. destruct H as [Hc Hs].
    destruct n, m; simpl; auto. now rewrite Hc, IH.
Qed.

Lemma string_forallb_get (p : ascii -> bool) (s : string) :
  string_forallb p s = true ->
  forall i c, get i s = Some c -> p c = true.
Proof.
  induction s as [|d s IH]; intros H i c; [discriminate|].
  simpl in H. apply andb_true_iff in H. destruct H as [Hd Hs].
  destruct i; simpl; [now intros [= <-] | eauto].
Qed.

Section FilenameFacts.

Context {api : UrlApi}.

Lemma filename_stem_safe (u : URL) :
  string_forallb is_filename_char (filename_stem u) = true
  /\ 1 <= String.length (filename_stem u).
Proof.
  unfold filename_stem.
  set (s := sanitize_chars _).
  assert (Hs : string_forallb is_filename_char s = true).
  { apply string_forallb_map. intros c.
    destruct (is_filename_char c) eqn:E; [exact E | reflexivity]. }
  destruct s; simpl in *; [split; [reflexivity | lia]|].
  split; [exact Hs | lia].
Qed.

(** X5. For a URL that parses, the filename is a stem followed by the
    extension, where the stem has between 1 and 100 characters, all of them
    letters, digits, [_], [-] or [.]; in particular the stem contains no
    slash. *)
Theorem urlToFilename_safe (now : Z) (url extension : string) (u : URL) :
  new_URL url = Some u ->
  exists stem,
    urlToFilename now url extension = stem ++ extension
    /\ 1 <= String.length stem <= 100
    /\ string_forallb is_filename_char stem = true
    /\ forall i, get i stem <> Some "/"%char.
Proof.
  intros Hu. exists (truncate_filename (filename_stem u)).
  destruct (filename_stem_safe u) as [Hsafe Hlen].
  assert (Hchars : string_forallb is_filename_char
                     (truncate_filename (filename_stem u)) = true).
  { unfold truncate_filename.
    destruct (maxLength <? String.length (filename_stem u))%nat;
      [now apply string_forallb_substring | exact Hsafe]. }
  split; [unfold urlToFilename; now rewrite Hu|].
  split; [|split; [exact Hchars|]].
  - destruct (Nat.le_gt_cases (String.length (filename_stem u)) maxLength)
      as [Hle|Hgt].
    + rewrite truncate_filename_short by assumption.
      unfold maxLength in Hle. lia.
    + destruct (truncate_filename_long _ Hgt) as [Hl _].
      rewrite Hl. unfold maxLength. lia.
  - intros i Hi.
    apply (string_forallb_get _ _ Hchars) in Hi. discriminate.
Qed.

End FilenameFacts.

(** ** One call of processUrl *)

Section CallFacts.

Context {api : UrlApi} {dom : DomApi}.

(** X6. When no anchor fails while it is read, the loop over the anchors
    returns, after the URLs it started with, the targets of the anchors in
    document order, each anchor contributing independently of the others
    (a target linked twice is returned twice). *)
Theorem findLinks_in_document_order (visited : list string) (url : string)
    (links : list Element) (acc : list string) :
  (forall link, In link links ->
                exists href, getAttribute_href link = Ok href) ->
  findLinks visited url links acc
  = ((acc ++ flat_map (link_targets visited url) links)%list, Ok tt).
Proof. intros H. now apply findLinks_flat_map. Qed.

Lemma processUrl_resume_fresh io url st x :
  In x (snd (fst (processUrl_resume io url st))) ->
  isValidUrlToCrawl x START_URL_obj = true /\ ~ In x (visitedUrls st).
Proof.
  unfold processUrl_resume. simpl.
  destruct (processUrl_try_cases io url st)
    as [[Hf [_ _]]|[d [s [i [-> [Hv _]]]]]].
  - rewrite Hf. now destruct (try_completion _).
  - unfold enumerate_links.
    destruct (findLinks (visitedUrls s) url (querySelectorAll_a d) [])
      as [found result] eqn:Ef.
    simpl. intros H.
    assert (Hin : In x found) by (destruct result; exact H).
    pose proof (findLinks_valid (visitedUrls s) url (querySelectorAll_a d) [] x)
      as Hx.
    rewrite Ef in Hx. destruct (Hx Hin) as [[]|[Hx1 Hx2]].
    rewrite Hv in Hx2. apply has_not_In in Hx2. auto.
Qed.

(** X7. Every URL returned by a call of [processUrl] is in scope, was not
    visited before the call, and is not the URL of the call itself. *)
Theorem processUrl_returns_fresh_urls (io : PageIO) (url : string)
    (st : Shared) (x : string) :
  In x (snd (fst (processUrl io url st))) ->
  isValidUrlToCrawl x START_URL_obj = true
  /\ ~ In x (visitedUrls st)
  /\ x <> url.
Proof.
  unfold processUrl.
  destruct (processUrl_enter url st) as [st'|] eqn:E; [|intros []].
  apply processUrl_enter_Some in E. destruct E as (_ & _ & ->).
  intros H. apply processUrl_resume_fresh in H. simpl in H.
  destruct H as [Hv Hn]. split; [exact Hv|].
  split; intros Hx; apply Hn; apply in_or_app; [now left|].
  right. left. now symmetry.
Qed.

(** What a call does to [scrapedData]: nothing, or one record for its own
    URL with the non-empty text whose file it has just written. *)
Lemma processUrl_resume_record (io : PageIO) (url : string) (st : Shared) :
  let st' := fst (fst (processUrl_resume io url st)) in
  let tr := snd (processUrl_resume io url st) in
  (scrapedData st' = scrapedData st
   /\ ((forall f c, ~ In (IOWriteTextFile f c) tr)
       \/ exists e, io_writeTextFile io = Throw e))
  \/ (exists content,
        content <> ""
        /\ scrapedData st' = (scrapedData st ++ [(url, content)])%list
        /\ In (IOWriteTextFile (urlToFilename (io_now io) url ".txt") content)
              tr
        /\ io_ensureDir io = Ok tt
        /\ io_writeTextFile io = Ok tt).
Proof.
  unfold processUrl_resume, processUrl_try. simpl.
  pose proof (fetchWithRetry_io (io_fetch io) url 3 1000) as Hio.
  destruct (fetchWithRetry (io_fetch io) url 3 1000) as [fetched io1].
  simpl in Hio.
  destruct fetched as [response|e]; [|left; simpl; auto].
  destruct (text response) as [html|e]; [|left; simpl; auto].
  destruct (parseFromString html) as [[document|]|e];
    [|left; simpl; auto|left; simpl; auto].
  destruct (extractText document) as [textContent|e]; [|left; simpl; auto].
  destruct (is_empty textContent) eqn:Ee; simpl.
  - left. unfold enumerate_links. destruct (findLinks _ _ _ _). simpl. auto.
  - destruct (io_ensureDir io) as [[]|e].
    2:{ left. simpl. split; [reflexivity|]. left. intros f c Hin.
        apply in_app_or in Hin. destruct Hin as [Hin|[Hin|[]]];
          [now apply (Hio f c) | discriminate]. }
    destruct (io_writeTextFile io) as [[]|e]; [|left; simpl; eauto].
    right. exists textContent. unfold enumerate_links.
    destruct (findLinks _ _ _ _). simpl.
    repeat split; auto.
    + intros ->. discriminate.
    + apply in_or_app. right. right. now left.
Qed.

(** X8. A call of [processUrl] appends at most one record to
    [scrapedData].  It appends the record of its own URL, with a non-empty
    text, exactly after it has written that text to the file named by
    [urlToFilename]; when the write is not attempted or throws, nothing is
    appended. *)
Theorem processUrl_record_iff_written (io : PageIO) (url : string)
    (st : Shared) :
  let st' := fst (fst (processUrl io url st)) in
  let tr := snd (processUrl io url st) in
  (scrapedData st' = scrapedData st
   /\ ((forall f c, ~ In (IOWriteTextFile f c) tr)
       \/ exists e, io_writeTextFile io = Throw e))
  \/ (exists content,
        content <> ""
        /\ scrapedData st' = (scrapedData st ++ [(url, content)])%list
        /\ In (IOWriteTextFile (urlToFilename (io_now io) url ".txt") content)
              tr
        /\ io_ensureDir io = Ok tt
        /\ io_writeTextFile io = Ok tt).
Proof.
  unfold processUrl.
  destruct (processUrl_enter url st) as [st1|] eqn:E.
  - apply processUrl_enter_Some in E. destruct E as (_ & _ & ->).
    exact (processUrl_resume_record io url
             {| visitedUrls := (visitedUrls st ++ [url])%list;
                scrapedData := scrapedData st |}).
  - left. simpl. auto.
Qed.

End CallFacts.

(** ** The shared containers along a run *)

Ltac step_cases Hstep :=
  destruct Hstep as
    [ sh active n h Hne
    | sh active url pending slots n h Hlt Hent
    | sh sh' active url pending slots n h Hlt Hent
    | io sh sh' active url pending before after newUrls tr n h Hres
    | sh active active' pending newUrls slots n h h' Hdel
    | sh active n h ].

Lemma entered_urls_In (h : list Event) (n : nat) (url : string) :
  In (EvCall n url true) h -> In url (entered_urls h).
Proof.
  unfold entered_urls. intros H. apply in_flat_map.
  exists (EvCall n url true). split; [assumption | now left].
Qed.

Section ContainerFacts.

Context {api : UrlApi} {dom : DomApi}.

Lemma visited_scope_inv (c : Crawl) :
  reachable c ->
  forall url, In url (visitedUrls (shared c)) ->
              isValidUrlToCrawl url START_URL_obj = true.
Proof.
  induction 1 as [|c c' Hc IH Hstep]; [intros url []|].
  step_cases Hstep; simpl in *; auto.
  - apply processUrl_enter_Some in Hent. destruct Hent as [_ [Hv ->]].
    simpl. intros x Hx. apply in_app_or in Hx.
    destruct Hx as [Hx|[<-|[]]]; auto.
  - pose proof (processUrl_resume_visited io url sh) as Hv.
    rewrite Hres in Hv. simpl in Hv. rewrite Hv. exact IH.
Qed.

(** X9. In every state the crawl can reach, a URL that a call has fetched
    is the URL of that call, is in scope, and is in [visitedUrls]: nothing
    outside the allowed host and path prefix is ever requested. *)
Theorem fetched_urls_in_scope (c : Crawl) :
  reachable c ->
  forall n url io res u,
    In (EvDone n url io res) (history c) -> In (IOFetch u) io ->
    u = url
    /\ isValidUrlToCrawl u START_URL_obj = true
    /\ In u (visitedUrls (shared c)).
Proof.
  intros Hr n url io res u Hd Hu.
  destruct (inv_io_reachable c Hr) as (Hdone & Hown & _).
  destruct (calls_distinct_reachable c Hr) as (_ & Hev & _).
  assert (E : u = url) by (eapply Hown; eauto). subst u.
  destruct (each_after_In _ _ _ Hdone Hd) as (l1 & l2 & Hs & Hcall).
  assert (Hv : In url (visitedUrls (shared c))).
  { apply Hev. apply (entered_urls_In _ n). rewrite Hs.
    apply in_or_app. right. now right. }
  repeat split; auto. eapply visited_scope_inv; eauto.
Qed.

Lemma records_written_inv (c : Crawl) :
  reachable c ->
  forall url content,
    In (url, content) (scrapedData (shared c)) ->
    content <> ""
    /\ exists n io res now,
         In (EvDone n url io res) (history c)
         /\ In (IOWriteTextFile (urlToFilename now url ".txt") content) io.
Proof.
  induction 1 as [|c c' Hc IH Hstep]; [intros url content []|].
  assert (Hgrow : forall h',
             (forall e, In e (history c) -> In e h') ->
             forall url content,
               In (url, content) (scrapedData (shared c)) ->
               content <> ""
               /\ exists n io res now,
                    In (EvDone n url io res) h'
                    /\ In (IOWriteTextFile (urlToFilename now url ".txt")
                                           content) io).
  { intros h' Hsub url content Hin.
    destruct (IH url content Hin) as (Hne & n & io & res & now & Hd & Hw).
    split; [assumption|]. exists n, io, res, now. auto. }
  step_cases Hstep; simpl in *.
  - apply (Hgrow (EvLayer n active :: h)). intros e He. now right.
  - apply (Hgrow (EvCall n url false :: h)). intros e He. now right.
  - apply processUrl_enter_Some in Hent. destruct Hent as (_ & _ & ->).
    simpl. apply (Hgrow (EvCall n url true :: h)). intros e He. now right.
  - pose proof (processUrl_resume_record io url sh) as Hrec.
    rewrite Hres in Hrec. simpl in Hrec.
    intros x content Hin.
    destruct Hrec as [[Heq _]|(t & Hne & Heq & Hw & _)]; rewrite Heq in Hin.
    + apply (Hgrow (EvDone n url tr newUrls :: h)); auto.
      intros e He. now right.
    + apply in_app_or in Hin. destruct Hin as [Hin|[Hin|[]]].
      * apply (Hgrow (EvDone n url tr newUrls :: h)); auto.
        intros e He. now right.
      * injection Hin as <- <-. split; [assumption|].
        exists n, tr, newUrls, (io_now io). split; [now left | assumption].
  - apply (Hgrow h'). eapply deliver_extends; eauto.
  - apply (Hgrow h). auto.
Qed.

(** X10. In every state the crawl can reach, every record of [scrapedData]
    has a non-empty text and the URL of a call that wrote this text to the
    text file of that URL; the URL is visited and in scope. *)
Theorem records_have_files (c : Crawl) :
  reachable c ->
  forall url content,
    In (url, content) (scrapedData (shared c)) ->
    content <> ""
    /\ In url (visitedUrls (shared c))
    /\ isValidUrlToCrawl url START_URL_obj = true
    /\ exists n io res now,
         In (EvDone n url io res) (history c)
         /\ In (IOWriteTextFile (urlToFilename now url ".txt") content) io.
Proof.
  intros Hr url content Hin.
  destruct (records_written_inv c Hr url content Hin) as [Hne Hfile].
  destruct (calls_distinct_reachable c Hr) as (_ & _ & _ & Hfv & Hs & _).
  assert (Hv : In url (visitedUrls (shared c))).
  { apply Hfv. apply in_or_app. right. apply Hs.
    apply in_map_iff. exists (url, content). auto. }
  repeat split; auto. eapply visited_scope_inv; eauto.
Qed.

Lemma step_appends (c c' : Crawl) :
  step c c' ->
  exists v s,
    visitedUrls (shared c') = (visitedUrls (shared c) ++ v)%list
    /\ scrapedData (shared c') = (scrapedData (shared c) ++ s)%list.
Proof.
  intros Hstep. step_cases Hstep; simpl;
    try (exists [], []; now rewrite !app_nil_r).
  - apply processUrl_enter_Some in Hent. destruct Hent as (_ & _ & ->). simpl.
    exists [url], []. now rewrite app_nil_r.
  - pose proof (processUrl_resume_visited io url sh) as Hv.
    pose proof (processUrl_resume_scraped io url sh) as Hs.
    rewrite Hres in Hv, Hs. simpl in Hv, Hs. rewrite Hv.
    destruct Hs as [->|[content ->]].
    + exists [], []. now rewrite !app_nil_r.
    + exists [], [(url, content)]. now rewrite app_nil_r.
Qed.

(** X11. [visitedUrls] and [scrapedData] are append-only: whatever the
    driver does between two states, the earlier content of both is a prefix
    of the later one. *)
Theorem containers_append_only (c c' : Crawl) :
  steps c c' ->
  exists v s,
    visitedUrls (shared c') = (visitedUrls (shared c) ++ v)%list
    /\ scrapedData (shared c') = (scrapedData (shared c) ++ s)%list.
Proof.
  induction 1 as [c|c c' c'' Hsteps IH Hstep].
  - exists [], []. now rewrite !app_nil_r.
  - destruct IH as (v & s & Hv & Hs).
    destruct (step_appends _ _ Hstep) as (v' & s' & Hv' & Hs').
    exists (v ++ v')%list, (s ++ s')%list.
    rewrite Hv', Hs', Hv, Hs, !app_assoc. auto.
Qed.

Lemma visited_entered_inv (c : Crawl) :
  reachable c ->
  visitedUrls (shared c) = rev (entered_urls (history c))
  /\ Permutation (entered_urls (history c))
                 (in_flight_urls (slots_of (phase c))
                  ++ done_urls (history c)).
Proof.
  induction 1 as [|c c' Hc [IHv IHp] Hstep]; [simpl; auto|].
  step_cases Hstep; simpl in *; auto.
  - rewrite in_flight_urls_app. simpl. rewrite app_nil_r. auto.
  - apply processUrl_enter_Some in Hent. destruct Hent as (_ & _ & ->). simpl.
    rewrite IHv, in_flight_urls_app. simpl. split; [reflexivity|].
    rewrite <- app_assoc. simpl. apply Permutation_cons_app. exact IHp.
  - pose proof (processUrl_resume_visited io url sh) as Hv.
    rewrite Hres in Hv. simpl in Hv. rewrite Hv.
    rewrite in_flight_urls_app in *. simpl in *. split; [assumption|].
    rewrite IHp, <- !app_assoc. simpl.
    apply Permutation_app_head.
    apply (Permutation_middle (in_flight_urls after) (done_urls h) url).
  - apply deliver_keeps_calls in Hdel. destruct Hdel as [-> ->]. auto.
Qed.

(** X13. In every state the crawl can reach, [visitedUrls] lists the URLs
    that passed the guard of [processUrl], in the order of the calls; each
    of them is the URL of exactly one call, unsettled or done; between two
    layers, and so at the end of the crawl, every visited URL has had its
    [try] block run. *)
Theorem visited_urls_processed (c : Crawl) :
  reachable c ->
  visitedUrls (shared c) = rev (entered_urls (history c))
  /\ Permutation (visitedUrls (shared c))
                 (in_flight_urls (slots_of (phase c))
                  ++ done_urls (history c))
  /\ (phase c = Idle ->
      Permutation (visitedUrls (shared c)) (done_urls (history c))).
Proof.
  intros Hr. destruct (visited_entered_inv c Hr) as [Hv Hp].
  assert (Hperm : Permutation (visitedUrls (shared c))
                    (in_flight_urls (slots_of (phase c))
                     ++ done_urls (history c))).
  { rewrite Hv, <- Hp. apply Permutation_sym, Permutation_rev. }
  repeat split; auto.
  intros Hi. rewrite Hi in Hperm. exact Hperm.
Qed.

End ContainerFacts.

(** ** The depth of the crawl and its frontiers *)

Section DepthFacts.

Context {api : UrlApi} {dom : DomApi}.

Lemma entered_now_grow (c c' : Crawl) :
  layer c' = layer c ->
  (forall e, In e (history c) -> In e (history c')) ->
  entered_now c -> entered_now c'.
Proof.
  unfold entered_now. intros -> Hsub [url Hu]. exists url. auto.
Qed.

Lemma layer_paid_step (c c' : Crawl) :
  inv_labels c -> layer_paid c -> step c c' -> layer_paid c'.
Proof.
  intros (_ & Hidle & _) Hpaid Hstep.
  step_cases Hstep; unfold layer_paid, entered_now in *; simpl in *.
  - destruct Hpaid as [_ Hact]. specialize (Hact Hne).
    split; [exact Hact|]. split.
    + intros [url [Hu|Hu]]; [discriminate|].
      apply (Hidle eq_refl) in Hu. simpl in Hu. lia.
    + intros [H|[[url []]|[l [_ []]]]]. contradiction.
  - destruct Hpaid as (Hle & Hnow & Hsome).
    split; [exact Hle|]. split.
    + intros [u [Hu|Hu]]; [discriminate|]. apply Hnow. eauto.
    + intros H.
      assert (Hold : exists u, In (EvCall n u true) h).
      { apply Hsome. destruct H as [H|[[u Hu]|[l [Hl Hin]]]]; auto.
        - right. left. exists u. apply in_app_or in Hu.
          destruct Hu as [Hu|[Hu|[]]]; [assumption | discriminate].
        - right. right. exists l. split; [assumption|].
          apply in_app_or in Hin.
          destruct Hin as [Hin|[Hin|[]]]; [assumption|].
          injection Hin as <-. contradiction. }
      destruct Hold as [u Hu]. exists u. now right.
  - destruct Hpaid as (Hle & Hnow & Hsome).
    split; [lia|]. split; [intros _; lia|].
    intros _. exists url. now left.
  - destruct Hpaid as (Hle & Hnow & Hsome).
    assert (Hold : exists u, In (EvCall n u true) h).
    { apply Hsome. right. left. exists url. apply in_or_app. right. now left. }
    split; [exact Hle|]. split.
    + intros _. apply Hnow. exact Hold.
    + intros _. destruct Hold as [u Hu]. exists u. now right.
  - destruct Hpaid as (Hle & Hnow & Hsome).
    pose proof (deliver_keeps_calls _ _ _ _ _ _ _ Hdel) as [He _].
    pose proof (deliver_extends _ _ _ _ _ _ _ Hdel) as Hext.
    pose proof (deliver_only_adds _ _ _ _ _ _ _ Hdel) as Honly.
    rewrite He.
    assert (Hback : (exists u, In (EvCall n u true) h') ->
                    exists u, In (EvCall n u true) h).
    { intros [u Hu]. exists u.
      destruct (Honly _ Hu) as [Hu'|[x Hx]]; [assumption | discriminate]. }
    split; [exact Hle|]. split; [intros H; apply Hnow; auto|].
    intros H.
    assert (Hold : exists u, In (EvCall n u true) h).
    { apply Hsome. destruct H as [H|[[u Hu]|[l [Hl Hin]]]].
      - destruct newUrls as [|x rest].
        + simpl in Hdel. injection Hdel as <- _. now left.
        + right. right. exists (x :: rest). split; [discriminate | now left].
      - right. left. exists u. now right.
      - right. right. exists l. split; [assumption | now right]. }
    destruct Hold as [u Hu]. exists u. auto.
  - destruct Hpaid as (Hle & Hnow & Hsome).
    split; [lia|]. intros Hact.
    assert (Hn : n + 1 <= List.length (entered_urls h)) by auto.
    lia.
Qed.

Lemma layer_paid_reachable (c : Crawl) : reachable c -> layer_paid c.
Proof.
  induction 1 as [|c c' Hc IH Hstep].
  - unfold layer_paid. simpl. split; intros; lia.
  - eapply layer_paid_step; eauto using inv_labels_reachable.
Qed.

(** X14. In every state the crawl can reach, the number of the current
    layer is at most the number of visited URLs plus one: every layer that
    leaves a non-empty frontier has marked at least one new URL visited. *)
Theorem depth_bounded_by_visited (c : Crawl) :
  reachable c ->
  layer c <= List.length (visitedUrls (shared c)) + 1
  /\ (activeUrls c <> [] \/ phase c <> Idle ->
      layer c <= List.length (visitedUrls (shared c))).
Proof.
  intros Hr. pose proof (layer_paid_reachable c Hr) as Hpaid.
  destruct (visited_entered_inv c Hr) as [Hv _].
  rewrite Hv, length_rev. unfold layer_paid in Hpaid.
  destruct (phase c) as [|pending slots].
  - destruct Hpaid as [H1 H2]. split; [exact H1|].
    intros [H|H]; [auto | contradiction].
  - destruct Hpaid as [H1 _]. split; [lia | auto].
Qed.

Lemma deliver_NoDup visited n newUrls active h active' h' :
  deliver visited n newUrls active h = (active', h') ->
  NoDup active -> NoDup active'.
Proof.
  intros Hdel Hnd.
  refine (deliver_invariant (fun a _ => NoDup a) _ _ _ _ _ _ _ _ Hnd Hdel).
  intros a hh x _ _ Ha. now apply set_add_NoDup.
Qed.

Lemma deliver_active visited n newUrls active h active' h' :
  deliver visited n newUrls active h = (active', h') ->
  forall x, In x active' -> In x active \/ In x newUrls.
Proof.
  revert active h. induction newUrls as [|y rest IH]; intros active h; simpl.
  - intros [= <- <-]. auto.
  - destruct (has visited y); simpl; intros Hd x Hx;
      destruct (IH _ _ Hd x Hx) as [H|H]; auto.
    apply set_add_In in H. destruct H as [->|H]; auto.
Qed.

Lemma frontier_inv (c : Crawl) :
  reachable c ->
  NoDup (activeUrls c)
  /\ NoDup (pending_of (phase c))
  /\ (forall n batch, In (EvLayer n batch) (history c) -> NoDup batch)
  /\ (forall k url, In (EvAdd k url) (history c) ->
                    isValidUrlToCrawl url START_URL_obj = true).
Proof.
  induction 1 as [|c c' Hc (Ha & Hp & Hb & Hv) Hstep].
  - simpl. repeat split; try constructor; auto; try constructor;
      intros; contradiction.
  - pose proof (inv_scope_reachable c Hc) as (_ & Hslots & _).
    step_cases Hstep; simpl in *.
    + split; [constructor|]. split; [exact Ha|]. split.
      * intros m batch [Hx|Hx]; [injection Hx as _ <-; assumption | eauto].
      * intros k url [Hx|Hx]; [discriminate | eauto].
    + apply NoDup_cons_iff in Hp. split; [exact Ha|]. split; [tauto|]. split.
      * intros m batch [Hx|Hx]; [discriminate | eauto].
      * intros k u [Hx|Hx]; [discriminate | eauto].
    + apply NoDup_cons_iff in Hp. split; [exact Ha|]. split; [tauto|]. split.
      * intros m batch [Hx|Hx]; [discriminate | eauto].
      * intros k u [Hx|Hx]; [discriminate | eauto].
    + split; [exact Ha|]. split; [exact Hp|]. split.
      * intros m batch [Hx|Hx]; [discriminate | eauto].
      * intros k u [Hx|Hx]; [discriminate | eauto].
    + destruct (Hslots newUrls (or_introl eq_refl)) as [Hvalid _].
      pose proof (deliver_only_adds _ _ _ _ _ _ _ Hdel) as Honly.
      split; [eapply deliver_NoDup; eauto|]. split; [assumption|]. split.
      * intros m batch Hx.
        destruct (Honly _ Hx) as [Hx'|[x Hx']]; [eauto | discriminate].
      * refine (deliver_invariant
                  (fun _ hh => forall k url, In (EvAdd k url) hh ->
                     isValidUrlToCrawl url START_URL_obj = true)
                  _ _ _ _ _ _ _ _ Hv Hdel).
        intros a hh x Hx _ Hh k url [Heq|Hin]; [|eauto].
        injection Heq as _ <-. auto.
    + split; [exact Ha|]. split; [constructor|]. split; assumption.
Qed.

(** X15. In every state the crawl can reach, the frontier and every batch
    are free of duplicates, and every URL of a batch after the first one is
    in scope and was added to the frontier during the layer before. *)
Theorem batches_distinct_in_scope (c : Crawl) :
  reachable c ->
  NoDup (activeUrls c)
  /\ (forall n batch, In (EvLayer n batch) (history c) -> NoDup batch)
  /\ (forall k batch url,
        In (EvLayer (S k) batch) (history c) -> In url batch ->
        In (EvAdd k url) (history c)
        /\ isValidUrlToCrawl url START_URL_obj = true).
Proof.
  intros Hr. destruct (frontier_inv c Hr) as (Ha & _ & Hb & Hv).
  assert (Hf := inv_frontier_reachable c Hr).
  assert (Hlayers : layers_from_adds (normalizeUrl START_URL) (history c)).
  { unfold inv_frontier in Hf. tauto. }
  repeat split; auto.
  - destruct (each_after_In _ _ _ Hlayers H) as (l1 & l2 & Hs & Hadds).
    rewrite Hs. apply in_or_app. right. right. auto.
  - destruct (each_after_In _ _ _ Hlayers H) as (l1 & l2 & Hs & Hadds).
    apply (Hv k). rewrite Hs. apply in_or_app. right. right. auto.
Qed.

End DepthFacts.

(** ** The crawl of a finite site ends *)

Lemma slot_work_app (a b : list Slot) :
  list_sum (map slot_work (a ++ b))
  = list_sum (map slot_work a) + list_sum (map slot_work b).
Proof. now rewrite map_app, list_sum_app. Qed.

Section TerminationFacts.

Context {api : UrlApi} {dom : DomApi}.

Lemma frontier_in_step (universe : list string) (c c' : Crawl) :
  frontier_in universe c -> results_in universe c -> step c c' ->
  frontier_in universe c'.
Proof.
  intros (Ha & Hp & He & Hn) Hin Hstep.
  step_cases Hstep; unfold frontier_in, results_in in *; simpl in *.
  - split; [intros x []|]. split; [exact Ha|]. split; [exact He|constructor].
  - split; [exact Ha|]. split; [|split; assumption].
    intros x Hx. apply Hp. now right.
  - split; [exact Ha|]. split; [|split; [|exact Hn]].
    + intros x Hx. apply Hp. now right.
    + intros x [<-|Hx]; [apply Hp; now left | auto].
  - split; [exact Ha|]. split; [exact Hp|]. split; assumption.
  - pose proof (deliver_keeps_calls _ _ _ _ _ _ _ Hdel) as [Hent _].
    rewrite Hent. split; [|split; [exact Hp|split; [exact He|]]].
    + intros x Hx.
      destruct (deliver_active _ _ _ _ _ _ _ Hdel x Hx) as [H|H]; auto.
      apply (Hin newUrls); auto.
    + eapply deliver_NoDup; eauto.
  - split; [exact Ha|]. split; [intros x []|]. split; assumption.
Qed.

Lemma schedule_results (web : string -> PageIO) (site universe : list string)
    (c c' : Crawl) :
  site_closed web site -> incl site universe ->
  results_in universe c -> schedule web c = Some c' ->
  results_in universe c'.
Proof.
  intros Hsite Hincl Hres. unfold schedule, results_in in *.
  destruct c as [sh active ph n h]. simpl in *.
  assert (Hsettle : forall pending slots,
             (forall l, In (Resolved l) slots -> incl l universe) ->
             settle web {| shared := sh; activeUrls := active;
                           phase := ph; layer := n; history := h |}
                    pending slots = Some c' ->
             forall l, In (Resolved l) (slots_of (phase c')) ->
                       incl l universe).
  { intros pending slots Hs. unfold settle.
    cbn [shared activeUrls layer history].
    destruct slots as [|[url|newUrls] rest]; [discriminate| |].
    - destruct (processUrl_resume (web url) url sh) as [[sh' newUrls] tr]
        eqn:E.
      intros [= <-]. simpl. intros l [Hl|Hl].
      + injection Hl as <-. intros x Hx. apply Hincl.
        apply (Hsite url sh x). now rewrite E.
      + apply Hs. now right.
    - destruct (deliver (visitedUrls sh) n newUrls active h) as [a' h'].
      intros [= <-]. simpl. intros l Hl. apply Hs. now right. }
  destruct ph as [|pending slots]; simpl in *.
  - destruct active; [discriminate|]. intros [= <-]. simpl. intros l [].
  - destruct pending as [|url pending].
    + destruct slots as [|s slots].
      * intros [= <-]. simpl. intros l [].
      * apply Hsettle. exact Hres.
    + destruct (in_flight slots <? MAX_CONCURRENCY)%nat;
        [|apply Hsettle; exact Hres].
      destruct (processUrl_enter url sh); intros [= <-]; simpl;
        intros l Hl; apply in_app_or in Hl;
        destruct Hl as [Hl|[Hl|[]]]; auto; try discriminate.
      injection Hl as <-. intros x [].
Qed.

Lemma potential_step (universe : list string) (size : nat) (c c' : Crawl) :
  layer_paid c -> frontier_in universe c ->
  NoDup (entered_urls (history c)) ->
  List.length universe <= size ->
  step c c' ->
  potential size c' < potential size c.
Proof.
  intros Hpaid (Ha & _ & He & Hn) Hnd Hsize Hstep.
  assert (Hcount : List.length (entered_urls (history c)) <= size).
  { etransitivity; [apply NoDup_incl_length; eassumption | assumption]. }
  assert (Hact : List.length (activeUrls c) <= size).
  { etransitivity; [apply NoDup_incl_length; eassumption | assumption]. }
  step_cases Hstep; unfold potential, work, layer_paid in *; simpl in *.
  - destruct active; [contradiction|]. simpl. lia.
  - rewrite slot_work_app. simpl. lia.
  - rewrite slot_work_app. simpl. lia.
  - rewrite !slot_work_app. simpl. lia.
  - lia.
  - destruct Hpaid as [Hle _].
    replace (size + 1 - n) with (S (size - n)) by lia.
    replace (size + 1 - S n) with (size - n) by lia.
    rewrite Nat.mul_succ_l. destruct active; simpl in *; lia.
Qed.

Lemma run_within_potential (web : string -> PageIO) (site : list string) :
  site_closed web site ->
  forall fuel c,
    reachable c ->
    frontier_in (normalizeUrl START_URL :: site) c ->
    results_in (normalizeUrl START_URL :: site) c ->
    potential (S (List.length site)) c <= fuel ->
    exists c', run web fuel c = Some c'.
Proof.
  intros Hsite.
  assert (Hnext : forall c c',
             reachable c ->
             frontier_in (normalizeUrl START_URL :: site) c ->
             results_in (normalizeUrl START_URL :: site) c ->
             schedule web c = Some c' ->
             reachable c'
             /\ frontier_in (normalizeUrl START_URL :: site) c'
             /\ results_in (normalizeUrl START_URL :: site) c'
             /\ potential (S (List.length site)) c'
                < potential (S (List.length site)) c).
  { intros c c' Hr Hf Hres Hs.
    pose proof (schedule_step web c c' Hs) as Hstep.
    split; [eapply reachable_step; eauto|].
    split; [eapply frontier_in_step; eauto|].
    split.
    - eapply schedule_results; eauto. intros x Hx. now right.
    - eapply potential_step; eauto.
      + now apply layer_paid_reachable.
      + now destruct (calls_distinct_reachable c Hr) as [H _]. }
  induction fuel as [|fuel IH]; intros c Hr Hf Hres Hpot; simpl;
    destruct (schedule web c) as [c1|] eqn:E; eauto.
  - destruct (Hnext c c1 Hr Hf Hres E) as (_ & _ & _ & Hlt). lia.
  - destruct (Hnext c c1 Hr Hf Hres E) as (Hr1 & Hf1 & Hres1 & Hlt).
    apply IH; auto. lia.
Qed.

(** X16. When every link found on the pages of a site points into a finite
    list of URLs, the crawl ends: the loop of [main] is left, with an empty
    frontier and no call unsettled, within [crawl_fuel site] transitions of
    the schedule. *)
Theorem crawl_of_closed_site_ends (web : string -> PageIO)
    (site : list string) :
  site_closed web site ->
  exists c,
    main web (crawl_fuel site) = Some c
    /\ reachable c
    /\ phase c = Idle /\ activeUrls c = [].
Proof.
  intros Hsite.
  destruct (run_within_potential web site Hsite (crawl_fuel site) initial)
    as [c Hc].
  - apply reachable_initial.
  - unfold frontier_in. simpl. repeat split.
    + intros x [<-|[]]. now left.
    + intros x [].
    + intros x [].
    + constructor; [intros [] | constructor].
  - intros l [].
  - unfold potential, crawl_fuel, work. simpl. lia.
  - exists c. split; [exact Hc|]. split.
    + eapply main_reachable; eauto.
    + eapply run_stops_on_empty_frontier; eauto.
Qed.

End TerminationFacts.

(** ** Where the returned URLs come from *)

Section ProvenanceFacts.

Context {api : UrlApi} {dom : DomApi}.

Lemma findLinks_provenance (visited : list string) (url : string)
    (links : list Element) :
  forall acc x,
    In x (fst (findLinks visited url links acc)) ->
    In x acc
    \/ exists link href,
         In link links
         /\ getAttribute_href link = Ok (Some href)
         /\ link_target visited href url = Some x.
Proof.
  induction links as [|link links IH]; intros acc x; simpl; [auto|].
  assert (Hrest : forall acc',
             In x (fst (findLinks visited url links acc')) ->
             In x acc'
             \/ exists l href,
                  (link = l \/ In l links)
                  /\ getAttribute_href l = Ok (Some href)
                  /\ link_target visited href url = Some x).
  { intros acc' H. destruct (IH acc' x H) as [Ha|(l & href & Hl & Hh & Ht)];
      [now left | right; exists l, href; auto]. }
  destruct (getAttribute_href link) as [[href|]|e] eqn:Ea; simpl; auto.
  destruct (is_empty href); auto.
  destruct (link_target visited href url) as [target|] eqn:Et; auto.
  intros H. destruct (Hrest _ H) as [Ha|Hex]; [|now right].
  apply in_app_or in Ha. destruct Ha as [Ha|[<-|[]]]; [now left|].
  right. exists link, href. auto.
Qed.

(** X17. Every URL returned by the [try] block of [processUrl] comes from
    an anchor of the document parsed from the body of a 2xx response to one
    of the first three fetches of the page: it is the normalized form of
    the anchor's [href] resolved against the URL of the page. *)
Theorem returned_urls_provenance (io : PageIO) (url : string) (st : Shared)
    (x : string) :
  In x (snd (fst (processUrl_resume io url st))) ->
  exists i response html document link href resolved,
    i < 3
    /\ io_fetch io i = Ok response
    /\ (200 <= status response <= 299)%Z
    /\ text response = Ok html
    /\ parseFromString html = Ok (Some document)
    /\ In link (querySelectorAll_a document)
    /\ getAttribute_href link = Ok (Some href)
    /\ new_URL_base href url = Some resolved
    /\ x = normalizeUrl (URL_toString resolved).
Proof.
  unfold processUrl_resume, processUrl_try. simpl.
  assert (Hok : forall r,
             fst (fetchWithRetry_loop (io_fetch io) url 3 1000 3 0) = Ok r ->
             response_ok r = true
             /\ exists j, 0 <= j < 0 + 3 /\ io_fetch io j = Ok r).
  { intros r. apply fetchWithRetry_loop_Ok. }
  unfold fetchWithRetry.
  destruct (fetchWithRetry_loop (io_fetch io) url 3 1000 3 0)
    as [fetched io1].
  destruct fetched as [response|e]; [|intros []].
  destruct (Hok response eq_refl) as (Hr & i & Hi & Hf).
  unfold response_ok in Hr. apply andb_true_iff in Hr.
  rewrite !Z.leb_le in Hr.
  destruct (text response) as [html|e] eqn:Et; [|intros []].
  destruct (parseFromString html) as [[document|]|e] eqn:Ep;
    [|intros []|intros []].
  destruct (extractText document) as [textContent|e]; [|intros []].
  assert (Hlinks : forall st' io',
             In x match try_completion (enumerate_links document url st' io')
                  with
                  | ReturnedEmpty => []
                  | _ => try_newUrlsFound (enumerate_links document url st' io')
                  end ->
             exists link href resolved,
               In link (querySelectorAll_a document)
               /\ getAttribute_href link = Ok (Some href)
               /\ new_URL_base href url = Some resolved
               /\ x = normalizeUrl (URL_toString resolved)).
  { intros st' io'. unfold enumerate_links.
    destruct (findLinks (visitedUrls st') url (querySelectorAll_a document) [])
      as [found result] eqn:Ef.
    simpl. intros H.
    assert (Hin : In x found) by (destruct result; exact H).
    pose proof (findLinks_provenance (visitedUrls st') url
                  (querySelectorAll_a document) [] x) as Hprov.
    rewrite Ef in Hprov.
    destruct (Hprov Hin) as [[]|(link & href & Hl & Hh & Ht)].
    unfold link_target in Ht.
    destruct (new_URL_base href url) as [resolved|] eqn:Eb; [|discriminate].
    destruct (isValidUrlToCrawl _ _ && negb _); [|discriminate].
    injection Ht as <-. exists link, href, resolved. auto. }
  assert (Hdone : forall st' io',
             In x match try_completion (enumerate_links document url st' io')
                  with
                  | ReturnedEmpty => []
                  | _ => try_newUrlsFound (enumerate_links document url st' io')
                  end ->
             exists i response html document link href resolved,
               i < 3
               /\ io_fetch io i = Ok response
               /\ (200 <= status response <= 299)%Z
               /\ text response = Ok html
               /\ parseFromString html = Ok (Some document)
               /\ In link (querySelectorAll_a document)
               /\ getAttribute_href link = Ok (Some href)
               /\ new_URL_base href url = Some resolved
               /\ x = normalizeUrl (URL_toString resolved)).
  { intros st' io' H.
    destruct (Hlinks st' io' H) as (link & href & resolved & H1 & H2 & H3 & H4).
    exists i, response, html, document, link, href, resolved.
    repeat split; auto; lia. }
  destruct (is_empty textContent); simpl; [apply Hdone|].
  destruct (io_ensureDir io) as [[]|e]; [|intros []].
  destruct (io_writeTextFile io) as [[]|e]; [|intros []].
  apply Hdone.
Qed.

Lemma run_steps (web : string -> PageIO) (fuel : nat) :
  forall c c', run web fuel c = Some c' -> steps c c'.
Proof.
  assert (Hone : forall c c1 c', schedule web c = Some c1 ->
                                 steps c1 c' -> steps c c').
  { intros c c1 c' Hs Hsteps. apply schedule_step in Hs.
    induction Hsteps as [c1|c1 c2 c3 H12 IH H23].
    - eapply steps_step; [apply steps_refl | exact Hs].
    - eapply steps_step; eauto. }
  induction fuel as [|fuel IH]; intros c c'; simpl;
    destruct (schedule web c) as [c1|] eqn:E; try discriminate.
  - intros [= <-]. constructor.
  - intros H. eapply Hone; eauto.
  - intros [= <-]. constructor.
Qed.

End ProvenanceFacts.

(** ** No discovered URL is dropped *)

Lemma deliver_adds_all visited n newUrls :
  forall active h active' h',
    deliver visited n newUrls active h = (active', h') ->
    forall x, In x newUrls -> In x visited \/ In (EvAdd n x) h'.
Proof.
  induction newUrls as [|y rest IH]; intros active h active' h' Hd x;
    simpl in *; [intros []|].
  destruct (has visited y) eqn:E; simpl in Hd.
  - intros [<-|Hx]; [left; now apply has_In | eauto].
  - intros [<-|Hx]; [|eauto]. right.
    eapply deliver_extends; [exact Hd | now left].
Qed.

Section CompletenessFacts.

Context {api : UrlApi} {dom : DomApi}.

(** a URL added to a frontier is visited or still waiting for its call; a
    result is still in the pool or all its URLs are visited or added *)
Lemma queued_inv (c : Crawl) :
  reachable c ->
  (forall k x, In (EvAdd k x) (history c) ->
               In x (visitedUrls (shared c))
               \/ In x (activeUrls c)
               \/ In x (pending_of (phase c)))
  /\ (forall n u io res,
        In (EvDone n u io res) (history c) ->
        In (Resolved res) (slots_of (phase c))
        \/ forall x, In x res ->
                     In x (visitedUrls (shared c))
                     \/ exists k, In (EvAdd k x) (history c)).
Proof.
  induction 1 as [|c c' Hc [IHa IHd] Hstep]; [split; intros; contradiction|].
  destruct (frontier_inv c Hc) as (_ & _ & _ & Hvalid).
  step_cases Hstep; simpl in *.
  - split.
    + intros k x [Hx|Hx]; [discriminate|].
      destruct (IHa k x Hx) as [H|[H|[]]]; auto.
    + intros m u io res [Hx|Hx]; [discriminate|].
      destruct (IHd m u io res Hx) as [[]|H]. right.
      intros x Hin. destruct (H x Hin) as [Hv|[k Hk]]; eauto.
  - split.
    + intros k x [Hx|Hx]; [discriminate|].
      destruct (IHa k x Hx) as [H|[H|[<-|H]]]; auto.
      apply processUrl_enter_None in Hent.
      destruct Hent as [Hv|Hv]; [left; now apply has_In|].
      rewrite (Hvalid k url Hx) in Hv. discriminate.
    + intros m u io res [Hx|Hx]; [discriminate|].
      destruct (IHd m u io res Hx) as [H|H].
      * left. apply in_or_app. now left.
      * right. intros x Hin. destruct (H x Hin) as [Hv|[k Hk]]; eauto.
  - apply processUrl_enter_Some in Hent. destruct Hent as (_ & _ & ->).
    simpl. split.
    + intros k x [Hx|Hx]; [discriminate|].
      destruct (IHa k x Hx) as [H|[H|[<-|H]]]; auto.
      * left. apply in_or_app. now left.
      * left. apply in_or_app. right. now left.
    + intros m u io res [Hx|Hx]; [discriminate|].
      destruct (IHd m u io res Hx) as [H|H].
      * left. apply in_or_app. now left.
      * right. intros x Hin. destruct (H x Hin) as [Hv|[k Hk]]; eauto.
        left. apply in_or_app. now left.
  - pose proof (processUrl_resume_visited io url sh) as Hv.
    rewrite Hres in Hv. simpl in Hv. rewrite Hv. split.
    + intros k x [Hx|Hx]; [discriminate | eauto].
    + intros m u io' res [Hx|Hx].
      * injection Hx as _ _ _ <-. left. apply in_or_app. right. now left.
      * destruct (IHd m u io' res Hx) as [H|H].
        -- left. apply in_app_or in H. apply in_or_app.
           destruct H as [H|[H|H]]; [now left | discriminate | ].
           right. now right.
        -- right. intros x Hin. destruct (H x Hin) as [Hv'|[k Hk]]; eauto.
  - pose proof (deliver_extends _ _ _ _ _ _ _ Hdel) as Hext.
    pose proof (deliver_only_adds _ _ _ _ _ _ _ Hdel) as Honly.
    pose proof (deliver_adds_all _ _ _ _ _ _ _ Hdel) as Hall.
    split.
    + refine (deliver_invariant
                (fun a hh => forall k x, In (EvAdd k x) hh ->
                   In x (visitedUrls sh) \/ In x a \/ In x pending)
                _ _ _ _ _ _ _ _ IHa Hdel).
      intros a hh y _ _ Hh k x [Hx|Hx].
      * injection Hx as _ <-. right. left. apply set_add_In. now left.
      * destruct (Hh k x Hx) as [H|[H|H]]; auto.
        right. left. apply set_add_In. now right.
    + intros m u io res Hx.
      destruct (Honly _ Hx) as [Hx'|[y Hy]]; [|discriminate].
      destruct (IHd m u io res Hx') as [[H|H]|H].
      * injection H as <-. right. intros x Hin.
        destruct (Hall x Hin) as [Hv|Ha]; eauto.
      * now left.
      * right. intros x Hin. destruct (H x Hin) as [Hv|[k Hk]]; eauto.
  - split; [exact IHa|]. intros m u io res Hx.
    destruct (IHd m u io res Hx) as [[]|H]. now right.
Qed.

(** X18. In every state the crawl can reach, a URL that was added to a
    frontier is visited or still waiting for its call.  When the crawl has
    ended, every URL that any call has returned is in [visitedUrls]: no
    discovered URL is dropped. *)
Theorem discovered_urls_visited (c : Crawl) :
  reachable c ->
  (forall k x, In (EvAdd k x) (history c) ->
               In x (visitedUrls (shared c))
               \/ In x (activeUrls c)
               \/ In x (pending_of (phase c)))
  /\ (phase c = Idle -> activeUrls c = [] ->
      forall n u io res x,
        In (EvDone n u io res) (history c) -> In x res ->
        In x (visitedUrls (shared c))).
Proof.
  intros Hr. destruct (queued_inv c Hr) as [Ha Hd].
  split; [exact Ha|].
  intros Hi He n u io res x Hdone Hx.
  rewrite Hi in *. rewrite He in *. simpl in *.
  destruct (Hd n u io res Hdone) as [[]|H].
  destruct (H x Hx) as [Hv|[k Hk]]; [assumption|].
  destruct (Ha k x Hk) as [Hv|[[]|[]]]. exact Hv.
Qed.

End CompletenessFacts.

(** ** The further properties on the sample site *)

Module SampleProperties.

Import Sample.

Ltac in_list := vm_compute; repeat (first [left; reflexivity | right]).

Lemma fetchWithRetry_returns_2xx_witness :
  fst (fetchWithRetry (flaky "home") url_home 3 1000)
  = Ok {| status := 200; text := Ok "home" |}
  /\ exists j, j < 3 /\ flaky "home" j = Ok {| status := 200; text := Ok "home" |}.
Proof.
  split; [reflexivity|].
  exact (proj2 (fetchWithRetry_returns_2xx (flaky "home") url_home 3 1000
                  {| status := 200; text := Ok "home" |} eq_refl)).
Defined.

Lemma fetchWithRetry_throws_last_error_witness :
  1 <= 3
  /\ fst (fetchWithRetry (fun _ => fails 500) url_home 3 1000)
     = Throw ("HTTP error 500 for " ++ url_home)
  /\ fetch_attempt (fun _ => fails 500) url_home 2
     = Throw ("HTTP error 500 for " ++ url_home).
Proof.
  split; [lia|]. split; [reflexivity|].
  apply (fetchWithRetry_throws_last_error (fun _ => fails 500) url_home 3 1000);
    [lia | reflexivity].
Defined.

Lemma fetchWithRetry_sleep_bound_witness :
  (0 <= 1000)%Z
  /\ (sleep_total (snd (fetchWithRetry (fun _ => fails 500) url_home 3 1000))
      <= 4500)%Z.
Proof.
  split; [lia|].
  pose proof (fetchWithRetry_sleep_bound (fun _ => fails 500) url_home 3 1000
                ltac:(lia)) as H.
  unfold DELAY_MS in H. lia.
Defined.

Lemma urlToFilename_safe_witness :
  new_URL long_url
  = Some {| RefUrl.scheme := "https"; RefUrl.host := "x";
            RefUrl.port := None;
            RefUrl.path := "/" ++ replicate 50 "a" ++ replicate 100 "b";
            RefUrl.query := None; RefUrl.fragment := None |}
  /\ exists stem,
       urlToFilename 0 long_url ".txt" = stem ++ ".txt"
       /\ 1 <= String.length stem <= 100
       /\ string_forallb is_filename_char stem = true
       /\ forall i, get i stem <> Some "/"%char.
Proof.
  split; [vm_compute; reflexivity|].
  exact (urlToFilename_safe 0 long_url ".txt" _ eq_refl).
Defined.

Lemma findLinks_in_document_order_witness :
  (forall link, In link (querySelectorAll_a home_page) ->
                exists href, getAttribute_href link = Ok href)
  /\ findLinks [url_home] url_home (querySelectorAll_a home_page) []
     = ([url_a; url_b], Ok tt).
Proof.
  assert (H : forall link, In link (querySelectorAll_a home_page) ->
                           exists href, getAttribute_href link = Ok href).
  { intros link [<-|[<-|[<-|[]]]]; eexists; reflexivity. }
  split; [exact H|].
  rewrite (findLinks_in_document_order [url_home] url_home
             (querySelectorAll_a home_page) [] H).
  reflexivity.
Defined.

Lemma processUrl_returns_fresh_urls_witness :
  In url_a (snd (fst (processUrl (web url_home) url_home empty_shared)))
  /\ isValidUrlToCrawl url_a START_URL_obj = true
  /\ ~ In url_a (visitedUrls empty_shared)
  /\ url_a <> url_home.
Proof.
  assert (H : In url_a
                 (snd (fst (processUrl (web url_home) url_home empty_shared))))
    by in_list.
  split; [exact H|].
  exact (processUrl_returns_fresh_urls (web url_home) url_home empty_shared
           url_a H).
Defined.

Lemma returned_urls_provenance_witness :
  In url_a (snd (fst (processUrl_resume (web url_home) url_home half_shared)))
  /\ exists i response html document link href resolved,
       i < 3
       /\ io_fetch (web url_home) i = Ok response
       /\ (200 <= status response <= 299)%Z
       /\ text response = Ok html
       /\ parseFromString html = Ok (Some document)
       /\ In link (querySelectorAll_a document)
       /\ getAttribute_href link = Ok (Some href)
       /\ new_URL_base href url_home = Some resolved
       /\ url_a = normalizeUrl (URL_toString resolved).
Proof.
  assert (H : In url_a (snd (fst (processUrl_resume (web url_home) url_home
                                                    half_shared))))
    by in_list.
  split; [exact H|].
  exact (returned_urls_provenance (web url_home) url_home half_shared url_a H).
Defined.

Lemma home_done_recorded : In home_done (history final).
Proof. in_list. Qed.

Lemma fetched_urls_in_scope_witness :
  reachable final
  /\ In home_done (history final)
  /\ isValidUrlToCrawl url_home START_URL_obj = true
  /\ In url_home (visitedUrls (shared final)).
Proof.
  split; [exact SampleFacts.final_reachable|].
  split; [exact home_done_recorded|].
  refine (proj2 (fetched_urls_in_scope final SampleFacts.final_reachable
                   0 url_home _ _ url_home home_done_recorded _)).
  right. now left.
Defined.

Lemma records_have_files_witness :
  reachable final
  /\ In (url_home, "Home") (scrapedData (shared final))
  /\ "Home" <> ""
  /\ In url_home (visitedUrls (shared final)).
Proof.
  assert (H : In (url_home, "Home") (scrapedData (shared final))) by in_list.
  split; [exact SampleFacts.final_reachable|]. split; [exact H|].
  destruct (records_have_files final SampleFacts.final_reachable
              url_home "Home" H) as (Hne & Hv & _).
  exact (conj Hne Hv).
Defined.

Lemma crawl_steps : steps initial final.
Proof. apply (run_steps web 100). vm_compute. reflexivity. Qed.

Lemma containers_append_only_witness :
  steps initial final
  /\ exists v s,
       visitedUrls (shared final) = (visitedUrls (shared initial) ++ v)%list
       /\ scrapedData (shared final)
          = (scrapedData (shared initial) ++ s)%list.
Proof.
  split; [exact crawl_steps|].
  exact (containers_append_only initial final crawl_steps).
Defined.

Lemma visited_urls_processed_witness :
  reachable final
  /\ visitedUrls (shared final) = rev (entered_urls (history final))
  /\ (phase final = Idle ->
      Permutation (visitedUrls (shared final)) (done_urls (history final))).
Proof.
  split; [exact SampleFacts.final_reachable|].
  destruct (visited_urls_processed final SampleFacts.final_reachable)
    as (Hv & _ & Hp).
  exact (conj Hv Hp).
Defined.

Lemma depth_bounded_by_visited_witness :
  reachable final
  /\ layer final <= List.length (visitedUrls (shared final)) + 1.
Proof.
  split; [exact SampleFacts.final_reachable|].
  exact (proj1 (depth_bounded_by_visited final SampleFacts.final_reachable)).
Defined.

Lemma batches_distinct_in_scope_witness :
  reachable final
  /\ NoDup (activeUrls final)
  /\ (forall n batch, In (EvLayer n batch) (history final) -> NoDup batch).
Proof.
  split; [exact SampleFacts.final_reachable|].
  destruct (batches_distinct_in_scope final SampleFacts.final_reachable)
    as (Ha & Hb & _).
  exact (conj Ha Hb).
Defined.

(** every link of the sample site points into [site] *)
Lemma sample_site_closed : site_closed web site.
Proof.
  intros url st x Hx.
  apply returned_urls_provenance in Hx.
  destruct Hx as (i & response & html & document & link & href & resolved
                  & Hi & Hf & Hst & Ht & Hp & Hl & Hh & Hb & ->).
  unfold web, online in Hf. cbn [io_fetch] in Hf.
  destruct (String.eqb url url_home) eqn:E1;
    [|destruct (String.eqb url url_a) eqn:E2;
      [|destruct (String.eqb url url_b) eqn:E3]].
  - apply String.eqb_eq in E1. subst url.
    injection Hf as <-. simpl in Ht. injection Ht as <-.
    simpl in Hp. injection Hp as <-.
    destruct Hl as [<-|[<-|[<-|[]]]]; simpl in Hh; injection Hh as <-;
      vm_compute in Hb; injection Hb as <-; in_list.
  - apply String.eqb_eq in E2. subst url.
    injection Hf as <-. simpl in Ht. injection Ht as <-.
    simpl in Hp. injection Hp as <-.
    destruct Hl as [<-|[<-|[]]]; simpl in Hh; injection Hh as <-;
      vm_compute in Hb; injection Hb as <-; in_list.
  - apply String.eqb_eq in E3. subst url.
    injection Hf as <-. simpl in Ht. injection Ht as <-.
    simpl in Hp. injection Hp as <-.
    destruct Hl as [<-|[]]; simpl in Hh; injection Hh as <-;
      vm_compute in Hb; injection Hb as <-; in_list.
  - injection Hf as <-. simpl in Hst. lia.
Qed.

Lemma crawl_of_closed_site_ends_witness :
  site_closed web site
  /\ exists c,
       main web (crawl_fuel site) = Some c
       /\ reachable c
       /\ phase c = Idle /\ activeUrls c = [].
Proof.
  split; [exact sample_site_closed|].
  exact (crawl_of_closed_site_ends web site sample_site_closed).
Defined.

Example default_retry_budget (fetch : nat -> Exc Response) (url : string) :
  (sleep_total (snd (fetchWithRetry fetch url 3 1000)) <= 4500)%Z
  /\ fetch_count (snd (fetchWithRetry fetch url 3 1000)) <= 3.
Proof.
  split.
  - pose proof (fetchWithRetry_loop_sleep fetch url 3 1000 ltac:(lia) 2 0
                  eq_refl) as H.
    unfold fetchWithRetry, DELAY_MS in *. lia.
  - apply (fetchWithRetry_loop_polite fetch url 3 1000 3 0).
Qed.

Lemma discovered_urls_visited_witness :
  reachable final
  /\ phase final = Idle /\ activeUrls final = []
  /\ In home_done (history final)
  /\ In url_b (visitedUrls (shared final)).
Proof.
  split; [exact SampleFacts.final_reachable|].
  split; [reflexivity|]. split; [reflexivity|].
  split; [exact home_done_recorded|].
  refine (proj2 (discovered_urls_visited final SampleFacts.final_reachable)
                eq_refl eq_refl 0 url_home _ _ url_b home_done_recorded _).
  right. now left.
Defined.

End SampleProperties.
